(** * ElasticETL: the data-shaping core, embedded and verified

  A shallow embedding of the Go sources of ElasticETL:
  - [Utils]     : pkg/utils  (macro substitution, time expressions)
  - [Extract]   : pkg/extract (endpoint fan-in, flattening, key filters)
  - [Transform] : pkg/transform (depth-analysed CSV columniser, history)
  - [Load]      : pkg/load (time-series grouping of the GEM stream)
  - [TimeCheck], [PathUtils] : pkg/utils (validation, path helpers)
  - [Env], [FlatKeys], [Endpoint] : pkg/extract (environment references,
    flattened keys, the retry loop of an endpoint call)
  - [Conversion] : pkg/transform (null substitution, conversions, Transform)
  - [Metrics], [Pipeline] : pkg/metrics, pkg/pipeline (collector, execute)
  - [Loader], [Config] : pkg/load, pkg/config (fan-out over the streams,
    csv stream, validation)

  Go strings are byte sequences: they are modelled by [string] (a list of
  8-bit [ascii]).  Go maps are [gmap]s; wherever the source ranges over a
  map and the visiting order can be observed, the order is an explicit
  argument of the model.  Go [int]/[int64] are [Z] with the range checks
  the source relies on written out. *)

From Stdlib Require Import ZArith Ascii String Lia.
From Stdlib Require Import Floats.SpecFloat.
From stdpp Require Import gmap strings list sorting pretty fin_maps fin_sets.

Set Warnings "-register-all".
Set Default Proof Using "Type".

(* ===================================================================== *)
(** * Go runtime: the [strings] package *)
(* ===================================================================== *)

Module GoStrings.

Definition byte_eqb (a b : ascii) : bool := Ascii.eqb a b.

Definition isDigit (c : ascii) : bool :=
  (48 <=? nat_of_ascii c) && (nat_of_ascii c <=? 57).

Definition isUpperAZ (c : ascii) : bool :=
  (65 <=? nat_of_ascii c) && (nat_of_ascii c <=? 90).

Definition isLowerAZ (c : ascii) : bool :=
  (97 <=? nat_of_ascii c) && (nat_of_ascii c <=? 122).

(** The class [\s] of Go's regexp syntax: TAB, LF, FF, CR, space (no VT). *)
Definition isReSpace (c : ascii) : bool :=
  let n := nat_of_ascii c in
  (n =? 9) || (n =? 10) || (n =? 12) || (n =? 13) || (n =? 32).

Definition toUpperByte (c : ascii) : ascii :=
  if isLowerAZ c then ascii_of_nat (nat_of_ascii c - 32) else c.

Definition toLowerByte (c : ascii) : ascii :=
  if isUpperAZ c then ascii_of_nat (nat_of_ascii c + 32) else c.

(** The text of the bytes with the given codes. *)
Definition bytes (codes : list nat) : string :=
  string_of_list_ascii (ascii_of_nat <$> codes).

(** [strings.ToUpper].  One-byte runes are mapped as Go maps them.  Two
    runes outside ASCII have an ASCII upper case: U+0131 (bytes 196 177)
    gives I and U+017F (bytes 197 191) gives S.  Go sends every other rune
    outside ASCII to a rune outside ASCII; the model leaves its bytes in
    place, which agrees with Go wherever the result is compared with an
    ASCII text, the one use the sources make of it. *)
Fixpoint ToUpper (s : string) : string :=
  match s with
  | EmptyString => EmptyString
  | String c s1 =>
      match s1 with
      | String d s2 =>
          if byte_eqb c (ascii_of_nat 196) && byte_eqb d (ascii_of_nat 177)
          then String "I" (ToUpper s2)
          else if byte_eqb c (ascii_of_nat 197) && byte_eqb d (ascii_of_nat 191)
          then String "S" (ToUpper s2)
          else String (toUpperByte c) (ToUpper s1)
      | EmptyString => String (toUpperByte c) EmptyString
      end
  end.

(** [strings.ToLower], likewise: U+0130 (bytes 196 176) gives i and U+212A
    (bytes 226 132 170) gives k. *)
Fixpoint ToLower (s : string) : string :=
  match s with
  | EmptyString => EmptyString
  | String c s1 =>
      match s1 with
      | String d s2 =>
          if byte_eqb c (ascii_of_nat 196) && byte_eqb d (ascii_of_nat 176)
          then String "i" (ToLower s2)
          else
            match s2 with
            | String e s3 =>
                if byte_eqb c (ascii_of_nat 226) && byte_eqb d (ascii_of_nat 132)
                   && byte_eqb e (ascii_of_nat 170)
                then String "k" (ToLower s3)
                else String (toLowerByte c) (ToLower s1)
            | EmptyString => String (toLowerByte c) (ToLower s1)
            end
      | EmptyString => String (toLowerByte c) EmptyString
      end
  end.

(** [strings.HasPrefix s prefix]. *)
Fixpoint HasPrefix (s prefix : string) : bool :=
  match prefix, s with
  | EmptyString, _ => true
  | String p prefix', String c s' => byte_eqb c p && HasPrefix s' prefix'
  | String _ _, EmptyString => false
  end.

(** [s[n:]] and [s[:n]] for [n <= len(s)]. *)
Fixpoint dropBytes (n : nat) (s : string) : string :=
  match n, s with
  | O, _ => s
  | S n', String _ s' => dropBytes n' s'
  | S _, EmptyString => EmptyString
  end.

Fixpoint takeBytes (n : nat) (s : string) : string :=
  match n, s with
  | O, _ => EmptyString
  | S n', String c s' => String c (takeBytes n' s')
  | S _, EmptyString => EmptyString
  end.

(** [strings.Index s substr]: offset of the first occurrence. *)
Fixpoint Index (s substr : string) : option nat :=
  if HasPrefix s substr then Some 0
  else match s with
       | EmptyString => None
       | String _ s' => S <$> Index s' substr
       end.

Definition Contains (s substr : string) : bool :=
  bool_decide (is_Some (Index s substr)).

(** [strings.LastIndex s substr]: offset of the last occurrence. *)
Fixpoint LastIndex (s substr : string) : option nat :=
  match s with
  | EmptyString => if HasPrefix s substr then Some 0 else None
  | String _ s' =>
      match LastIndex s' substr with
      | Some i => Some (S i)
      | None => if HasPrefix s substr then Some 0 else None
      end
  end.

(** [strings.Replace s old new 1]: the first occurrence only. *)
Definition Replace1 (s old new : string) : string :=
  match Index s old with
  | Some i =>
      takeBytes i s +:+ new +:+ dropBytes (i + String.length old) s
  | None => s
  end.

(** [strings.ReplaceAll s old new] for a non-empty [old]: the leftmost
    non-overlapping occurrences.  [skip] counts the bytes of an occurrence
    that was just replaced and is still to be stepped over. *)
Fixpoint replaceAll_go (old new : string) (skip : nat) (s : string) : string :=
  match s with
  | EmptyString => EmptyString
  | String c s' =>
      match skip with
      | S k => replaceAll_go old new k s'
      | O =>
          if HasPrefix s old
          then new +:+ replaceAll_go old new (String.length old - 1) s'
          else String c (replaceAll_go old new 0 s')
      end
  end.

Definition ReplaceAll (s old new : string) : string :=
  replaceAll_go old new 0 s.

(** The UTF-8 encodings of the runes [unicode.IsSpace] accepts: TAB, LF,
    VT, FF, CR, space, U+0085, U+00A0, U+1680, U+2000 to U+200A, U+2028,
    U+2029, U+202F, U+205F and U+3000. *)
Definition spaceRunes : list string :=
  [ bytes [9]; bytes [10]; bytes [11]; bytes [12]; bytes [13]; bytes [32];
    bytes [194; 133]; bytes [194; 160]; bytes [225; 154; 128];
    bytes [226; 128; 128]; bytes [226; 128; 129]; bytes [226; 128; 130];
    bytes [226; 128; 131]; bytes [226; 128; 132]; bytes [226; 128; 133];
    bytes [226; 128; 134]; bytes [226; 128; 135]; bytes [226; 128; 136];
    bytes [226; 128; 137]; bytes [226; 128; 138]; bytes [226; 128; 168];
    bytes [226; 128; 169]; bytes [226; 128; 175]; bytes [226; 129; 159];
    bytes [227; 128; 128] ].

(** The text after one leading rune of [runes], if it starts with one. *)
Definition stripOne (runes : list string) (s : string) : option string :=
  (fun r => dropBytes (String.length r) s) <$>
  head (filter (fun r => HasPrefix s r = true) runes).

Fixpoint trimLeftN (runes : list string) (n : nat) (s : string) : string :=
  match n with
  | O => s
  | S n' =>
      match stripOne runes s with
      | Some rest => trimLeftN runes n' rest
      | None => s
      end
  end.

(** [strings.TrimSpace]: the space runes are taken off the front, then,
    read backwards, off the end. *)
Definition trimLeft (s : string) : string :=
  trimLeftN spaceRunes (String.length s) s.

Definition trimRight (s : string) : string :=
  String.rev
    (trimLeftN (String.rev <$> spaceRunes) (String.length s) (String.rev s)).

Definition TrimSpace (s : string) : string := trimRight (trimLeft s).

(** [strings.Join elems sep]. *)
Definition Join (elems : list string) (sep : string) : string :=
  String.concat sep elems.

End GoStrings.

(* ===================================================================== *)
(** * Go runtime: the [strconv] package *)
(* ===================================================================== *)

Module Strconv.
Import GoStrings.

Definition digitVal (c : ascii) : Z := Z.of_nat (nat_of_ascii c - 48).

(** The value of a run of decimal digits; [None] on any other byte. *)
Fixpoint digitsValue (acc : Z) (s : string) : option Z :=
  match s with
  | EmptyString => Some acc
  | String c s' =>
      if isDigit c then digitsValue (10 * acc + digitVal c) s' else None
  end.

Definition parseDigits (s : string) : option Z :=
  match s with
  | EmptyString => None
  | _ => digitsValue 0 s
  end.

Definition maxInt64 : Z := 2 ^ 63 - 1.
Definition minInt64 : Z := - 2 ^ 63.

(** [strconv.ParseInt s 10 64]: an optional sign, at least one digit,
    nothing else, and the value within the int64 range; [None] is the
    [err != nil] outcome. *)
Definition ParseInt (s : string) : option Z :=
  match s with
  | EmptyString => None
  | String c rest =>
      let '(neg, body) :=
        if byte_eqb c "+" then (false, rest)
        else if byte_eqb c "-" then (true, rest)
        else (false, s) in
      match parseDigits body with
      | Some n =>
          if neg
          then (if (n <=? 2 ^ 63)%Z then Some (- n)%Z else None)
          else (if (n <=? maxInt64)%Z then Some n else None)
      | None => None
      end
  end.

(** [strconv.Atoi] on a 64-bit platform. *)
Definition Atoi (s : string) : option Z := ParseInt s.

End Strconv.

(* ===================================================================== *)
(** * Go dynamic values ([interface{}]) met in the pipeline *)
(* ===================================================================== *)

(** IEEE binary64 data, as the Standard Library specifies it. *)
Definition float64 : Type := spec_float.

(** What [json.Unmarshal] into [interface{}] yields ([nil], [bool],
  [float64], [string], [[]interface{}], [map[string]interface{}]) plus the
  integers the transformer writes.  An object lists its entries in the
  order a [range] over the Go map visits them; its keys are distinct. *)
Inductive value : Type :=
| VNil
| VBool (b : bool)
| VFloat64 (f : float64)
| VInt (z : Z)
| VString (s : string)
| VArray (items : list value)
| VObject (entries : list (string * value)).

Definition is_nil (v : value) : bool :=
match v with VNil => true | _ => false end.

(* ===================================================================== *)
(** * pkg/transform: the depth-analysed columniser *)
(* ===================================================================== *)

Module Transform.
Import GoStrings Strconv.

(** ** The regular expression [\[(\d+)\]]

    Both [removeArrayIndices] and [extractArrayPathAndIndex] compile it.
    Its leftmost non-overlapping matches cut a key into plain bytes and
    index segments; a candidate ["[" digits] that is not closed by ["]"]
    is given back as plain bytes. *)
Inductive token : Type :=
  | TByte (c : ascii)
  | TIndex (digits : string).

Definition flushPending (pend : option string) : list token :=
  match pend with
  | None => []
  | Some rds => TByte "[" :: (TByte <$> list_ascii_of_string (String.rev rds))
  end.

(** [pend = Some rds]: an opening bracket was read, then the digits [rds]
    (most recent first). *)
Fixpoint tokenize_go (pend : option string) (s : string) : list token :=
  match s with
  | EmptyString => flushPending pend
  | String c s' =>
      let restart :=
        if byte_eqb c "[" then tokenize_go (Some EmptyString) s'
        else TByte c :: tokenize_go None s' in
      match pend with
      | None => restart
      | Some rds =>
          if isDigit c then tokenize_go (Some (String c rds)) s'
          else if byte_eqb c "]" && negb (String.eqb rds EmptyString)
          then TIndex (String.rev rds) :: tokenize_go None s'
          else flushPending pend ++ restart
      end
  end.

Definition tokenize : string -> list token := tokenize_go None.

Definition tokenText (t : token) : string :=
  match t with
  | TByte c => String c EmptyString
  | TIndex ds => "[" +:+ ds +:+ "]"
  end.

(** [re.FindAllStringSubmatch(key, -1)]: each match as
    (whole match, first group). *)
Definition FindAllStringSubmatch (key : string) : list (string * string) :=
  omap (fun t => match t with
                 | TIndex ds => Some (tokenText t, ds)
                 | TByte _ => None
                 end) (tokenize key).

(** [re.ReplaceAllString(key, "")]. *)
Definition ReplaceAllString_empty (key : string) : string :=
  String.concat EmptyString
    (omap (fun t => match t with
                    | TByte c => Some (String c EmptyString)
                    | TIndex _ => None
                    end) (tokenize key)).

(** The text of a run of tokens, and of a pending candidate. *)
Definition pendingText (pend : option string) : string :=
  match pend with
  | None => EmptyString
  | Some rds => String "[" (String.rev rds)
  end.

Definition tokensText (ts : list token) : string :=
  String.concat EmptyString (tokenText <$> ts).

(** ** transformer.go *)

Record TransformedResult : Type := mkTransformedResult {
  TransformedData : gmap string value;
  CSVData : list (list string);
  CSVHeaders : list string
}.

(** [calculateKeyDepth]: one more than the number of dots. *)
Fixpoint countDots (key : string) : nat :=
  match key with
  | EmptyString => 0
  | String c s' => (if byte_eqb c "." then 1 else 0) + countDots s'
  end.

Definition calculateKeyDepth (key : string) : nat := 1 + countDots key.

Definition removeArrayIndices (key : string) : string :=
  ReplaceAllString_empty key.

(** [sort.Strings]: ascending byte-wise order. *)
Definition sortStrings (l : list string) : list string :=
  merge_sort String.le l.

(** [sort.Ints]. *)
Definition sortInts (l : list Z) : list Z := merge_sort Z.le l.

(** [analyzeUniqueKeys]: the three loops of the source.  The sets and the
    depth table are ranged over in the order [elements] lists them. *)
Definition collectAllKeys (results : list TransformedResult) : gset string :=
  foldl (fun allKeys result =>
           foldl (fun acc key => {[ key ]} ∪ acc) allKeys
                 (elements (dom (TransformedData result))))
        ∅ results.

Definition groupByDepth (allKeys : gset string) : gmap nat (list string) * nat :=
  foldl (fun '(keysByDepth, maxDepth) key =>
           let depth := calculateKeyDepth key in
           (<[ depth := (keysByDepth !!! depth) ++ [key] ]> keysByDepth,
            if decide (maxDepth < depth) then depth else maxDepth))
        (∅, 0) (elements allKeys).

Definition collectUniqueKeys (keysByDepth : gmap nat (list string))
    (maxDepth : nat) : gset string :=
  foldl (fun uniqueKeySet depth =>
           foldl (fun acc key => {[ removeArrayIndices key ]} ∪ acc)
                 uniqueKeySet (keysByDepth !!! depth))
        ∅ (seq 1 maxDepth).

Definition analyzeUniqueKeys (results : list TransformedResult) : list string :=
  let allKeys := collectAllKeys results in
  let '(keysByDepth, maxDepth) := groupByDepth allKeys in
  let uniqueKeySet := collectUniqueKeys keysByDepth maxDepth in
  sortStrings (elements uniqueKeySet).

(** [extractArrayPathAndIndex]: [("", -1)] when the key has no index
    segment; otherwise the bytes before the last segment and its number
    (0 when [strconv.Atoi] rejects the digits). *)
Definition extractArrayPathAndIndex (key : string) : string * Z :=
  match last (FindAllStringSubmatch key) with
  | None => (EmptyString, (-1)%Z)
  | Some (whole, digits) =>
      let index := default 0%Z (Atoi digits) in
      match LastIndex key whole with
      | None => (EmptyString, (-1)%Z)
      | Some lastIndexPos => (takeBytes lastIndexPos key, index)
      end
  end.

(** [findArrayPaths]: one step of the loop over the keys, then the sort
    of every index list. *)
Definition recordArrayPath (arrayPaths : gmap string (list Z)) (key : string)
    : gmap string (list Z) :=
  let '(path, index) := extractArrayPathAndIndex key in
  if decide (path = EmptyString) then arrayPaths
  else
    let arrayPaths :=
      match arrayPaths !! path with
      | Some _ => arrayPaths
      | None => <[ path := [] ]> arrayPaths
      end in
    let existing := arrayPaths !!! path in
    if decide (index ∈ existing) then arrayPaths
    else <[ path := existing ++ [index] ]> arrayPaths.

Definition findArrayPaths (data : gmap string value) : gmap string (list Z) :=
  sortInts <$> foldl recordArrayPath ∅ (elements (dom data)).

(** [generateCombinationsRecursive]: [currentCombination] is one map
    shared by all the calls; it is threaded through, and the base case
    returns a copy of it. *)
Fixpoint generateCombinationsRecursive (paths : list string)
    (arrayPaths : gmap string (list Z)) (currentCombination : gmap string Z)
    : list (gmap string Z) * gmap string Z :=
  match paths with
  | [] => ([currentCombination], currentCombination)
  | path :: rest =>
      foldl (fun '(allCombinations, cur) index =>
               let '(combinations, cur') :=
                 generateCombinationsRecursive rest arrayPaths
                   (<[ path := index ]> cur) in
               (allCombinations ++ combinations, cur'))
            ([], currentCombination) (arrayPaths !!! path)
  end.

Definition generateArrayCombinations (arrayPaths : gmap string (list Z))
    : list (gmap string Z) :=
  if decide (size arrayPaths = 0) then [∅]
  else
    let paths := sortStrings (elements (dom arrayPaths)) in
    (generateCombinationsRecursive paths arrayPaths ∅).1.

(** ** Cell lookup and row construction

    [rangeData] is the order in which a [range] over the flat map visits
    its entries (the Go runtime picks it); [Sprintf_f15] is
    [fmt.Sprintf("%.15f", _)] and [Sprintf_v] is [fmt.Sprintf("%v", _)]
    on the remaining dynamic types. *)
Section Rows.
Variable rangeData : gmap string value -> list (string * value).
Variable Sprintf_f15 : float64 -> string.
Variable Sprintf_v : value -> string.

(** [findValueForUniqueKey]; Go's [nil] result is [VNil]. *)
Definition findValueForUniqueKey (data : gmap string value)
    (uniqueKey : string) : value :=
  match data !! uniqueKey with
  | Some v => v
  | None =>
      match list_find (fun kv => removeArrayIndices kv.1 = uniqueKey)
                      (rangeData data) with
      | Some (_, (_, v)) => v
      | None => VNil
      end
  end.

(** [sort.Slice(paths, len(paths[i]) > len(paths[j]))]: longest first. *)
Definition longerFirst (p q : string) : Prop :=
  String.length q <= String.length p.

#[local] Instance longerFirst_dec : RelDecision longerFirst.
Proof. intros p q. unfold longerFirst. apply _. Defined.

Definition sortByLengthDesc (paths : list string) : list string :=
  merge_sort longerFirst paths.

(** [fmt.Sprintf("%s[%d]", path, index)]. *)
Definition indexedPath (path : string) (index : Z) : string :=
  path +:+ "[" +:+ pretty index +:+ "]".

(** [buildSpecificKey].  The paths are ranged over in the order
    [elements] lists them before the sort; two paths of one length cannot
    both be a prefix of the running key, so their mutual order does not
    show in the result. *)
Definition buildSpecificKey (uniqueKey : string)
    (combination : gmap string Z) : string :=
  let paths := sortByLengthDesc (elements (dom combination)) in
  foldl (fun result path =>
           let index := default 0%Z (combination !! path) in
           if HasPrefix result path
           then Replace1 result path (indexedPath path index)
           else result)
        uniqueKey paths.

(** One index segment at the head of [s]: its digits. *)
Definition indexSegmentAt (s : string) : option string :=
  match tokenize_go None s with
  | TIndex ds :: _ =>
      if HasPrefix s ("[" +:+ ds +:+ "]") then Some ds else None
  | _ => None
  end.

Fixpoint stripPrefix (prefix s : string) : option string :=
  match prefix, s with
  | EmptyString, _ => Some s
  | String p prefix', String c s' =>
      if byte_eqb c p then stripPrefix prefix' s' else None
  | String _ _, EmptyString => None
  end.

(** [regexp.MustCompile(regexp.QuoteMeta(path) + `\[(\d+)\]`)
    .FindStringSubmatch(key)]: the digits of the leftmost place where
    [path] is followed by an index segment. *)
Fixpoint findPathIndex (path key : string) : option string :=
  match stripPrefix path key ≫= indexSegmentAt with
  | Some ds => Some ds
  | None =>
      match key with
      | EmptyString => None
      | String _ key' => findPathIndex path key'
      end
  end.

(** [matchesKeyPattern]. *)
Definition matchesKeyPattern (key uniqueKey : string)
    (combination : gmap string Z) : bool :=
  if decide (removeArrayIndices key = uniqueKey) then
    forallb (fun '(path, expectedIndex) =>
               if Contains key path then
                 match findPathIndex path key ≫= Atoi with
                 | Some actualIndex =>
                     bool_decide (actualIndex = expectedIndex)
                 | None => true
                 end
               else true)
            (map_to_list combination)
  else false.

(** [findValueForCombination]. *)
Definition findValueForCombination (data : gmap string value)
    (uniqueKey : string) (combination : gmap string Z) : value :=
  match data !! uniqueKey with
  | Some v => v
  | None =>
      match data !! buildSpecificKey uniqueKey combination with
      | Some v => v
      | None =>
          match list_find
                  (fun kv => matchesKeyPattern kv.1 uniqueKey combination)
                  (rangeData data) with
          | Some (_, (_, v)) => v
          | None => VNil
          end
      end
  end.

(** [formatValue]. *)
Definition formatValue (v : value) : string :=
  match v with
  | VNil => EmptyString
  | VString s => s
  | VInt z => pretty z
  | VFloat64 f => Sprintf_f15 f
  | VBool b => if b then "true" else "false"
  | _ => Sprintf_v v
  end.

(** [row := make([]string, len(uniqueKeys))] followed by the loop that
    assigns [row[colIdx]]. *)
Definition fillRow (cell : string -> option string)
    (uniqueKeys : list string) : list string :=
  foldl (fun row '(colIdx, uniqueKey) =>
           match cell uniqueKey with
           | Some text => <[ colIdx := text ]> row
           | None => row
           end)
        (replicate (length uniqueKeys) EmptyString)
        (imap pair uniqueKeys).

(** [generateCSVRows]. *)
Definition generateCSVRows (data : gmap string value)
    (uniqueKeys : list string) : list (list string) :=
  let arrayPaths := findArrayPaths data in
  if decide (size arrayPaths = 0) then
    [ fillRow (fun uniqueKey =>
                 let v := findValueForUniqueKey data uniqueKey in
                 if is_nil v then None else Some (formatValue v))
              uniqueKeys ]
  else
    let combinations := generateArrayCombinations arrayPaths in
    foldl (fun rows combination =>
             rows ++
             [ fillRow (fun uniqueKey =>
                          Some (formatValue
                            (findValueForCombination data uniqueKey
                               combination)))
                       uniqueKeys ])
          [] combinations.

(** [convertToCSV]: the headers of all results are the unique keys of
    the whole batch; each result gets its own rows. *)
Definition convertToCSV (results : list TransformedResult)
    : list TransformedResult :=
  match results with
  | [] => []
  | _ =>
      let uniqueKeys := analyzeUniqueKeys results in
      (fun result =>
         {| TransformedData := TransformedData result;
            CSVHeaders := uniqueKeys;
            CSVData := generateCSVRows (TransformedData result) uniqueKeys |})
      <$> results
  end.

(** [tabulate] of the specification: one flat map in, headers and rows
    out, i.e. [convertToCSV] on a batch of one result. *)
Definition tabulate (data : gmap string value)
    : list string * list (list string) :=
  let uniqueKeys := analyzeUniqueKeys [mkTransformedResult data [] []] in
  (uniqueKeys, generateCSVRows data uniqueKeys).

End Rows.

(** ** The row count the specification states

    Section 4.6 of the specification, in its words: every key with at least
    one index segment contributes its array path (the bytes before its last
    segment) and that segment's number; the rows enumerate the Cartesian
    product of the index sets of all the array paths observed. *)
Definition hasIndexSegment (key : string) : bool :=
  bool_decide (FindAllStringSubmatch key <> []).

Definition observedPaths (data : gmap string value) : gset string :=
  list_to_set
    (omap (fun key =>
             if hasIndexSegment key
             then Some (extractArrayPathAndIndex key).1 else None)
          (elements (dom data))).

Definition observedIndices (data : gmap string value) (path : string) : gset Z :=
  list_to_set
    (omap (fun key =>
             if hasIndexSegment key
                && bool_decide ((extractArrayPathAndIndex key).1 = path)
             then Some (extractArrayPathAndIndex key).2 else None)
          (elements (dom data))).

Definition productOver (data : gmap string value) (paths : gset string) : nat :=
  set_fold (fun path n => size (observedIndices data path) * n) 1 paths.

Definition cartesianRowCount (data : gmap string value) : nat :=
  productOver data (observedPaths data).

(** The product of the sizes of the index lists along [paths]. *)
Definition pathsProduct (arrayPaths : gmap string (list Z)) (paths : list string) : nat :=
  foldr (fun path n => length (arrayPaths !!! path) * n) 1 paths.

(** The depth table of [analyzeUniqueKeys] after the keys [l]: every key
    sits in the bucket of its depth, and no depth exceeds the running
    maximum. *)
Definition depthTable_ok (l : list string) (st : gmap nat (list string) * nat) : Prop :=
  (forall k d, k ∈ st.1 !!! d <-> k ∈ l /\ calculateKeyDepth k = d) /\
  (forall k, k ∈ l -> calculateKeyDepth k <= st.2).

(** The table of [findArrayPaths] after the keys [l]. *)
Definition arrayTable_ok (l : list string) (T : gmap string (list Z)) : Prop :=
  forall p,
    match T !! p with
    | Some idxs =>
        p <> EmptyString /\ NoDup idxs /\
        (forall i, i ∈ idxs <-> exists k, k ∈ l /\ extractArrayPathAndIndex k = (p, i))
    | None =>
        p = EmptyString \/ forall k, k ∈ l -> (extractArrayPathAndIndex k).1 <> p
    end.

(** ** The history of previous result sets *)

Record TransformConfig : Type := mkTransformConfig {
  Stateless : bool;
  SubstituteZerosForNull : bool;
  PreviousResultsSets : Z;
  OutputFormat : string
}.

Record Transformer : Type := mkTransformer {
  config : TransformConfig;
  previousResults : list (list TransformedResult)
}.

(** The slice expression [s[low:]]: a run-time panic ([None]) unless
    [0 <= low <= len(s)]. *)
Definition sliceFrom {A : Type} (low : Z) (s : list A) : option (list A) :=
  if decide (0 <= low <= Z.of_nat (length s))%Z
  then Some (drop (Z.to_nat low) s)
  else None.

(** [NewTransformer]: [make(_, 0, cap)] panics on a negative capacity. *)
Definition NewTransformer (cfg : TransformConfig) : option Transformer :=
  if decide (0 <= PreviousResultsSets cfg)%Z
  then Some (mkTransformer cfg [])
  else None.

(** The trimming both [storePreviousResults] and [UpdateConfig] end with. *)
Definition keepLast (limit : Z) (sets : list (list TransformedResult))
    : option (list (list TransformedResult)) :=
  if decide (limit < Z.of_nat (length sets))%Z
  then sliceFrom (Z.of_nat (length sets) - limit) sets
  else Some sets.

(** [storePreviousResults]. *)
Definition storePreviousResults (t : Transformer)
    (results : list TransformedResult) : option Transformer :=
  mkTransformer (config t)
    <$> keepLast (PreviousResultsSets (config t)) (previousResults t ++ [results]).

(** [UpdateConfig]. *)
Definition UpdateConfig (t : Transformer) (cfg : TransformConfig)
    : option Transformer :=
  mkTransformer cfg <$> keepLast (PreviousResultsSets cfg) (previousResults t).

(** One mutation of a live transformer that did not panic. *)
Inductive step (t : Transformer) : Transformer -> Prop :=
  | step_store results t' :
      storePreviousResults t results = Some t' -> step t t'
  | step_update cfg t' :
      UpdateConfig t cfg = Some t' -> step t t'.

(** The transformers a program can hold: made by [NewTransformer], then
    mutated by stores and configuration updates. *)
Inductive reachable : Transformer -> Prop :=
  | reachable_new cfg t : NewTransformer cfg = Some t -> reachable t
  | reachable_step t t' : reachable t -> step t t' -> reachable t'.

(** The ring invariant. *)
Definition ring_ok (t : Transformer) : Prop :=
  (0 <= PreviousResultsSets (config t))%Z /\
  (Z.of_nat (length (previousResults t)) <= PreviousResultsSets (config t))%Z.

End Transform.

(* ===================================================================== *)
(** * pkg/utils: macro substitution *)
(* ===================================================================== *)

Module Utils.
Import GoStrings Strconv.

(** A Go [(T, error)] result; the error carries its message. *)
Inductive result (A : Type) : Type :=
  | Ok (a : A)
  | Err (msg : string).
Arguments Ok {A} a.
Arguments Err {A} msg.

Definition is_err {A : Type} (r : result A) : bool :=
  match r with Err _ => true | Ok _ => false end.

Record MacroSubstituter : Type := NewMacroSubstituter {
  startTime : string;
  endTime : string
}.

(** Two's-complement wrap-around of int64 arithmetic. *)
Definition wrapInt64 (z : Z) : Z := ((z + 2 ^ 63) mod 2 ^ 64 - 2 ^ 63)%Z.

Definition Second : Z := 1000000000.
Definition Minute : Z := 60 * Second.

(** [t.UnixMilli()] of the instant [ns] nanoseconds after the epoch. *)
Definition UnixMilli (ns : Z) : Z := (ns / 1000000)%Z.

Fixpoint skipWhile (p : ascii -> bool) (s : string) : string :=
  match s with
  | String c s' => if p c then skipWhile p s' else s
  | EmptyString => EmptyString
  end.

Fixpoint takeWhile (p : ascii -> bool) (s : string) : string :=
  match s with
  | String c s' => if p c then String c (takeWhile p s') else EmptyString
  | EmptyString => EmptyString
  end.

(** [nowPattern.FindStringSubmatch] for
    [^NOW\s*([+-])\s*(\d+)\s*(MIN|SEC)$]: the three groups
    (operator, digits, unit), or [None] when the text does not match. *)
Definition matchNowPattern (s : string) : option (ascii * string * string) :=
  if HasPrefix s "NOW" then
    match skipWhile isReSpace (dropBytes 3 s) with
    | String op rest =>
        if byte_eqb op "+" || byte_eqb op "-" then
          let rest := skipWhile isReSpace rest in
          let digits := takeWhile isDigit rest in
          let unit := skipWhile isReSpace (skipWhile isDigit rest) in
          if String.eqb digits EmptyString then None
          else if String.eqb unit "MIN" || String.eqb unit "SEC"
          then Some (op, digits, unit)
          else None
        else None
    | EmptyString => None
    end
  else None.

(** The [switch] on the unit: nanoseconds per unit. *)
Definition unitDuration (unit : string) : option Z :=
  if String.eqb (ToUpper unit) "MIN" then Some Minute
  else if String.eqb (ToUpper unit) "SEC" then Some Second
  else None.

(** [parseTimeExpression]; [now] is the reading of [time.Now()] in
    nanoseconds since the epoch. *)
Definition parseTimeExpression (now : Z) (expr : string) : result Z :=
  let expr := TrimSpace expr in
  if String.eqb (ToUpper expr) "NOW" then Ok (UnixMilli now)
  else
    match matchNowPattern (ToUpper expr) with
    | None =>
        match ParseInt expr with
        | Some timestamp => Ok timestamp
        | None => Err ("invalid time expression: " +:+ expr)
        end
    | Some (operator, valueStr, unit) =>
        match Atoi valueStr with
        | None =>
            Err ("invalid numeric value in time expression: " +:+ valueStr)
        | Some value =>
            match unitDuration unit with
            | None => Err ("unsupported time unit: " +:+ unit)
            | Some unitNs =>
                let duration := wrapInt64 (value * unitNs) in
                if byte_eqb operator "+"
                then Ok (UnixMilli (now + duration))
                else Ok (UnixMilli (now + wrapInt64 (- duration)))
            end
        end
    end.

Definition macroCluster : string := "__CLUSTER__".
Definition macroStartTime : string := "__STARTTIME__".
Definition macroEndTime : string := "__ENDTIME__".

(** One of the two time macros of [SubstituteQuery]: [text] is the query
    so far, [spec] the configured expression, [label] names it in the
    error messages. *)
Definition substituteTime (now : Z) (text macro spec label : string)
    : result string :=
  if Contains text macro then
    if String.eqb spec EmptyString then
      Err (macro +:+ " macro found in query but " +:+ label
             +:+ " not configured")
    else
      match parseTimeExpression now spec with
      | Err msg => Err ("failed to parse " +:+ label +:+ ": " +:+ msg)
      | Ok timeValue => Ok (ReplaceAll text macro (pretty timeValue))
      end
  else Ok text.

(** [SubstituteQuery]; [nowStart] and [nowEnd] are the clock readings of
    the two calls of [parseTimeExpression]. *)
Definition SubstituteQuery (m : MacroSubstituter) (nowStart nowEnd : Z)
    (query clusterName : string) : result string :=
  let text := ReplaceAll query macroCluster clusterName in
  match substituteTime nowStart text macroStartTime (startTime m) "start_time" with
  | Err msg => Err msg
  | Ok text => substituteTime nowEnd text macroEndTime (endTime m) "end_time"
  end.

(** ** The time expressions, as grammar *)

Fixpoint allBytes (p : ascii -> bool) (s : string) : bool :=
  match s with
  | EmptyString => true
  | String c s' => p c && allBytes p s'
  end.

(** A non-empty run of decimal digits. *)
Definition isDigits (s : string) : bool :=
  negb (String.eqb s EmptyString) && allBytes isDigit s.

Definition isSign (c : ascii) : bool := byte_eqb c "+" || byte_eqb c "-".

(** The grammar as the specification words it, on the trimmed text without
    regard to case: NOW; NOW, a sign, digits, MIN or SEC; or a signed
    decimal integer. *)
Definition claimedTimeSpec (spec : string) : bool :=
  let e := ToUpper (TrimSpace spec) in
  String.eqb e "NOW"
  || (HasPrefix e "NOW" &&
      match dropBytes 3 e with
      | String op rest =>
          isSign op && isDigits (takeWhile isDigit rest)
          && (String.eqb (skipWhile isDigit rest) "MIN"
              || String.eqb (skipWhile isDigit rest) "SEC")
      | EmptyString => false
      end)
  || match e with
     | String c rest => if isSign c then isDigits rest else isDigits e
     | EmptyString => false
     end.

(** The expressions [parseTimeExpression] accepts, stated on the text. *)
Definition nowShape (s : string) (op : ascii) (ds unit : string) : Prop :=
  exists ws1 ws2 ws3,
    s = "NOW" +:+ ws1 +:+ String op (ws2 +:+ ds +:+ ws3 +:+ unit) /\
    allBytes isReSpace ws1 = true /\ allBytes isReSpace ws2 = true /\
    allBytes isReSpace ws3 = true /\
    isSign op = true /\ isDigits ds = true /\ (unit = "MIN" \/ unit = "SEC").

Definition relativeTimeSpec (e : string) : Prop :=
  exists op ds unit n,
    nowShape (ToUpper e) op ds unit /\
    digitsValue 0 ds = Some n /\ (n <= maxInt64)%Z.

Definition absoluteTimeSpec (e : string) : Prop :=
  exists sign ds n,
    e = sign +:+ ds /\
    (sign = EmptyString \/ sign = "+" \/ sign = "-") /\
    isDigits ds = true /\ digitsValue 0 ds = Some n /\
    (if String.eqb sign "-" then (n <= 2 ^ 63)%Z else (n <= maxInt64)%Z).

Definition usableTimeSpec (spec : string) : Prop :=
  let e := TrimSpace spec in
  ToUpper e = "NOW" \/ relativeTimeSpec e \/ absoluteTimeSpec e.

(** The text after one time macro was dealt with, when that step did not
    fail. *)
Definition timeFilled (now : Z) (text macro spec : string) : string :=
  if Contains text macro then
    match parseTimeExpression now spec with
    | Ok timeValue => ReplaceAll text macro (pretty timeValue)
    | Err _ => text
    end
  else text.

(** The error condition as the specification words it: a macro of the
    template whose spec is empty or outside the stated grammar. *)
Definition claimedErrorCondition (m : MacroSubstituter) (template : string) : Prop :=
  (Contains template macroStartTime = true /\
   (startTime m = EmptyString \/ claimedTimeSpec (startTime m) = false)) \/
  (Contains template macroEndTime = true /\
   (endTime m = EmptyString \/ claimedTimeSpec (endTime m) = false)).

(** The head of what [skipWhile] leaves does not satisfy the predicate. *)
Definition headFails (p : ascii -> bool) (s : string) : Prop :=
  match s with
  | EmptyString => True
  | String c _ => p c = false
  end.

End Utils.

(* ===================================================================== *)
(** * Index segments of flat keys, as the specification words them *)
(* ===================================================================== *)

Module IndexSegments.
Import GoStrings Utils Transform.

(** ** Index segments, read on the key itself

    An index segment is an opening bracket, one or more decimal digits
    and a closing bracket.  The definitions below read a key byte by byte
    and do not refer to the regular expression of the Go code. *)

(** The digits of the index segment that stands at the head of [s]. *)
Definition segmentAt (s : string) : option string :=
  match s with
  | String c s' =>
      let ds := takeWhile isDigit s' in
      if byte_eqb c "[" && isDigits ds && HasPrefix (skipWhile isDigit s') "]"
      then Some ds else None
  | EmptyString => None
  end.

(** The de-indexed key: the key without its index segments.  [skip] is
    the number of bytes of a segment that are still to be passed over. *)
Fixpoint deindex_go (skip : nat) (s : string) : string :=
  match s with
  | EmptyString => EmptyString
  | String c s' =>
      match skip with
      | S n => deindex_go n s'
      | O =>
          match segmentAt s with
          | Some ds => deindex_go (S (String.length ds)) s'
          | None => String c (deindex_go 0 s')
          end
      end
  end.

Definition deindex (key : string) : string := deindex_go 0 key.

(** The de-indexed keys of a flat map, and of all the flat maps of a
    batch. *)
Definition deindexedKeys (data : gmap string value) : gset string :=
  set_map deindex (dom data).

Definition batchKeys (results : list TransformedResult) : gset string :=
  ⋃ ((fun r => deindexedKeys (TransformedData r)) <$> results).

(** The index segments of a key: every offset at which one stands, with
    its digits, in ascending order of the offsets. *)
Definition segmentsFrom (start : nat) (s : string) : list (nat * string) :=
  omap (fun pos => pair (start + pos) <$> segmentAt (dropBytes pos s))
       (seq 0 (String.length s)).

Definition segments (key : string) : list (nat * string) := segmentsFrom 0 key.

(** The number a run of digits denotes, and the index it stands for: the
    number itself up to [2^63 - 1], and 0 beyond. *)
Definition decimal (ds : string) : Z :=
  foldl (fun n c => (10 * n + (Z.of_nat (nat_of_ascii c) - 48))%Z) 0%Z
        (list_ascii_of_string ds).

Definition indexNumber (ds : string) : Z :=
  if decide (decimal ds <= 2 ^ 63 - 1)%Z then decimal ds else 0%Z.

(** The array path of a key with an index segment, the bytes before its
    last segment, and the index of that segment. *)
Definition arrayPathAndIndex (key : string) : option (string * Z) :=
  (fun '(pos, ds) => (takeBytes pos key, indexNumber ds)) <$> last (segments key).

(** The non-empty array paths of the keys of a flat map, the indices met
    at a path, and the size of the Cartesian product of the index sets. *)
Definition arrayPathsOf (data : gmap string value) : gset string :=
  list_to_set (omap (fun key => fst <$> arrayPathAndIndex key)
                    (elements (dom data)))
  ∖ {[ EmptyString ]}.

Definition indicesAt (data : gmap string value) (path : string) : gset Z :=
  list_to_set
    (omap (fun key =>
             match arrayPathAndIndex key with
             | Some (p, index) => if decide (p = path) then Some index else None
             | None => None
             end)
          (elements (dom data))).

Definition cartesianCount (data : gmap string value) : nat :=
  set_fold (fun path n => size (indicesAt data path) * n) 1 (arrayPathsOf data).

End IndexSegments.

(* ===================================================================== *)
(** * pkg/extract: endpoint fan-in, flattening and key filters *)
(* ===================================================================== *)

Module Extract.
Import GoStrings Strconv.

Record FilterConfig : Type := mkFilter {
  Type_ : string;
  Pattern : string
}.

Record ExtractConfig : Type := mkExtractConfig {
  ElasticsearchQuery : string;
  URLs : list string;
  ClusterNames : list string;
  AuthHeaders : list string;
  AdditionalHeaders : list (list string);
  JSONPath : string;
  Filters : list FilterConfig
}.

Record Result : Type := mkResult {
  Source : string;
  Data : gmap string value
}.

(** ** flattenJSON *)

(** The key a scalar, or a collapsed [value] child, is bound to. *)
Definition leafKey (prefix : string) : string :=
  if String.eqb prefix EmptyString then "value" else prefix.

Definition objectKey (prefix key : string) : string :=
  if String.eqb prefix EmptyString then key else prefix +:+ "." +:+ key.

(** [fmt.Sprintf("%s[%d]", prefix, i)], resp. [fmt.Sprintf("[%d]", i)]. *)
Definition arrayKey (prefix : string) (i : nat) : string :=
  if String.eqb prefix EmptyString then "[" +:+ pretty i +:+ "]"
  else prefix +:+ "[" +:+ pretty i +:+ "]".

(** [for k, v := range flattened { result[k] = v }]. *)
Definition mergeInto (result flattened : gmap string value)
    : gmap string value :=
  map_fold (fun k v acc => <[ k := v ]> acc) result flattened.

Fixpoint flattenJSON (data : value) (prefix : string) : gmap string value :=
  match data with
  | VObject entries =>
      let regular :=
        foldl (fun result '(key, v) =>
                 mergeInto result (flattenJSON v (objectKey prefix key)))
              ∅ entries in
      match entries with
      | [(key, v)] =>
          if String.eqb (ToLower key) "value"
          then {[ leafKey prefix := v ]}
          else regular
      | _ => regular
      end
  | VArray items =>
      (fix elems (i : nat) (items : list value) (result : gmap string value)
         : gmap string value :=
         match items with
         | [] => result
         | item :: rest =>
             elems (S i) rest
                   (mergeInto result (flattenJSON item (arrayKey prefix i)))
         end) 0 items ∅
  | _ => {[ leafKey prefix := data ]}
  end.

(** The flattening of an object that is not collapsed: every entry under
    its own key, later entries winning on a shared flat key. *)
Definition flattenEntries (entries : list (string * value)) (prefix : string)
    : gmap string value :=
  foldl (fun result '(key, v) =>
           flattenJSON v (objectKey prefix key) ∪ result) ∅ entries.

Definition includeFilter (r : string) : FilterConfig := mkFilter "include" r.
Definition excludeFilter (r : string) : FilterConfig := mkFilter "exclude" r.

(** A configuration with other filters. *)
Definition withFilters (cfg : ExtractConfig) (filters : list FilterConfig)
    : ExtractConfig :=
  mkExtractConfig (ElasticsearchQuery cfg) (URLs cfg) (ClusterNames cfg)
    (AuthHeaders cfg) (AdditionalHeaders cfg) (JSONPath cfg) filters.

(** ** Key filters

    [regexp.Compile] and [Regexp.MatchString] of Go's library. *)
Section Filters.
Variable Regexp : Type.
Variable regexp_Compile : string -> option Regexp.
Variable MatchString : Regexp -> string -> bool.

(** [matchesFilter]. *)
Definition matchesFilter (key pattern : string) : bool :=
  match regexp_Compile pattern with
  | None => String.eqb pattern key
  | Some regex => MatchString regex key
  end.

Definition isInclude (f : FilterConfig) : bool := String.eqb (Type_ f) "include".
Definition isExclude (f : FilterConfig) : bool := String.eqb (Type_ f) "exclude".

(** The loop of an [exclude] filter: delete the matching keys of [result]. *)
Definition applyExclude (pattern : string) (result : gmap string value)
    : gmap string value :=
  foldl (fun acc key =>
           if matchesFilter key pattern then delete key acc else acc)
        result (elements (dom result)).

(** The loop of an [include] filter: copy the matching entries of [data]. *)
Definition applyInclude (pattern : string) (data result : gmap string value)
    : gmap string value :=
  foldl (fun acc '(key, v) =>
           if matchesFilter key pattern then <[ key := v ]> acc else acc)
        result (map_to_list data).

(** [applyFilters]. *)
Definition applyFilters (filters : list FilterConfig)
    (data : gmap string value) : gmap string value :=
  match filters with
  | [] => data
  | _ =>
      let hasIncludeFilters := existsb isInclude filters in
      let start : gmap string value :=
        if hasIncludeFilters then ∅
        else foldl (fun acc '(k, v) => <[ k := v ]> acc) ∅ (map_to_list data) in
      foldl (fun result filter =>
               if isExclude filter then applyExclude (Pattern filter) result
               else if isInclude filter
               then applyInclude (Pattern filter) data result
               else result)
            start filters
  end.

(** ** extractDataFromResponse

    [json_Unmarshal] is [json.Unmarshal] into an [interface{}]: the value,
    or the text of the error it returns; [gjson_Get body path] is
    [gjson.Get]: [None] when the result does not exist, otherwise its
    [Raw] text. *)
Variable json_Unmarshal : string -> Utils.result value.
Variable gjson_Get : string -> string -> option string.

Definition extractDataFromResponse (cfg : ExtractConfig) (responseBody : string)
    : Utils.result (gmap string value) :=
  if String.eqb (JSONPath cfg) EmptyString then
    match json_Unmarshal responseBody with
    | Utils.Err err => Utils.Err ("failed to unmarshal response: " +:+ err)
    | Utils.Ok data => Utils.Ok (flattenJSON data EmptyString)
    end
  else
    match gjson_Get responseBody (JSONPath cfg) with
    | None => Utils.Ok ∅
    | Some raw =>
        match json_Unmarshal raw with
        | Utils.Err err =>
            Utils.Err ("failed to unmarshal extracted JSON: " +:+ err)
        | Utils.Ok extractedData =>
            let flattened := flattenJSON extractedData EmptyString in
            let filtered := applyFilters (Filters cfg) flattened in
            Utils.Ok filtered
        end
    end.

End Filters.

(** ** Extract: the fan-out over the endpoints and the fan-in *)

(** What one call of [extractFromEndpoint] hands back: an error, a result,
    or neither ([nil, nil]). *)
Inductive outcome : Type :=
  | Failed (err : string)
  | Produced (r : Result)
  | Nothing.

(** [minLen]: how many endpoint calls are issued. *)
Definition minLen (cfg : ExtractConfig) : nat :=
  let n := length (URLs cfg) in
  let n := if decide (length (ClusterNames cfg) < n)
           then length (ClusterNames cfg) else n in
  let n := if decide (0 < length (AuthHeaders cfg)
                      ∧ length (AuthHeaders cfg) < n)
           then length (AuthHeaders cfg) else n in
  if decide (0 < length (AdditionalHeaders cfg)
             ∧ length (AdditionalHeaders cfg) < n)
  then length (AdditionalHeaders cfg) else n.

(** What the goroutine of endpoint [index] sends: on [errorsChan] the
    wrapped error, on [resultsChan] the result, or nothing. *)
Definition sentError (cfg : ExtractConfig) (call : nat -> outcome)
    (index : nat) : option string :=
  match call index with
  | Failed err =>
      Some ("endpoint " +:+ default EmptyString (URLs cfg !! index)
              +:+ ": " +:+ err)
  | _ => None
  end.

Definition sentResult (call : nat -> outcome) (index : nat) : option Result :=
  match call index with
  | Produced r => Some r
  | _ => None
  end.

(** [Extract].  [call] is [extractFromEndpoint]; [completion] is the order
    in which the goroutines finish, hence the order of the sends on each of
    the two channels. *)
Definition Extract (cfg : ExtractConfig) (call : nat -> outcome)
    (completion : list nat) : Utils.result (list Result) :=
  let results := omap (sentResult call) completion in
  let errors := omap (sentError cfg call) completion in
  if decide (length results = 0 ∧ 0 < length errors)
  then Utils.Err ("all extractions failed: [" +:+ Join errors " " +:+ "]")
  else Utils.Ok results.

End Extract.

(* ===================================================================== *)
(** * The flattening rules of the specification *)
(* ===================================================================== *)

Module FlattenRules.
Import GoStrings.

(** The rules F1 to F4 of the specification, read on their own: the
    bindings they make, in the order in which they make them.  Nothing
    here refers to the Go function. *)

(** Where a value is bound: at the prefix, or at [value] under the empty
    prefix. *)
Definition boundAt (prefix : string) : string :=
  if decide (prefix = EmptyString) then "value" else prefix.

(** [prefix.key], or [key] under the empty prefix. *)
Definition underKey (prefix key : string) : string :=
  if decide (prefix = EmptyString) then key else prefix +:+ "." +:+ key.

(** [prefix[i]], which is [[i]] under the empty prefix. *)
Definition underIndex (prefix : string) (i : nat) : string :=
  prefix +:+ "[" +:+ pretty i +:+ "]".

Fixpoint bindings (data : value) (prefix : string) : list (string * value) :=
  match data with
  | VObject entries =>
      let each :=
        (fix each (entries : list (string * value)) : list (string * value) :=
           match entries with
           | [] => []
           | (key, v) :: rest => bindings v (underKey prefix key) ++ each rest
           end) entries in
      match entries with
      | [(key, v)] =>
          if decide (ToLower key = "value")
          then [(boundAt prefix, v)]                                  (* F1 *)
          else each                                                   (* F2 *)
      | _ => each                                                     (* F2 *)
      end
  | VArray items =>                                                   (* F3 *)
      (fix elements (i : nat) (items : list value) : list (string * value) :=
         match items with
         | [] => []
         | item :: rest =>
             bindings item (underIndex prefix i) ++ elements (S i) rest
         end) 0 items
  | _ => [(boundAt prefix, data)]                                     (* F4 *)
  end.

(** The bindings of the entries of an object, each under its key. *)
Definition entryBindings (entries : list (string * value)) (prefix : string)
    : list (string * value) :=
  flat_map (fun kv => bindings kv.2 (underKey prefix kv.1)) entries.

(** The map a sequence of bindings leaves: a later binding of a key
    replaces an earlier one. *)
Definition lastWins (l : list (string * value)) : gmap string value :=
  foldl (fun m kv => <[ kv.1 := kv.2 ]> m) ∅ l.

End FlattenRules.

(* ===================================================================== *)
(** * pkg/load: time series of the GEM stream *)
(* ===================================================================== *)

Module Load.
Import GoStrings Strconv.

(** The column indices are Go [int]s that nothing validates. *)
Record PrometheusLabelConfig : Type := mkLabelConfig {
  LabelName : string;
  IndexInCSVData : Z;
  StaticValue : string
}.

Record PrometheusMetricConfig : Type := mkMetricConfig {
  Name : string;
  UniqueFieldsIndex : list Z;
  Value : Z;
  Timestamp : Z;
  Labels : list PrometheusLabelConfig
}.

(** The [sample] map built per row: value, timestamp and the row itself. *)
Record rowSample : Type := mkRowSample {
  sampleValue : float64;
  sampleTimestamp : Z;
  sampleRow : list string
}.

(** One emitted time series: its label map and its (value, timestamp)
    samples. *)
Record timeSeries : Type := mkTimeSeries {
  tsLabels : gmap string string;
  tsSamples : list (float64 * Z)
}.

(** [row[idx]]: a run-time panic ([None]) when the index is negative or
    not below the length of the row. *)
Definition cellAt (row : list string) (idx : Z) : option string :=
  if decide (0 <= idx)%Z then row !! Z.to_nat idx else None.

(** [len(row)] as an [int]. *)
Definition len (row : list string) : Z := Z.of_nat (length row).

Section GEM.
(** [strconv.ParseFloat(s, 64)], and the order in which a [range] over the
    group table visits its entries. *)
Variable ParseFloat : string -> option float64.
Variable rangeGroups :
  gmap string (list rowSample) -> list (string * list rowSample).

Definition parseFloat (s : string) : option float64 := ParseFloat s.
Definition parseInt64 (s : string) : option Z := ParseInt s.

(** The unique key of a row: its cells at the unique-field indices that
    are below its length, joined by a bar.  [None] is the panic of
    [row[idx]] on a negative index. *)
Definition uniqueKeyOf (metric : PrometheusMetricConfig) (row : list string)
    : option string :=
  keyParts ←
    foldl (fun acc idx =>
             keyParts ← acc;
             if decide (idx < len row)%Z
             then cell ← cellAt row idx; Some (keyParts ++ [cell])
             else Some keyParts)
          (Some []) (UniqueFieldsIndex metric);
  Some (Join keyParts "|").

(** The body of the loop over the rows.  The outer [None] is a panic; the
    inner one stands for [continue]. *)
Definition sampleOfRow (metric : PrometheusMetricConfig) (row : list string)
    : option (option (string * rowSample)) :=
  if decide ((len row <= Value metric)%Z ∨ (len row <= Timestamp metric)%Z)
  then Some None
  else
    uniqueKey ← uniqueKeyOf metric row;
    valueCell ← cellAt row (Value metric);
    match parseFloat valueCell with
    | None => Some None
    | Some value =>
        timestampCell ← cellAt row (Timestamp metric);
        match parseInt64 timestampCell with
        | None => Some None
        | Some timestamp =>
            Some (Some (uniqueKey, mkRowSample value timestamp row))
        end
    end.

(** The first loop: [uniqueGroups]. *)
Definition groupRows (csvData : list (list string))
    (metric : PrometheusMetricConfig) : option (gmap string (list rowSample)) :=
  foldl (fun acc row =>
           uniqueGroups ← acc;
           step ← sampleOfRow metric row;
           match step with
           | None => Some uniqueGroups
           | Some (uniqueKey, sample) =>
               Some (<[ uniqueKey := (uniqueGroups !!! uniqueKey) ++ [sample] ]>
                       uniqueGroups)
           end)
        (Some ∅) csvData.

(** The labels of a group, from the row of its first sample; [None] is
    the panic of [row[label.IndexInCSVData]] on a negative index. *)
Definition dynamicLabels (metric : PrometheusMetricConfig) (row : list string)
    : option (gmap string string) :=
  foldl (fun acc label =>
           labels ← acc;
           if negb (String.eqb (StaticValue label) EmptyString)
           then Some (<[ LabelName label := StaticValue label ]> labels)
           else if decide (IndexInCSVData label < len row)%Z
           then cell ← cellAt row (IndexInCSVData label);
                Some (<[ LabelName label := cell ]> labels)
           else Some labels)
        (Some {[ "__name__" := Name metric ]}) (Labels metric).

Definition addConfiguredLabels (streamLabels labels : gmap string string)
    : gmap string string :=
  map_fold (fun labelKey labelValue acc => <[ labelKey := labelValue ]> acc)
           labels streamLabels.

(** The body of the second loop.  The outer [None] is a panic; the inner
    one stands for [continue]. *)
Definition seriesOfGroup (streamLabels : gmap string string)
    (metric : PrometheusMetricConfig) (groupSamples : list rowSample)
    : option (option timeSeries) :=
  match groupSamples with
  | [] => Some None
  | firstSample :: _ =>
      labels ← dynamicLabels metric (sampleRow firstSample);
      let labels := addConfiguredLabels streamLabels labels in
      Some (Some (mkTimeSeries labels
                    ((fun s => (sampleValue s, sampleTimestamp s))
                       <$> groupSamples)))
  end.

(** [createPrometheusTimeSeriesForMetric]; [None] is a panic. *)
Definition createPrometheusTimeSeriesForMetric
    (streamLabels : gmap string string) (csvData : list (list string))
    (metric : PrometheusMetricConfig) : option (list timeSeries) :=
  uniqueGroups ← groupRows csvData metric;
  foldl (fun acc '(_, groupSamples) =>
           samples ← acc;
           step ← seriesOfGroup streamLabels metric groupSamples;
           match step with
           | None => Some samples
           | Some timeSeries => Some (samples ++ [timeSeries])
           end)
        (Some []) (rangeGroups uniqueGroups).

(** ** The grouping, as the specification words it *)

(** The cell of a row at a column. *)
Definition cell (row : list string) (col : Z) : option string :=
  row !! Z.to_nat col.

(** The grouping as the specification words it.  A row is kept when it is
    longer than both column indices and both cells parse; its group key is
    the bar-join of its cells at the unique columns. *)
Definition rowKept (metric : PrometheusMetricConfig) (row : list string)
    : option (string * rowSample) :=
  if decide (len row <= Z.max (Value metric) (Timestamp metric))%Z then None
  else
    value ← ParseFloat (default EmptyString (cell row (Value metric)));
    timestamp ← ParseInt (default EmptyString (cell row (Timestamp metric)));
    Some (Join (omap (cell row) (UniqueFieldsIndex metric)) "|",
          mkRowSample value timestamp row).

(** The samples of the group [key], in the order of the rows. *)
Definition groupSamplesOf (metric : PrometheusMetricConfig)
    (csvData : list (list string)) (key : string) : list rowSample :=
  omap (fun row =>
          match rowKept metric row with
          | Some (k, sample) => if decide (k = key) then Some sample else None
          | None => None
          end) csvData.

Definition groupKeysOf (metric : PrometheusMetricConfig)
    (csvData : list (list string)) : gset string :=
  list_to_set (omap (fun row => fst <$> rowKept metric row) csvData).

(** The label rules: a non-empty static value wins, else the cell of the
    configured column when the row has it; later rules overwrite earlier
    ones, and the stream's own labels overwrite them all. *)
Definition labelRule (row : list string) (label : PrometheusLabelConfig)
    : option string :=
  if String.eqb (StaticValue label) EmptyString
  then cell row (IndexInCSVData label)
  else Some (StaticValue label).

Definition labelsOf (streamLabels : gmap string string)
    (metric : PrometheusMetricConfig) (row : list string) : gmap string string :=
  streamLabels ∪
  foldl (fun labels label =>
           match labelRule row label with
           | Some v => <[ LabelName label := v ]> labels
           | None => labels
           end)
        {[ "__name__" := Name metric ]} (Labels metric).

Definition seriesOfKey (streamLabels : gmap string string)
    (metric : PrometheusMetricConfig) (csvData : list (list string))
    (key : string) : timeSeries :=
  let samples := groupSamplesOf metric csvData key in
  mkTimeSeries
    (labelsOf streamLabels metric
       (default [] (sampleRow <$> head samples)))
    ((fun s => (sampleValue s, sampleTimestamp s)) <$> samples).

(** The columns of a metric are usable when none of them is negative;
    the column of a label counts only when the label has no static
    value. *)
Definition columnsUsable (metric : PrometheusMetricConfig) : Prop :=
  (0 <= Value metric)%Z /\ (0 <= Timestamp metric)%Z /\
  Forall (fun idx => (0 <= idx)%Z) (UniqueFieldsIndex metric) /\
  Forall (fun label => StaticValue label <> EmptyString
                       \/ (0 <= IndexInCSVData label)%Z) (Labels metric).

End GEM.

End Load.

(* ===================================================================== *)
(** * Concrete inputs: the scenarios of the guides *)
(* ===================================================================== *)

Module Scenarios.

Import GoStrings Strconv.

(** The binary64 number nearest to [num / den], as a decimal literal is
    read. *)
Definition f64 (num den : Z) : float64 :=
  SFdiv 53 1024 (binary_normalize 53 1024 num 0 false)
                (binary_normalize 53 1024 den 0 false).

Definition dec (num den : Z) : value := VFloat64 (f64 num den).

(** The flattened aggregation of NESTED_ARRAY_CSV_GUIDE.md: two services,
    two hosts each, two cpu_usage buckets each. *)
Definition nestedGuideData : gmap string value :=
  list_to_map [
    ("[0].key", VString "api-service");
    ("[0].doc_count", dec 1000 1);
    ("[0].avg_response_time", dec 1255 10);
    ("[0].hosts.buckets[0].key", VString "host-1");
    ("[0].hosts.buckets[0].cpu_usage.buckets[0].system", dec 157 10);
    ("[0].hosts.buckets[0].cpu_usage.buckets[0].user", dec 552 10);
    ("[0].hosts.buckets[0].cpu_usage.buckets[0].idle", dec 573 10);
    ("[0].hosts.buckets[0].cpu_usage.buckets[1].system", dec 257 10);
    ("[0].hosts.buckets[0].cpu_usage.buckets[1].user", dec 531 10);
    ("[0].hosts.buckets[0].cpu_usage.buckets[1].idle", dec 252 10);
    ("[0].hosts.buckets[1].key", VString "host-2");
    ("[0].hosts.buckets[1].cpu_usage.buckets[0].system", dec 357 10);
    ("[0].hosts.buckets[1].cpu_usage.buckets[0].user", dec 522 10);
    ("[0].hosts.buckets[1].cpu_usage.buckets[0].idle", dec 342 10);
    ("[0].hosts.buckets[1].cpu_usage.buckets[1].system", dec 157 10);
    ("[0].hosts.buckets[1].cpu_usage.buckets[1].user", dec 231 10);
    ("[0].hosts.buckets[1].cpu_usage.buckets[1].idle", dec 602 10);
    ("[1].key", VString "web-service");
    ("[1].doc_count", dec 500 1);
    ("[1].avg_response_time", dec 893 10);
    ("[1].hosts.buckets[0].key", VString "host-3");
    ("[1].hosts.buckets[0].cpu_usage.buckets[0].system", dec 67 10);
    ("[1].hosts.buckets[0].cpu_usage.buckets[0].user", dec 93 10);
    ("[1].hosts.buckets[0].cpu_usage.buckets[0].idle", dec 746 10);
    ("[1].hosts.buckets[0].cpu_usage.buckets[1].system", dec 270 10);
    ("[1].hosts.buckets[0].cpu_usage.buckets[1].user", dec 132 10);
    ("[1].hosts.buckets[0].cpu_usage.buckets[1].idle", dec 635 10);
    ("[1].hosts.buckets[1].key", VString "host-4");
    ("[1].hosts.buckets[1].cpu_usage.buckets[0].system", dec 207 10);
    ("[1].hosts.buckets[1].cpu_usage.buckets[0].user", dec 123 10);
    ("[1].hosts.buckets[1].cpu_usage.buckets[0].idle", dec 545 10);
    ("[1].hosts.buckets[1].cpu_usage.buckets[1].system", dec 277 10);
    ("[1].hosts.buckets[1].cpu_usage.buckets[1].user", dec 334 10);
    ("[1].hosts.buckets[1].cpu_usage.buckets[1].idle", dec 409 10)
  ].

(** The headers the guide prints for it. *)
Definition nestedGuideHeaders : list string :=
  [ "key"; "doc_count"; "avg_response_time"; "hosts.buckets.key";
    "hosts.buckets.cpu_usage.buckets.system";
    "hosts.buckets.cpu_usage.buckets.user";
    "hosts.buckets.cpu_usage.buckets.idle" ].

(** A top-level array of two buckets. *)
Definition topLevelPair : gmap string value :=
  list_to_map [ ("[0].key", VString "a"); ("[1].key", VString "b") ].

(** A stand-in for [strconv.ParseFloat] on plain decimals: digits, or
    digits, a dot and digits. *)
Definition parseDecimal (s : string) : option float64 :=
  match Utils.skipWhile isDigit s with
  | EmptyString => (fun n => f64 n 1) <$> parseDigits s
  | String c frac =>
      if byte_eqb c "." then
        n ← parseDigits (Utils.takeWhile isDigit s);
        f ← parseDigits frac;
        Some (f64 (n * 10 ^ Z.of_nat (String.length frac) + f)
                  (10 ^ Z.of_nat (String.length frac)))
      else None
  end.

(** The rows and the metric of the load-balancer example of the guide. *)
Definition albRows : list (list string) :=
  [ ["alb1"; "712223444"; "23.4"; "7802"];
    ["alb1"; "713223444"; "25.4"; "7812"];
    ["alb2"; "716223444"; "21.4"; "7842"] ].

Definition albMetric : Load.PrometheusMetricConfig :=
  Load.mkMetricConfig "cpuusage" [0%Z] 2 1
    [ Load.mkLabelConfig "LB_Name" 0 EmptyString;
      Load.mkLabelConfig "job" 0 "etl" ].

(** The same metric with a negative value column. *)
Definition negativeValueMetric : Load.PrometheusMetricConfig :=
  Load.mkMetricConfig "cpuusage" [0%Z] (-1) 1
    [ Load.mkLabelConfig "LB_Name" 0 EmptyString;
      Load.mkLabelConfig "job" 0 "etl" ].

(** A stand-in for Go's [regexp] on two patterns: a lone opening bracket
    does not compile; any other pattern is taken literally and matches the
    keys it occurs in. *)
Definition literalCompile (pattern : string) : option string :=
  if String.eqb pattern "[" then None else Some pattern.

Definition literalMatch (regex key : string) : bool := Contains key regex.

(** Stand-ins for [json.Unmarshal] and [gjson.Get] on one body. *)
Definition pairBody : string := "[1,2]".

Definition toyUnmarshal (body : string) : Utils.result value :=
  if String.eqb body pairBody then Utils.Ok (VArray [dec 1 1; dec 2 1])
  else Utils.Err "unexpected end of JSON input".

Definition toyGet (body path : string) : option string :=
  if String.eqb path "@this" then Some body else None.

Definition toyConfig (path : string) : Extract.ExtractConfig :=
  Extract.mkExtractConfig "{}" ["http://es:9200"] ["prod"] [] [] path
    [Extract.excludeFilter "0"].

(** Two endpoints, the first failing and the second answering. *)
Definition twoEndpoints : Extract.ExtractConfig :=
  Extract.mkExtractConfig "{}" ["http://a"; "http://b"] ["a"; "b"] [] []
    EmptyString [].

Definition oneFails (index : nat) : Extract.outcome :=
  match index with
  | 0 => Extract.Failed "HTTP 502"
  | _ => Extract.Produced (Extract.mkResult "http://b" ∅)
  end.

(** A transformer that keeps two result sets, and one batch. *)
Definition sampleConfig (limit : Z) : Transform.TransformConfig :=
  Transform.mkTransformConfig false false limit "csv".

Definition sampleBatch (cell : string) : list Transform.TransformedResult :=
  [Transform.mkTransformedResult ∅ [[cell]] ["h"]].

(** A relative start time whose digits exceed the int range. *)
Definition overflowingStart : Utils.MacroSubstituter :=
  Utils.NewMacroSubstituter "NOW-99999999999999999999MIN" "NOW".

(** A measurement with its unit, and a list of two measurements. *)
Definition measured : value :=
  VObject [("value", dec 1255 10); ("unit", VString "ms")].

Definition twoReadings : value :=
  VArray [VObject [("value", dec 1 1)];
          VObject [("Value", dec 2 1)]].

(** Two results of one batch, from two clusters that answer with
    different fields. *)
Definition twoClusterBatch : list Transform.TransformedResult :=
  [ Transform.mkTransformedResult {[ "hits[0].cpu" := VInt 1 ]} [] [];
    Transform.mkTransformedResult {[ "hits[0].mem" := VInt 2 ]} [] [] ].

(** Two keys of one array whose second index does not fit an int. *)
Definition overflowingIndex : gmap string value :=
  {[ "a[0]" := VInt 1; "a[99999999999999999999]" := VInt 2 ]}.

End Scenarios.

(* ===================================================================== *)
(** * pkg/utils: the check of time expressions *)
(* ===================================================================== *)

Module TimeCheck.
Import GoStrings Strconv Utils.

(** The tail of the error message; its two plus-minus signs are the rune
    U+00B1 (bytes 194 177). *)
Definition expectedFormats : string :=
  " (expected formats: NOW, NOW" +:+ bytes [194; 177] +:+ "Xmin, NOW"
  +:+ bytes [194; 177] +:+ "Xsec, or unix timestamp)".

(** [ValidateTimeExpression]; [None] is the [nil] error. *)
Definition ValidateTimeExpression (expr : string) : option string :=
  if String.eqb expr EmptyString then None
  else
    let expr := TrimSpace expr in
    if String.eqb (ToUpper expr) "NOW" then None
    else if bool_decide (is_Some (matchNowPattern (ToUpper expr))) then None
    else
      match ParseInt expr with
      | Some _ => None
      | None =>
          Some ("invalid time expression: " +:+ expr +:+ expectedFormats)
      end.

(** A relative expression whose amount is beyond the int range. *)
Definition overflowingRelativeSpec (e : string) : Prop :=
  exists op ds unit n,
    nowShape (ToUpper e) op ds unit /\
    digitsValue 0 ds = Some n /\ (maxInt64 < n)%Z.

(** No byte of [a] occurs in [b]. *)
Definition disjointBytes (a b : string) : Prop :=
  forall c, c ∈ list_ascii_of_string a -> c ∈ list_ascii_of_string b -> False.

(** The bytes of a decimal numeral: digits and the minus sign. *)
Definition isNumeralByte (c : ascii) : bool := isDigit c || byte_eqb c "-".

End TimeCheck.

(* ===================================================================== *)
(** * pkg/utils: path and slice helpers *)
(* ===================================================================== *)

Module PathUtils.
Import GoStrings.

(** [strings.Split s sep] for a non-empty [sep]: the text is cut at the
    leftmost occurrences of [sep] that do not overlap.  Every cut takes at
    least one byte, so [len(s)] rounds are enough. *)
Fixpoint Split_go (fuel : nat) (s sep : string) : list string :=
  match fuel with
  | O => [s]
  | S fuel' =>
      match Index s sep with
      | Some i =>
          takeBytes i s
            :: Split_go fuel' (dropBytes (i + String.length sep) s) sep
      | None => [s]
      end
  end.

Definition Split (s sep : string) : list string :=
  Split_go (String.length s) s sep.

(** [GetLastPathSegment]. *)
Definition GetLastPathSegment (jsonPath : string) : string :=
  let parts := Split jsonPath "." in
  match last parts with
  | None => jsonPath
  | Some lastPart =>
      match Index lastPart "[" with
      | Some idx => takeBytes idx lastPart
      | None => lastPart
      end
  end.

(** [Contains] on a slice of strings. *)
Fixpoint Contains (slice : list string) (item : string) : bool :=
  match slice with
  | [] => false
  | s :: rest => if String.eqb s item then true else Contains rest item
  end.

(** [RemoveEmpty]. *)
Definition RemoveEmpty (slice : list string) : list string :=
  foldl (fun result s =>
           if negb (String.eqb (TrimSpace s) EmptyString)
           then result ++ [s] else result)
        [] slice.

End PathUtils.

(* ===================================================================== *)
(** * pkg/extract, pkg/load: environment references *)
(* ===================================================================== *)

Module Env.
Import GoStrings.

(** [strings.TrimPrefix], [strings.HasSuffix], [strings.TrimSuffix]. *)
Definition TrimPrefix (s prefix : string) : string :=
  if HasPrefix s prefix then dropBytes (String.length prefix) s else s.

Definition HasSuffix (s suffix : string) : bool :=
  (String.length suffix <=? String.length s)
  && String.eqb (dropBytes (String.length s - String.length suffix) s) suffix.

Definition TrimSuffix (s suffix : string) : string :=
  if HasSuffix s suffix
  then takeBytes (String.length s - String.length suffix) s else s.

(** The bytes before the first closing brace of [s], and those after it. *)
Fixpoint untilBrace (s : string) : option (string * string) :=
  match s with
  | EmptyString => None
  | String c s' =>
      if byte_eqb c "}" then Some (EmptyString, s')
      else (fun '(name, rest) => (String c name, rest)) <$> untilBrace s'
  end.

(** The regular expression [\$\{([^}]+)\}] at the head of [s]: the match
    and the text after it.  The group takes every byte up to the first
    closing brace, and at least one. *)
Definition matchReference (s : string) : option (string * string) :=
  if HasPrefix s "${" then
    match untilBrace (dropBytes 2 s) with
    | Some (name, rest) =>
        if String.eqb name EmptyString then None
        else Some ("${" +:+ name +:+ "}", rest)
    | None => None
    end
  else None.

Section Environment.
(** [os.Getenv]: the value of a variable, empty when it is not set. *)
Variable Getenv : string -> string.

(** The function handed to [ReplaceAllStringFunc]. *)
Definition expandReference (match_ : string) : string :=
  let varName := TrimPrefix (TrimSuffix match_ "}") "${" in
  let envValue := Getenv varName in
  if negb (String.eqb envValue EmptyString) then envValue else match_.

(** [re.ReplaceAllStringFunc]: the leftmost matches that do not overlap
    are replaced, the bytes between them kept.  Every round takes at least
    one byte. *)
Fixpoint substituteEnvVars_go (fuel : nat) (input : string) : string :=
  match fuel with
  | O => input
  | S fuel' =>
      match matchReference input with
      | Some (match_, rest) =>
          expandReference match_ +:+ substituteEnvVars_go fuel' rest
      | None =>
          match input with
          | EmptyString => EmptyString
          | String c rest => String c (substituteEnvVars_go fuel' rest)
          end
      end
  end.

(** [substituteEnvVars]. *)
Definition substituteEnvVars (input : string) : string :=
  substituteEnvVars_go (String.length input) input.

End Environment.

End Env.

(* ===================================================================== *)
(** * pkg/extract: the keys of a flattened document *)
(* ===================================================================== *)

Module FlatKeys.
Import GoStrings Extract.

(** The values [flattenJSON] binds as they are: all but arrays and
    objects. *)
Definition isScalar (v : value) : bool :=
  match v with
  | VArray _ | VObject _ => false
  | _ => true
  end.

(** A flat key under [prefix]: the prefix itself, or the prefix followed
    by a field or by an index. *)
Definition extendsPrefix (prefix key : string) : Prop :=
  key = prefix \/ HasPrefix key (prefix +:+ ".") = true
  \/ HasPrefix key (prefix +:+ "[") = true.

Section Decisive.
Variable Regexp : Type.
Variable regexp_Compile : string -> option Regexp.
Variable MatchString : Regexp -> string -> bool.

(** The last filter of the list that bears on [key]: an include or an
    exclude whose pattern matches it. *)
Definition decisiveFilter (filters : list FilterConfig) (key : string)
    : option FilterConfig :=
  last (filter (fun f =>
                  (isExclude f || isInclude f)
                  && matchesFilter Regexp regexp_Compile MatchString key (Pattern f) = true)
               filters).

End Decisive.

End FlatKeys.

(* ===================================================================== *)
(** * pkg/extract: the retry loop of an endpoint call *)
(* ===================================================================== *)

Module Endpoint.
Import GoStrings Utils.

(** What [httpClient.Do] hands back: a response (its status code and its
    body) or [nil], and an error or [nil]. *)
Record reply : Type := mkReply {
  replyResp : option (Z * string);
  replyErr : option string
}.

(** What the loop does to the world, in order. *)
Inductive event : Type :=
  | Sent (attempt : Z)
  | BodyClosed (attempt : Z)
  | Slept (duration : Z).

(** The variables the loop assigns, and the events so far. *)
Record loopState : Type := mkLoopState {
  resp : option (Z * string);
  lastErr : option string;
  trace : list event
}.

(** [lastErr == nil && resp.StatusCode < 500]; evaluating it on a [nil]
    response is a run-time panic ([None]). *)
Definition accepted (r : reply) : option bool :=
  match replyErr r with
  | Some _ => Some false
  | None =>
      match replyResp r with
      | Some (status, _) => Some (bool_decide (status < 500)%Z)
      | None => None
      end
  end.

(** The retry loop of [extractFromEndpoint].  [Do attempt] is the outcome
    of the request number [attempt]; [remaining] counts the rounds left,
    [MaxRetries + 1 - attempt] of them.  [None] is a run-time panic. *)
Fixpoint retryLoop (Do : Z -> reply) (MaxRetries : Z) (remaining : nat)
    (attempt : Z) (st : loopState) : option loopState :=
  match remaining with
  | O => Some st
  | S remaining' =>
      let r := Do attempt in
      let st := mkLoopState (replyResp r) (replyErr r) (trace st ++ [Sent attempt]) in
      match accepted r with
      | None => None
      | Some true => Some st
      | Some false =>
          let st :=
            match resp st with
            | Some _ => mkLoopState (resp st) (lastErr st) (trace st ++ [BodyClosed attempt])
            | None => st
            end in
          let st :=
            if decide (attempt < MaxRetries)%Z
            then mkLoopState (resp st) (lastErr st)
                   (trace st ++ [Slept (wrapInt64 (wrapInt64 (attempt + 1) * Second))])
            else st in
          retryLoop Do MaxRetries remaining' (attempt + 1) st
      end
  end.

(** The loop from [attempt := 0], for [MaxRetries] below the largest int. *)
Definition sendWithRetries (Do : Z -> reply) (MaxRetries : Z) : option loopState :=
  retryLoop Do MaxRetries (Z.to_nat (MaxRetries + 1)) 0 (mkLoopState None None []).

(** What follows the loop, up to the status check: the error of the last
    attempt, a panic on a [nil] response, the error of a status from 400
    on, or the response to read. *)
Inductive verdict : Type :=
  | RequestFailed (msg : string)
  | Panics
  | HTTPError (status : Z)
  | Usable (status : Z) (body : string).

Definition afterLoop (MaxRetries : Z) (st : loopState) : verdict :=
  match lastErr st with
  | Some err =>
      RequestFailed ("request failed after " +:+ pretty MaxRetries
                       +:+ " retries: " +:+ err)
  | None =>
      match resp st with
      | None => Panics
      | Some (status, body) =>
          if decide (400 <= status)%Z then HTTPError status
          else Usable status body
      end
  end.

(** The requests sent and the pauses made, read off a trace. *)
Definition requestsOf (t : list event) : list Z :=
  omap (fun e => match e with Sent a => Some a | _ => None end) t.

Definition pausesOf (t : list event) : list Z :=
  omap (fun e => match e with Slept d => Some d | _ => None end) t.

(** A reply that makes the loop go on. *)
Definition retryable (r : reply) : Prop := accepted r = Some false.

End Endpoint.

(* ===================================================================== *)
(** * pkg/transform: null substitution, conversions and Transform *)
(* ===================================================================== *)

Module Conversion.
Import GoStrings Strconv Utils.

(** ** Null substitution *)

(** What [substituteZerosForNull] makes of one value of a map: [nil]
    becomes the int 0, a nested map is treated in the same way (in place),
    anything else, arrays included, is left alone. *)
Fixpoint zeroNulls (v : value) : value :=
  match v with
  | VNil => VInt 0
  | VObject entries =>
      VObject ((fun kv => (kv.1, zeroNulls kv.2)) <$> entries)
  | _ => v
  end.

(** [substituteZerosForNull] on the map it is given.  The loop assigns to
    the key it is visiting only. *)
Definition substituteZerosForNull (data : gmap string value) : gmap string value :=
  map_fold (fun key v acc =>
              match v with
              | VNil => <[ key := VInt 0 ]> acc
              | VObject _ => <[ key := zeroNulls v ]> acc
              | _ => acc
              end)
           data data.

(** What a map that shares its nested maps with the one treated looks
    like afterwards: its own [nil] entries stay, the nested maps are the
    treated ones. *)
Definition sharedAfterZeroNulls (v : value) : value :=
  match v with
  | VObject _ => zeroNulls v
  | _ => v
  end.

(** No [nil] at the top of a value nor under its nested maps. *)
Fixpoint nullFree (v : value) : bool :=
  match v with
  | VNil => false
  | VObject entries => forallb (fun kv => nullFree kv.2) entries
  | _ => true
  end.

(** ** Conversion functions *)

Record ConversionFunctionConfig : Type := mkConversion {
  Field : string;
  Function : string;
  FromType : string;
  ToType : string;
  FromUnit : string;
  ToUnit : string
}.

(** [float64(v)] of an integer: the nearest binary64 number. *)
Definition floatOfInt (z : Z) : float64 := binary_normalize 53 1024 z 0 false.

Definition fdiv (x y : float64) : float64 := SFdiv 53 1024 x y.
Definition fmul (x y : float64) : float64 := SFmul 53 1024 x y.

(** The dynamic values of the map that the conversions work on: those of
    the extract result, the [int] that the null substitution writes
    ([VInt]), and the [int64] that a conversion to int writes. *)
Inductive dyn : Type :=
  | Dyn (v : value)
  | DynInt64 (z : Z).

(** What the table keeps of a value: every reader of a table treats an
    [int64] as it treats an [int]. *)
Definition erase (d : dyn) : value :=
  match d with
  | Dyn v => v
  | DynInt64 z => VInt z
  end.

(** [%T] of a dynamic type. *)
Definition typeName (d : dyn) : string :=
  match d with
  | Dyn VNil => "<nil>"
  | Dyn (VBool _) => "bool"
  | Dyn (VFloat64 _) => "float64"
  | Dyn (VInt _) => "int"
  | Dyn (VString _) => "string"
  | Dyn (VArray _) => "[]interface {}"
  | Dyn (VObject _) => "map[string]interface {}"
  | DynInt64 _ => "int64"
  end.

(** [strconv.ParseBool]. *)
Definition ParseBool (s : string) : option bool :=
  if String.eqb s "1" || String.eqb s "t" || String.eqb s "T"
     || String.eqb s "TRUE" || String.eqb s "true" || String.eqb s "True"
  then Some true
  else if String.eqb s "0" || String.eqb s "f" || String.eqb s "F"
          || String.eqb s "FALSE" || String.eqb s "false" || String.eqb s "False"
  then Some false
  else None.

Section Conversions.
(** Go's library: [strconv.ParseFloat(s, 64)]; the text of the error
    [strconv] returns for a function and an input; the conversion
    [int64(f)] of a float; [fmt.Sprintf("%v", v)]; [regexp]. *)
Variable ParseFloat : string -> option float64.
Variable NumError : string -> string -> string.
Variable truncate : float64 -> Z.
Variable Sprintf_v : value -> string.
Variable Sprintf_f15 : float64 -> string.
Variable Regexp : Type.
Variable regexp_Compile : string -> option Regexp.
Variable MatchString : Regexp -> string -> bool.
(** The order in which a [range] visits a map: the map of the
    conversions, the data of a table. *)
Variable rangeFields : gmap string dyn -> list (string * dyn).
Variable rangeData : gmap string value -> list (string * value).

(** [toInt], [toFloat]. *)
Definition toInt (v : dyn) : result Z :=
  match v with
  | Dyn (VInt z) => Ok z
  | DynInt64 z => Ok z
  | Dyn (VFloat64 f) => Ok (truncate f)
  | Dyn (VString s) =>
      match ParseInt s with
      | Some z => Ok z
      | None => Err (NumError "ParseInt" s)
      end
  | _ => Err ("cannot convert " +:+ typeName v +:+ " to int")
  end.

Definition toFloat (v : dyn) : result float64 :=
  match v with
  | Dyn (VInt z) => Ok (floatOfInt z)
  | DynInt64 z => Ok (floatOfInt z)
  | Dyn (VFloat64 f) => Ok f
  | Dyn (VString s) =>
      match ParseFloat s with
      | Some f => Ok f
      | None => Err (NumError "ParseFloat" s)
      end
  | _ => Err ("cannot convert " +:+ typeName v +:+ " to float")
  end.

(** [toBool].  In the case [int, int64] the variable keeps its interface
    type, so that [v != 0] compares it with the [int] 0: an [int64] is
    never equal to it, whatever its value. *)
Definition toBool (v : dyn) : result bool :=
  match v with
  | Dyn (VBool b) => Ok b
  | Dyn (VString s) =>
      match ParseBool s with
      | Some b => Ok b
      | None => Err (NumError "ParseBool" s)
      end
  | Dyn (VInt z) => Ok (negb (z =? 0)%Z)
  | DynInt64 _ => Ok true
  | Dyn (VFloat64 f) => Ok (negb (SFeqb f (floatOfInt 0)))
  | _ => Err ("cannot convert " +:+ typeName v +:+ " to bool")
  end.

Definition mapOk {A B : Type} (f : A -> B) (r : result A) : result B :=
  match r with
  | Ok a => Ok (f a)
  | Err msg => Err msg
  end.

(** [convertType]; [%v] prints an [int64] as it prints an [int]. *)
Definition convertType (v : dyn) (fromType toType : string) : result dyn :=
  if String.eqb toType "string" then Ok (Dyn (VString (Sprintf_v (erase v))))
  else if String.eqb toType "int" then mapOk DynInt64 (toInt v)
  else if String.eqb toType "float"
  then mapOk (fun f => Dyn (VFloat64 f)) (toFloat v)
  else if String.eqb toType "bool" then mapOk (fun b => Dyn (VBool b)) (toBool v)
  else Err ("unsupported target type: " +:+ toType).

Definition unsupportedUnit (fromUnit : string) : result float64 :=
  Err ("unsupported unit: " +:+ fromUnit).

(** [convertToKB], [convertToMB], [convertToGB]. *)
Definition convertToKB (v : dyn) (fromUnit : string) : result float64 :=
  match toFloat v with
  | Err msg => Err msg
  | Ok numValue =>
      if String.eqb fromUnit "bytes" || String.eqb fromUnit "b"
      then Ok (fdiv numValue (floatOfInt 1024))
      else if String.eqb fromUnit "kb" then Ok numValue
      else if String.eqb fromUnit "mb" then Ok (fmul numValue (floatOfInt 1024))
      else if String.eqb fromUnit "gb"
      then Ok (fmul (fmul numValue (floatOfInt 1024)) (floatOfInt 1024))
      else unsupportedUnit fromUnit
  end.

Definition convertToMB (v : dyn) (fromUnit : string) : result float64 :=
  match toFloat v with
  | Err msg => Err msg
  | Ok numValue =>
      if String.eqb fromUnit "bytes" || String.eqb fromUnit "b"
      then Ok (fdiv numValue (floatOfInt (1024 * 1024)))
      else if String.eqb fromUnit "kb" then Ok (fdiv numValue (floatOfInt 1024))
      else if String.eqb fromUnit "mb" then Ok numValue
      else if String.eqb fromUnit "gb" then Ok (fmul numValue (floatOfInt 1024))
      else unsupportedUnit fromUnit
  end.

Definition convertToGB (v : dyn) (fromUnit : string) : result float64 :=
  match toFloat v with
  | Err msg => Err msg
  | Ok numValue =>
      if String.eqb fromUnit "bytes" || String.eqb fromUnit "b"
      then Ok (fdiv numValue (floatOfInt (1024 * 1024 * 1024)))
      else if String.eqb fromUnit "kb"
      then Ok (fdiv numValue (floatOfInt (1024 * 1024)))
      else if String.eqb fromUnit "mb" then Ok (fdiv numValue (floatOfInt 1024))
      else if String.eqb fromUnit "gb" then Ok numValue
      else unsupportedUnit fromUnit
  end.

(** The [switch] of [applyConversionToValue]: the converted value. *)
Definition convertValue (convFunc : ConversionFunctionConfig) (v : dyn)
    : result dyn :=
  if String.eqb (Function convFunc) "convert_type"
  then convertType v (FromType convFunc) (ToType convFunc)
  else if String.eqb (Function convFunc) "convert_to_kb"
  then mapOk (fun f => Dyn (VFloat64 f)) (convertToKB v (FromUnit convFunc))
  else if String.eqb (Function convFunc) "convert_to_mb"
  then mapOk (fun f => Dyn (VFloat64 f)) (convertToMB v (FromUnit convFunc))
  else if String.eqb (Function convFunc) "convert_to_gb"
  then mapOk (fun f => Dyn (VFloat64 f)) (convertToGB v (FromUnit convFunc))
  else Err ("unknown conversion function: " +:+ Function convFunc).

(** The fields a conversion function bears on: those its pattern matches
    or, when the pattern does not compile, the one it names. *)
Definition fieldMatches (convFunc : ConversionFunctionConfig) (key : string)
    : bool :=
  Extract.matchesFilter Regexp regexp_Compile MatchString key (Field convFunc).

(** The value a field has after a conversion that did not fail. *)
Definition converted (convFunc : ConversionFunctionConfig) (v : dyn) : dyn :=
  match convertValue convFunc v with
  | Ok c => c
  | Err _ => v
  end.

(** [applyConversionToValue]: the map with [data[fieldKey]] assigned. *)
Definition applyConversionToValue (data : gmap string dyn)
    (fieldKey : string) (v : dyn) (convFunc : ConversionFunctionConfig)
    : result (gmap string dyn) :=
  mapOk (fun converted => <[ fieldKey := converted ]> data)
        (convertValue convFunc v).

(** [applyConversionFunction].  The loop stops at the first field whose
    conversion fails. *)
Definition applyConversionFunction (data : gmap string dyn)
    (convFunc : ConversionFunctionConfig) : result (gmap string dyn) :=
  match regexp_Compile (Field convFunc) with
  | None =>
      match data !! Field convFunc with
      | None => Ok data
      | Some v => applyConversionToValue data (Field convFunc) v convFunc
      end
  | Some regex =>
      foldl (fun acc '(key, v) =>
               match acc with
               | Err msg => Err msg
               | Ok data =>
                   if MatchString regex key then
                     match applyConversionToValue data key v convFunc with
                     | Err msg =>
                         Err ("conversion failed for field " +:+ key
                                +:+ ": " +:+ msg)
                     | Ok data => Ok data
                     end
                   else Ok data
               end)
            (Ok data) (rangeFields data)
  end.

(** The transformer with the conversion functions of its configuration. *)
Record Transformer : Type := mkTransformer {
  core : Transform.Transformer;
  ConversionFunctions : list ConversionFunctionConfig
}.

Definition config (t : Transformer) : Transform.TransformConfig :=
  Transform.config (core t).

(** A transformed result with the extract result it points to. *)
Record Transformed : Type := mkTransformed {
  Origin : Extract.Result;
  Table : Transform.TransformedResult
}.

(** The loop over the conversion functions. *)
Definition applyConversions (data : gmap string dyn)
    (convFuncs : list ConversionFunctionConfig) : result (gmap string dyn) :=
  foldl (fun acc convFunc =>
           match acc with
           | Err msg => Err msg
           | Ok data =>
               match applyConversionFunction data convFunc with
               | Err msg =>
                   Err ("conversion function failed for field "
                          +:+ Field convFunc +:+ ": " +:+ msg)
               | Ok data => Ok data
               end
           end)
        (Ok data) convFuncs.

(** [transformSingle].  The copy of the data is shallow: the nested maps
    are those of the extract result, which the null substitution
    therefore changes as well; the result points to that extract
    result.  Up to the conversions the map holds the values of the
    extract result and the [int] 0. *)
Definition transformSingle (t : Transformer) (r : Extract.Result)
    : result Transformed :=
  let transformedData :=
    map_fold (fun key v acc => <[ key := v ]> acc) ∅ (Extract.Data r) in
  let '(transformedData, origin) :=
    if Transform.SubstituteZerosForNull (config t)
    then (substituteZerosForNull transformedData,
          Extract.mkResult (Extract.Source r)
            (sharedAfterZeroNulls <$> Extract.Data r))
    else (transformedData, r) in
  mapOk (fun data =>
           mkTransformed origin
             (Transform.mkTransformedResult (erase <$> data) [] []))
        (applyConversions (Dyn <$> transformedData) (ConversionFunctions t)).

(** The loop of [Transform] over the results. *)
Definition transformAll (t : Transformer) (results : list Extract.Result)
    : result (list Transformed) :=
  foldl (fun acc r =>
           match acc with
           | Err msg => Err msg
           | Ok transformedResults =>
               match transformSingle t r with
               | Err msg =>
                   Err ("failed to transform result from "
                          +:+ Extract.Source r +:+ ": " +:+ msg)
               | Ok transformed => Ok (transformedResults ++ [transformed])
               end
           end)
        (Ok []) results.

(** The tables of the results put in place of the old ones, as
    [convertToCSV] writes them through the pointers. *)
Definition withTables (transformedResults : list Transformed)
    (tables : list Transform.TransformedResult) : list Transformed :=
  zip_with (fun tr table => mkTransformed (Origin tr) table)
           transformedResults tables.

(** [Transform]: the results or the error, and the transformer
    afterwards; [None] is the panic of [storePreviousResults] on a
    negative limit.  The history holds the tables of the results. *)
Definition Transform (t : Transformer) (results : list Extract.Result)
    : option (result (list Transformed) * Transformer) :=
  match transformAll t results with
  | Err msg => Some (Err msg, t)
  | Ok transformedResults =>
      let transformedResults :=
        if String.eqb (Transform.OutputFormat (config t)) "csv"
        then withTables transformedResults
               (Transform.convertToCSV rangeData Sprintf_f15 Sprintf_v
                  (Table <$> transformedResults))
        else transformedResults in
      if Transform.Stateless (config t)
      then Some (Ok transformedResults, t)
      else
        (fun core' =>
           (Ok transformedResults, mkTransformer core' (ConversionFunctions t)))
          <$> Transform.storePreviousResults (core t)
                (Table <$> transformedResults)
  end.

End Conversions.

(** ** Concrete inputs *)

(** Stand-ins for Go's library: [int64(f)] on the finite numbers, the
    text of a [strconv] error, the two formats. *)
Definition truncateFinite (f : float64) : Z :=
  match f with
  | S754_finite s m e =>
      let z := if s then Z.neg m else Z.pos m in
      if (0 <=? e)%Z then (z * 2 ^ e)%Z else Z.quot z (2 ^ (- e))
  | _ => 0%Z
  end.

Definition plainNumError (fn s : string) : string :=
  "strconv." +:+ fn +:+ ": parsing " +:+ s +:+ ": invalid syntax".

Definition printedValue (v : value) : string :=
  match v with
  | VInt z => pretty z
  | _ => "?"
  end.

Definition printedFloat (f : float64) : string :=
  pretty (truncateFinite f) +:+ ".000000000000000".

(** A disk of 2048 bytes and the conversion of its size to kilobytes. *)
Definition sizeData : gmap string value :=
  {[ "size_bytes" := VInt 2048; "name" := VString "disk" ]}.

Definition toKB : ConversionFunctionConfig :=
  mkConversion "size" "convert_to_kb" EmptyString EmptyString "bytes" EmptyString.

Definition sizeResult : Extract.Result :=
  Extract.mkResult "http://es:9200" sizeData.

Definition sizeTransformer : Transformer :=
  mkTransformer (Transform.mkTransformer (Scenarios.sampleConfig 2) []) [toKB].

Definition sizeFields : gmap string dyn := Dyn <$> sizeData.

Definition sizeInKB : gmap string value :=
  {[ "size_bytes" := Scenarios.dec 2048 1024; "name" := VString "disk" ]}.

Definition sizeTable : Transform.TransformedResult :=
  Transform.mkTransformedResult sizeInKB [["disk"; "2.000000000000000"]]
    ["name"; "size_bytes"].

End Conversion.

(* ===================================================================== *)
(** * pkg/metrics and pkg/pipeline: the collector and one execution *)
(* ===================================================================== *)

Module Metrics.
Import GoStrings Utils Conversion.

(** A [time.Time]: the zero value, or an instant in nanoseconds. *)
Inductive Time : Type :=
  | ZeroTime
  | At (ns : Z).

Record PipelineMetrics : Type := mkPipelineMetrics {
  Name : string;
  Enabled : bool;
  LastRun : Time;
  LastDuration : Z;
  TotalRuns : Z;
  SuccessfulRuns : Z;
  FailedRuns : Z;
  EntriesProcessed : Z;
  BytesProcessed : Z;
  MemoryUsageMB : float64;
  CPUUsagePercent : float64;
  ActiveGoroutines : Z;
  ErrorRate : float64;
  AverageProcessTime : Z;
  LastError : string;
  LastErrorTime : Time
}.

Record SystemMetrics : Type := mkSystemMetrics {
  TotalMemoryMB : float64;
  UsedMemoryMB : float64;
  SysCPUUsagePercent : float64;
  TotalGoroutines : Z;
  ActivePipelines : Z;
  TotalPipelines : Z;
  Uptime : Z;
  LastConfigReload : Time
}.

(** The collector: whether its configuration enables it, the table of
    the pipelines (the structs the Go map points to), the system
    metrics. *)
Record Collector : Type := mkCollector {
  configEnabled : bool;
  pipelineMetrics : gmap string PipelineMetrics;
  systemMetrics : SystemMetrics
}.

Definition fzero : float64 := floatOfInt 0.

(** [&PipelineMetrics{Name: name, Enabled: enabled}]. *)
Definition newPipelineMetrics (name : string) (enabled : bool) : PipelineMetrics :=
  mkPipelineMetrics name enabled ZeroTime 0 0 0 0 0 0 fzero fzero 0 fzero 0
    EmptyString ZeroTime.

(** The collector of [NewCollector], its server and its ticker left
    aside. *)
Definition NewCollector (enabled : bool) : Collector :=
  mkCollector enabled ∅
    (mkSystemMetrics fzero fzero fzero 0 0 0 0 ZeroTime).

Definition withPipeline (c : Collector) (name : string) (m : PipelineMetrics)
    : Collector :=
  mkCollector (configEnabled c) (<[ name := m ]> (pipelineMetrics c))
    (systemMetrics c).

(** [float64(FailedRuns) / float64(TotalRuns) * 100] when [TotalRuns > 0]. *)
Definition errorRateOf (m : PipelineMetrics) : float64 :=
  if decide (0 < TotalRuns m)%Z
  then fmul (fdiv (floatOfInt (FailedRuns m)) (floatOfInt (TotalRuns m)))
            (floatOfInt 100)
  else ErrorRate m.

(** [RecordPipelineStart]; [now] is the reading of the clock. *)
Definition RecordPipelineStart (c : Collector) (pipelineName : string)
    (now : Z) : Collector :=
  if negb (configEnabled c) then c
  else
    let m := default (newPipelineMetrics pipelineName true)
                     (pipelineMetrics c !! pipelineName) in
    withPipeline c pipelineName
      (mkPipelineMetrics (Name m) (Enabled m) (At now) (LastDuration m)
         (wrapInt64 (TotalRuns m + 1)) (SuccessfulRuns m) (FailedRuns m)
         (EntriesProcessed m) (BytesProcessed m) (MemoryUsageMB m)
         (CPUUsagePercent m) (ActiveGoroutines m) (ErrorRate m)
         (AverageProcessTime m) (LastError m) (LastErrorTime m)).

(** The average [RecordPipelineSuccess] stores, from the count of
    successes just increased. *)
Definition nextAverage (successfulRuns average duration : Z) : Z :=
  if decide (0 < successfulRuns)%Z
  then
    let totalTime := wrapInt64 (wrapInt64 (successfulRuns * average) + duration) in
    Z.quot totalTime successfulRuns
  else duration.

(** [RecordPipelineSuccess]. *)
Definition RecordPipelineSuccess (c : Collector) (pipelineName : string)
    (duration entriesProcessed bytesProcessed : Z) : Collector :=
  if negb (configEnabled c) then c
  else
    match pipelineMetrics c !! pipelineName with
    | None => c
    | Some m =>
        let successfulRuns := wrapInt64 (SuccessfulRuns m + 1) in
        let m :=
          mkPipelineMetrics (Name m) (Enabled m) (LastRun m) duration
            (TotalRuns m) successfulRuns (FailedRuns m)
            (wrapInt64 (EntriesProcessed m + entriesProcessed))
            (wrapInt64 (BytesProcessed m + bytesProcessed))
            (MemoryUsageMB m) (CPUUsagePercent m) (ActiveGoroutines m)
            (ErrorRate m)
            (nextAverage successfulRuns (AverageProcessTime m) duration)
            (LastError m) (LastErrorTime m) in
        withPipeline c pipelineName
          (mkPipelineMetrics (Name m) (Enabled m) (LastRun m) (LastDuration m)
             (TotalRuns m) (SuccessfulRuns m) (FailedRuns m)
             (EntriesProcessed m) (BytesProcessed m) (MemoryUsageMB m)
             (CPUUsagePercent m) (ActiveGoroutines m) (errorRateOf m)
             (AverageProcessTime m) (LastError m) (LastErrorTime m))
    end.

(** [RecordPipelineFailure]; [err] is the text of the error. *)
Definition RecordPipelineFailure (c : Collector) (pipelineName : string)
    (duration : Z) (err : string) (now : Z) : Collector :=
  if negb (configEnabled c) then c
  else
    match pipelineMetrics c !! pipelineName with
    | None => c
    | Some m =>
        let m :=
          mkPipelineMetrics (Name m) (Enabled m) (LastRun m) duration
            (TotalRuns m) (SuccessfulRuns m) (wrapInt64 (FailedRuns m + 1))
            (EntriesProcessed m) (BytesProcessed m) (MemoryUsageMB m)
            (CPUUsagePercent m) (ActiveGoroutines m) (ErrorRate m)
            (AverageProcessTime m) err (At now) in
        withPipeline c pipelineName
          (mkPipelineMetrics (Name m) (Enabled m) (LastRun m) (LastDuration m)
             (TotalRuns m) (SuccessfulRuns m) (FailedRuns m)
             (EntriesProcessed m) (BytesProcessed m) (MemoryUsageMB m)
             (CPUUsagePercent m) (ActiveGoroutines m) (errorRateOf m)
             (AverageProcessTime m) (LastError m) (LastErrorTime m))
    end.

(** [UpdatePipelineStatus]. *)
Definition UpdatePipelineStatus (c : Collector) (pipelineName : string)
    (enabled : bool) : Collector :=
  if negb (configEnabled c) then c
  else
    match pipelineMetrics c !! pipelineName with
    | None => withPipeline c pipelineName (newPipelineMetrics pipelineName enabled)
    | Some m =>
        withPipeline c pipelineName
          (mkPipelineMetrics (Name m) enabled (LastRun m) (LastDuration m)
             (TotalRuns m) (SuccessfulRuns m) (FailedRuns m)
             (EntriesProcessed m) (BytesProcessed m) (MemoryUsageMB m)
             (CPUUsagePercent m) (ActiveGoroutines m) (ErrorRate m)
             (AverageProcessTime m) (LastError m) (LastErrorTime m))
    end.

(** [RecordConfigReload]. *)
Definition RecordConfigReload (c : Collector) (now : Z) : Collector :=
  if negb (configEnabled c) then c
  else
    let s := systemMetrics c in
    mkCollector (configEnabled c) (pipelineMetrics c)
      (mkSystemMetrics (TotalMemoryMB s) (UsedMemoryMB s) (SysCPUUsagePercent s)
         (TotalGoroutines s) (ActivePipelines s) (TotalPipelines s) (Uptime s)
         (At now)).

(** [updateSystemMetrics]; [sys] and [alloc] are [memStats.Sys] and
    [memStats.Alloc], [goroutines] is [runtime.NumGoroutine()].  The loop
    over the table divides by the length of the table, which is positive
    inside the loop. *)
Definition updateSystemMetrics (c : Collector) (sys alloc goroutines : Z)
    : Collector :=
  let s := systemMetrics c in
  let megabytes b := fdiv (fdiv (floatOfInt b) (floatOfInt 1024)) (floatOfInt 1024) in
  let len := Z.of_nat (size (pipelineMetrics c)) in
  mkCollector (configEnabled c)
    ((fun m =>
        mkPipelineMetrics (Name m) (Enabled m) (LastRun m) (LastDuration m)
          (TotalRuns m) (SuccessfulRuns m) (FailedRuns m)
          (EntriesProcessed m) (BytesProcessed m)
          (fdiv (megabytes alloc) (floatOfInt len))
          (CPUUsagePercent m) (Z.quot goroutines len) (ErrorRate m)
          (AverageProcessTime m) (LastError m) (LastErrorTime m))
       <$> pipelineMetrics c)
    (mkSystemMetrics (megabytes sys) (megabytes alloc) (SysCPUUsagePercent s)
       goroutines (ActivePipelines s) (TotalPipelines s) (Uptime s)
       (LastConfigReload s)).

(** [GetPipelineMetrics]: a copy of the struct, or [nil]. *)
Definition GetPipelineMetrics (c : Collector) (pipelineName : string)
    : option PipelineMetrics :=
  pipelineMetrics c !! pipelineName.

(** [GetSystemMetrics]; [uptime] is [time.Since(c.startTime)].  The count
    of the enabled pipelines stays below the length of a Go map, so it
    does not wrap. *)
Definition GetSystemMetrics (c : Collector) (uptime : Z) : SystemMetrics :=
  let s := systemMetrics c in
  let activePipelines :=
    map_fold (fun _ m n => if Enabled m then (n + 1)%Z else n)
             0%Z (pipelineMetrics c) in
  mkSystemMetrics (TotalMemoryMB s) (UsedMemoryMB s) (SysCPUUsagePercent s)
    (TotalGoroutines s) activePipelines
    (Z.of_nat (size (pipelineMetrics c))) uptime (LastConfigReload s).

(** The calls that change a collector. *)
Inductive call : Type :=
  | CallStart (pipelineName : string) (now : Z)
  | CallSuccess (pipelineName : string) (duration entries bytes : Z)
  | CallFailure (pipelineName : string) (duration : Z) (err : string) (now : Z)
  | CallStatus (pipelineName : string) (enabled : bool)
  | CallReload (now : Z)
  | CallSample (sys alloc goroutines : Z).

Definition perform (c : Collector) (x : call) : Collector :=
  match x with
  | CallStart name now => RecordPipelineStart c name now
  | CallSuccess name duration entries bytes =>
      RecordPipelineSuccess c name duration entries bytes
  | CallFailure name duration err now =>
      RecordPipelineFailure c name duration err now
  | CallStatus name enabled => UpdatePipelineStatus c name enabled
  | CallReload now => RecordConfigReload c now
  | CallSample sys alloc goroutines => updateSystemMetrics c sys alloc goroutines
  end.

(** The runs counted for a pipeline add up: the total is the sum of the
    successes and the failures, in int64 arithmetic. *)
Definition runsAddUp (m : PipelineMetrics) : Prop :=
  TotalRuns m = wrapInt64 (SuccessfulRuns m + FailedRuns m).

(** Every pipeline of the table has runs that add up. *)
Definition tallied (c : Collector) : Prop :=
  forall name m, pipelineMetrics c !! name = Some m -> runsAddUp m.

(** A pipeline after one run of 100 ns that succeeded. *)
Definition ordersAfterOneRun : PipelineMetrics :=
  mkPipelineMetrics "orders" true (At 5) 100 1 1 0 1 1 fzero fzero 0 fzero 100
    EmptyString ZeroTime.

Definition oneRun : Collector :=
  RecordPipelineSuccess (RecordPipelineStart (NewCollector true) "orders" 5)
    "orders" 100 1 1.

End Metrics.

Module Pipeline.
Import GoStrings Utils Conversion Metrics.

Section Execute.
(** [result.Metadata["response_size"].(int)]: the size, when the entry is
    there and is an int. *)
Variable responseSize : Extract.Result -> option Z.

(** [calculateBytesProcessed]. *)
Definition calculateBytesProcessed (results : list Extract.Result) : Z :=
  foldl (fun totalBytes r =>
           match responseSize r with
           | Some n => wrapInt64 (totalBytes + n)
           | None => totalBytes
           end)
        0%Z results.

(** What [execute] does to the collector.  [now] and [failedAt] are the
    clock readings of [RecordPipelineStart] and [RecordPipelineFailure],
    [elapsed] is [time.Since(startTime)]; [extracted] is what [Extract]
    returned, [transform] and [load] what [Transform] and [Load] return on
    their inputs. *)
Definition execute (name : string) (c : Collector) (now elapsed failedAt : Z)
    (extracted : result (list Extract.Result))
    (transform : list Extract.Result -> result (list Transformed))
    (load : list Transformed -> option string) : Collector :=
  let c := RecordPipelineStart c name now in
  match extracted with
  | Err err =>
      RecordPipelineFailure c name elapsed ("extraction failed: " +:+ err) failedAt
  | Ok extractResults =>
      if decide (length extractResults = 0)
      then RecordPipelineSuccess c name elapsed 0 0
      else
        match transform extractResults with
        | Err err =>
            RecordPipelineFailure c name elapsed
              ("transformation failed: " +:+ err) failedAt
        | Ok transformResults =>
            match load transformResults with
            | Some err =>
                RecordPipelineFailure c name elapsed
                  ("loading failed: " +:+ err) failedAt
            | None =>
                RecordPipelineSuccess c name elapsed
                  (Z.of_nat (length transformResults))
                  (calculateBytesProcessed extractResults)
            end
        end
  end.

(** The collectors a program reaches when the executions of one pipeline
    do not overlap: a new collector, then whole executions, status
    updates, reloads and the periodic samples of the system. *)
Inductive settled : Collector -> Prop :=
  | settled_new enabled : settled (NewCollector enabled)
  | settled_execute c name now elapsed failedAt extracted transform load :
      settled c ->
      settled (execute name c now elapsed failedAt extracted transform load)
  | settled_status c name enabled :
      settled c -> settled (UpdatePipelineStatus c name enabled)
  | settled_reload c now :
      settled c -> settled (RecordConfigReload c now)
  | settled_sample c sys alloc goroutines :
      settled c -> settled (updateSystemMetrics c sys alloc goroutines).

End Execute.

(** A first execution whose extraction fails. *)
Definition failedOnce : Collector :=
  execute (fun _ => None) "orders" (NewCollector true) 5 100 105 (Err "timeout")
    (fun _ => Ok []) (fun _ => None).

Definition ordersAfterFailure : PipelineMetrics :=
  mkPipelineMetrics "orders" true (At 5) 100 1 0 1 0 0 fzero fzero 0
    (floatOfInt 100) 0 "extraction failed: timeout" (At 105).

End Pipeline.

(* ===================================================================== *)
(** * pkg/load and pkg/config: the loader, the csv stream, validation *)
(* ===================================================================== *)

Module Loader.
Import GoStrings Utils Conversion.

(** A [Stream]: what [GetType] returns and what [Load] does to a batch,
    [None] being the [nil] error. *)
Record Stream : Type := mkStream {
  GetType : string;
  StreamLoad : list Transformed -> option string
}.

(** What the goroutine of stream [index] sends on [errorsChan]. *)
Definition sentError (streams : list Stream) (results : list Transformed)
    (index : nat) : option string :=
  s ← streams !! index;
  err ← StreamLoad s results;
  Some ("stream " +:+ GetType s +:+ ": " +:+ err).

(** [Loader.Load].  [completion] is the order in which the goroutines
    finish, hence the order of the sends on the channel. *)
Definition Load (streams : list Stream) (results : list Transformed)
    (completion : list nat) : option string :=
  let errors := omap (sentError streams results) completion in
  if decide (0 < length errors)
  then Some ("load errors: [" +:+ Join errors " " +:+ "]")
  else None.

(** The records [CSVStream.Load] hands to the csv writer when no write
    fails.  The results of a batch are distinct structs, so that
    [result == results[0]] holds for the first one only. *)
Definition csvRecords (results : list Transformed) : list (list string) :=
  concat
    (imap (fun i result =>
             let table := Table result in
             if decide (0 < length (Transform.CSVHeaders table)
                        ∧ 0 < length (Transform.CSVData table))
             then (if decide (i = 0) then [Transform.CSVHeaders table] else [])
                    ++ Transform.CSVData table
             else [])
          results).

(** Two streams, the first of which fails. *)
Definition twoStreams : list Stream :=
  [ mkStream "gem" (fun _ => Some "GEM returned status 500");
    mkStream "csv" (fun _ => None) ].

End Loader.

Module Config.
Import GoStrings Utils Conversion TimeCheck.

(** The fields of a pipeline that [validateConfig] reads; [Streams] holds
    the type of each stream. *)
Record PipelineConfig : Type := mkPipelineConfig {
  Name : string;
  Enabled : bool;
  Interval : Z;
  Extract : Extract.ExtractConfig;
  StartTime : string;
  EndTime : string;
  ConversionFunctions : list ConversionFunctionConfig;
  Streams : list string
}.

(** The errors of [validateConfig], one for each [return]. *)
Inductive problem : Type :=
  | NoPipeline
  | NameRequired (i : nat)
  | IntervalNotPositive (name : string)
  | NoURL (name : string)
  | NoClusterName (name : string)
  | NoQuery (name : string)
  | NoStream (name : string)
  | FieldRequired (name : string) (j : nat)
  | FunctionRequired (name : string) (j : nat)
  | InvalidStartTime (name err : string)
  | InvalidEndTime (name err : string)
  | NoEndpoint (name : string)
  | EmptyURL (name : string) (j : nat)
  | EmptyClusterName (name : string) (j : nat).

(** The text of the error. *)
Definition message (p : problem) : string :=
  match p with
  | NoPipeline => "at least one pipeline must be configured"
  | NameRequired i => "pipeline " +:+ pretty i +:+ ": name is required"
  | IntervalNotPositive name =>
      "pipeline " +:+ name +:+ ": interval must be positive"
  | NoURL name => "pipeline " +:+ name +:+ ": at least one URL is required"
  | NoClusterName name =>
      "pipeline " +:+ name +:+ ": at least one cluster name is required"
  | NoQuery name =>
      "pipeline " +:+ name +:+ ": elasticsearch query is required"
  | NoStream name =>
      "pipeline " +:+ name +:+ ": at least one load stream is required"
  | FieldRequired name j =>
      "pipeline " +:+ name +:+ ": conversion function " +:+ pretty j
        +:+ ": field is required"
  | FunctionRequired name j =>
      "pipeline " +:+ name +:+ ": conversion function " +:+ pretty j
        +:+ ": function is required"
  | InvalidStartTime name err =>
      "pipeline " +:+ name +:+ ": invalid start_time: " +:+ err
  | InvalidEndTime name err =>
      "pipeline " +:+ name +:+ ": invalid end_time: " +:+ err
  | NoEndpoint name =>
      "pipeline " +:+ name +:+ ": no valid endpoint configurations found"
  | EmptyURL name j =>
      "pipeline " +:+ name +:+ ": URL " +:+ pretty j +:+ " is empty"
  | EmptyClusterName name j =>
      "pipeline " +:+ name +:+ ": cluster_name " +:+ pretty j +:+ " is empty"
  end.

(** The loop over the conversion functions, from index [j]. *)
Fixpoint conversionProblem (name : string) (j : nat)
    (convs : list ConversionFunctionConfig) : option problem :=
  match convs with
  | [] => None
  | conv :: convs =>
      if String.eqb (Field conv) EmptyString then Some (FieldRequired name j)
      else if String.eqb (Function conv) EmptyString
      then Some (FunctionRequired name j)
      else conversionProblem name (S j) convs
  end.

(** The loop [for j := 0; j < minLen; j++], from index [j] with [n]
    rounds left.  The indices stay below the lengths of both slices. *)
Fixpoint endpointProblem (name : string) (urls clusterNames : list string)
    (j n : nat) : option problem :=
  match n with
  | 0 => None
  | S n =>
      if String.eqb (default EmptyString (urls !! j)) EmptyString
      then Some (EmptyURL name j)
      else if String.eqb (default EmptyString (clusterNames !! j)) EmptyString
      then Some (EmptyClusterName name j)
      else endpointProblem name urls clusterNames (S j) n
  end.

(** The body of the loop of [validateConfig] for pipeline [i]. *)
Definition validatePipeline (i : nat) (pipeline : PipelineConfig)
    : option problem :=
  let name := Name pipeline in
  let extract := Extract pipeline in
  if String.eqb name EmptyString then Some (NameRequired i)
  else if decide (Interval pipeline <= 0)%Z then Some (IntervalNotPositive name)
  else if decide (length (Extract.URLs extract) = 0) then Some (NoURL name)
  else if decide (length (Extract.ClusterNames extract) = 0)
  then Some (NoClusterName name)
  else if String.eqb (Extract.ElasticsearchQuery extract) EmptyString
  then Some (NoQuery name)
  else if decide (length (Streams pipeline) = 0) then Some (NoStream name)
  else
    match conversionProblem name 0 (ConversionFunctions pipeline) with
    | Some p => Some p
    | None =>
        match ValidateTimeExpression (StartTime pipeline) with
        | Some err => Some (InvalidStartTime name err)
        | None =>
            match ValidateTimeExpression (EndTime pipeline) with
            | Some err => Some (InvalidEndTime name err)
            | None =>
                let minLen := Extract.minLen extract in
                if decide (minLen = 0) then Some (NoEndpoint name)
                else
                  endpointProblem name (Extract.URLs extract)
                    (Extract.ClusterNames extract) 0 minLen
            end
        end
    end.

(** The loop over the pipelines, from index [i]. *)
Fixpoint validatePipelines (i : nat) (pipelines : list PipelineConfig)
    : option problem :=
  match pipelines with
  | [] => None
  | pipeline :: pipelines =>
      match validatePipeline i pipeline with
      | Some p => Some p
      | None => validatePipelines (S i) pipelines
      end
  end.

(** [validateConfig]; the error returned is [message] of the problem. *)
Definition validateConfig (pipelines : list PipelineConfig) : option problem :=
  if decide (length pipelines = 0) then Some NoPipeline
  else validatePipelines 0 pipelines.

(** What a configuration has when every pipeline can be run: a name, a
    positive interval, a query, a stream, named conversions, time
    expressions that pass the check, and for every endpoint call that
    [Extract] issues a URL and a cluster name. *)
Definition runnable (pipeline : PipelineConfig) : Prop :=
  Name pipeline <> EmptyString /\
  (0 < Interval pipeline)%Z /\
  Extract.ElasticsearchQuery (Extract pipeline) <> EmptyString /\
  Streams pipeline <> [] /\
  Forall (fun conv => Field conv <> EmptyString /\ Function conv <> EmptyString)
         (ConversionFunctions pipeline) /\
  ValidateTimeExpression (StartTime pipeline) = None /\
  ValidateTimeExpression (EndTime pipeline) = None /\
  1 <= Extract.minLen (Extract pipeline) /\
  forall j, j < Extract.minLen (Extract pipeline) ->
    exists url cluster,
      Extract.URLs (Extract pipeline) !! j = Some url /\ url <> EmptyString /\
      Extract.ClusterNames (Extract pipeline) !! j = Some cluster /\
      cluster <> EmptyString.

(** A pipeline with two endpoints. *)
Definition ordersPipeline : PipelineConfig :=
  mkPipelineConfig "orders" true 30000000000
    (Extract.mkExtractConfig "{}" ["http://a"; "http://b"] ["a"; "b"] [] []
       EmptyString [])
    "NOW-5MIN" "NOW" [toKB] ["csv"].

(** A pipeline without a URL. *)
Definition noURLPipeline : PipelineConfig :=
  mkPipelineConfig "orders" true 30000000000
    (Extract.mkExtractConfig "{}" [] ["a"] [] [] EmptyString [])
    "NOW-5MIN" "NOW" [] ["csv"].

End Config.

(** Case analysis on the bits of a byte, then evaluation. *)
Ltac by_bytes c := destruct c as [[] [] [] [] [] [] [] []]; vm_compute; try done.

(* ===================================================================== *)
(** * Part II: facts *)
(* ===================================================================== *)

Set Warnings "-clear-no-such-hyp".

Module GoStringsFacts.
Import GoStrings Strconv.

Lemma byte_eqb_eq a b : byte_eqb a b = true <-> a = b.
Proof. apply Ascii.eqb_eq. Qed.

Lemma string_app_cons c (a b : string) : String c a +:+ b = String c (a +:+ b).
Proof. reflexivity. Qed.

Lemma string_app_nil_l (b : string) : EmptyString +:+ b = b.
Proof. reflexivity. Qed.

Lemma string_app_assoc (a b c : string) : (a +:+ b) +:+ c = a +:+ (b +:+ c).
Proof.
  induction a as [|x a IH]; [done|].
  rewrite !string_app_cons. by f_equal.
Qed.

Lemma string_app_nil_r (a : string) : a +:+ EmptyString = a.
Proof.
  induction a as [|x a IH]; [done|]. rewrite string_app_cons. by f_equal.
Qed.

Lemma HasPrefix_nil s : HasPrefix s EmptyString = true.
Proof. by destruct s. Qed.

Lemma HasPrefix_cons c s d p :
  HasPrefix (String c s) (String d p) = byte_eqb c d && HasPrefix s p.
Proof. reflexivity. Qed.

Lemma HasPrefix_app p r : HasPrefix (p +:+ r) p = true.
Proof.
  induction p as [|c p IH]; [apply HasPrefix_nil|].
  rewrite string_app_cons, HasPrefix_cons, IH.
  unfold byte_eqb. by rewrite Ascii.eqb_refl.
Qed.

Lemma HasPrefix_inv s p :
  HasPrefix s p = true -> s = p +:+ dropBytes (String.length p) s.
Proof.
  revert s. induction p as [|c p IH]; intros s.
  - by destruct s.
  - destruct s as [|d s]; [done|]. rewrite HasPrefix_cons.
    intros [H1 H2]%andb_prop.
    apply byte_eqb_eq in H1 as ->. rewrite string_app_cons. simpl. f_equal. by apply IH.
Qed.

Lemma dropBytes_app p r : dropBytes (String.length p) (p +:+ r) = r.
Proof.
  induction p as [|c p IH]; [by destruct r|].
  rewrite string_app_cons. simpl. done.
Qed.


Lemma dropBytes_nil k : dropBytes k EmptyString = EmptyString.
Proof. by destruct k. Qed.

Lemma replaceAll_go_skip old new k s :
  replaceAll_go old new k s = replaceAll_go old new 0 (dropBytes k s).
Proof.
  revert k. induction s as [|c s IH]; intros k.
  - by rewrite dropBytes_nil.
  - destruct k as [|k]; [done|]. simpl. apply IH.
Qed.

Lemma ReplaceAll_head old new s :
  old <> EmptyString -> HasPrefix s old = true ->
  ReplaceAll s old new = new +:+ ReplaceAll (dropBytes (String.length old) s) old new.
Proof.
  intros Hold Hp. unfold ReplaceAll.
  destruct old as [|o old]; [done|]. destruct s as [|c s]; [done|].
  cbn [replaceAll_go]. rewrite Hp. f_equal.
  rewrite replaceAll_go_skip. simpl. by rewrite Nat.sub_0_r.
Qed.

Lemma ReplaceAll_step old new c s :
  HasPrefix (String c s) old = false ->
  ReplaceAll (String c s) old new = String c (ReplaceAll s old new).
Proof. intros Hp. unfold ReplaceAll. cbn [replaceAll_go]. by rewrite Hp. Qed.

(** The two equations of [strings.ReplaceAll]: a text without occurrence
    is returned as it is; otherwise the text before the first occurrence
    is kept, the occurrence replaced, and the rest treated in the same
    way. *)
Lemma Index_unfold s substr :
  Index s substr =
    if HasPrefix s substr then Some 0
    else match s with
         | EmptyString => None
         | String _ s' => S <$> Index s' substr
         end.
Proof. by destruct s. Qed.

Lemma ReplaceAll_absent old new s :
  Index s old = None -> ReplaceAll s old new = s.
Proof.
  induction s as [|c s IH]; [done|].
  rewrite Index_unfold.
  destruct (HasPrefix (String c s) old) eqn:Hp; [done|].
  destruct (Index s old) eqn:Hi; [done|]. intros _.
  rewrite ReplaceAll_step by done. f_equal. by apply IH.
Qed.

Lemma ReplaceAll_first old new s i :
  old <> EmptyString -> Index s old = Some i ->
  ReplaceAll s old new =
    takeBytes i s +:+ new +:+ ReplaceAll (dropBytes (i + String.length old) s) old new.
Proof.
  intros Hold. revert i. induction s as [|c s IH]; intros i; rewrite Index_unfold.
  - destruct (HasPrefix EmptyString old) eqn:Hp; [|done].
    by destruct old.
  - destruct (HasPrefix (String c s) old) eqn:Hp.
    + intros [= <-]. cbn [takeBytes Nat.add]. rewrite string_app_nil_l.
      by apply ReplaceAll_head.
    + destruct (Index s old) as [j|] eqn:Hi; [|done]. intros [= <-].
      rewrite ReplaceAll_step by done. cbn [takeBytes Nat.add dropBytes].
      rewrite string_app_cons. f_equal. by apply IH.
Qed.

Lemma Contains_false s old : Contains s old = false <-> Index s old = None.
Proof.
  unfold Contains. rewrite bool_decide_eq_false. split.
  - intros H. destruct (Index s old); [|done]. exfalso. apply H. eauto.
  - intros -> [? ?]. done.
Qed.


(** Appends brought to right-nested form. *)
Ltac norm_app :=
  repeat (rewrite string_app_nil_l || rewrite string_app_assoc
          || rewrite string_app_cons).

End GoStringsFacts.

Module TransformFacts.
Import GoStrings Strconv Transform GoStringsFacts.

(** *** The tokens of a key *)


Lemma concat_empty_cons (a : string) (l : list string) :
  String.concat EmptyString (a :: l) = a +:+ String.concat EmptyString l.
Proof.
  destruct l as [|b l]; simpl; [by rewrite string_app_nil_r|done].
Qed.

Lemma tokensText_cons t ts : tokensText (t :: ts) = tokenText t +:+ tokensText ts.
Proof. apply concat_empty_cons. Qed.

Lemma tokensText_app ts1 ts2 : tokensText (ts1 ++ ts2) = tokensText ts1 +:+ tokensText ts2.
Proof.
  induction ts1 as [|t ts1 IH]; [done|].
  rewrite <- app_comm_cons, !tokensText_cons, IH. by rewrite string_app_assoc.
Qed.

Lemma tokensText_bytes (s : string) :
  tokensText (TByte <$> list_ascii_of_string s) = s.
Proof.
  induction s as [|c s IH]; [done|].
  simpl list_ascii_of_string. rewrite fmap_cons, tokensText_cons, IH. done.
Qed.

Lemma flushPending_text pend : tokensText (flushPending pend) = pendingText pend.
Proof.
  destruct pend as [rds|]; [|done]. unfold flushPending.
  rewrite tokensText_cons, tokensText_bytes. done.
Qed.

Lemma rev_app_spec (a b : string) : String.rev_app a b = String.rev a +:+ b.
Proof.
  revert b. induction a as [|c a IH]; intros b; [done|].
  unfold String.rev. simpl. rewrite !IH. rewrite string_app_assoc. done.
Qed.

Lemma rev_cons c (a : string) : String.rev (String c a) = String.rev a +:+ String c EmptyString.
Proof. unfold String.rev. simpl. by rewrite rev_app_spec. Qed.

(** The tokens of a key spell the key: the tokenizer loses no byte. *)
Lemma tokenize_go_text pend s :
  tokensText (tokenize_go pend s) = pendingText pend +:+ s.
Proof.
  revert pend. induction s as [|c s IH]; intros pend.
  - simpl. by rewrite flushPending_text, string_app_nil_r.
  - assert (tokensText (if byte_eqb c "[" then tokenize_go (Some EmptyString) s
                        else TByte c :: tokenize_go None s) = String c s) as Hrestart.
    { destruct (byte_eqb c "[") eqn:Hc.
      - apply byte_eqb_eq in Hc as ->. by rewrite IH.
      - rewrite tokensText_cons, IH. done. }
    destruct pend as [rds|]; cbn [tokenize_go].
    + destruct (isDigit c) eqn:Hd.
      * rewrite IH. cbn [pendingText]. rewrite rev_cons. by norm_app.
      * destruct (byte_eqb c "]" && negb (String.eqb rds EmptyString)) eqn:Hb.
        -- apply andb_prop in Hb as [Hc%byte_eqb_eq _]. subst c.
           rewrite tokensText_cons, IH. cbn [pendingText tokenText]. by norm_app.
        -- rewrite tokensText_app, flushPending_text, Hrestart. done.
    + rewrite Hrestart. done.
Qed.

Lemma tokenize_text key : tokensText (tokenize key) = key.
Proof. unfold tokenize. by rewrite tokenize_go_text. Qed.


Lemma foldl_singleton_union (f : string -> string) (l : list string) (S : gset string) :
  foldl (fun acc key => {[ f key ]} ∪ acc) S l = list_to_set (f <$> l) ∪ S.
Proof.
  revert S. induction l as [|x l IH]; intros S; simpl.
  - set_solver.
  - rewrite IH. set_solver.
Qed.

Lemma elem_of_collectAllKeys (results : list TransformedResult) (k : string) :
  k ∈ collectAllKeys results <->
  exists r, r ∈ results /\ k ∈ dom (TransformedData r).
Proof.
  unfold collectAllKeys.
  induction results as [|r results IH] using rev_ind; simpl.
  - split; [set_solver|]. intros (r & Hr & _). by apply elem_of_nil in Hr.
  - rewrite foldl_app. simpl.
    rewrite (foldl_singleton_union id), list_fmap_id.
    rewrite elem_of_union, elem_of_list_to_set, elem_of_elements, IH.
    split.
    + intros [H|(r' & Hr' & H)].
      * exists r. split; [set_solver|done].
      * exists r'. split; [set_solver|done].
    + intros (r' & Hr' & H). apply elem_of_app in Hr' as [Hr'|Hr'].
      * right. eauto.
      * left. apply list_elem_of_singleton in Hr'. by subst.
Qed.

Lemma calculateKeyDepth_pos key : 1 <= calculateKeyDepth key.
Proof. unfold calculateKeyDepth. lia. Qed.


Lemma groupByDepth_step_ok (l : list string) :
  depthTable_ok l
    (foldl (fun '(keysByDepth, maxDepth) key =>
             let depth := calculateKeyDepth key in
             (<[ depth := (keysByDepth !!! depth) ++ [key] ]> keysByDepth,
              if decide (maxDepth < depth) then depth else maxDepth))
          (∅, 0) l).
Proof.
  induction l as [|x l IH] using rev_ind.
  - split; simpl.
    + intros k d. rewrite lookup_total_empty. set_solver.
    + intros k Hk. by apply elem_of_nil in Hk.
  - rewrite foldl_app. simpl.
    destruct (foldl _ _ l) as [kbd md]. destruct IH as [IH1 IH2]. simpl in *.
    split; simpl.
    + intros k d. destruct (decide (calculateKeyDepth x = d)) as [<-|Hne].
      * rewrite lookup_total_insert_eq, elem_of_app, IH1, list_elem_of_singleton, elem_of_app, list_elem_of_singleton.
        split; [intros [[? ?]| ->]; auto|intros [[?| ->] ?]; auto].
      * rewrite lookup_total_insert_ne by done.
        rewrite IH1, elem_of_app, list_elem_of_singleton.
        split; [intros [? ?]; auto|intros [[?| ->] ?]; [auto|done]].
    + intros k [Hk|Hk%list_elem_of_singleton]%elem_of_app.
      * specialize (IH2 k Hk). case_decide; lia.
      * subst. case_decide; lia.
Qed.

Lemma elem_of_collectUniqueKeys_go (kbd : gmap nat (list string)) (ds : list nat) (h : string) :
  h ∈ foldl (fun uniqueKeySet depth =>
             foldl (fun acc key => {[ removeArrayIndices key ]} ∪ acc)
                   uniqueKeySet (kbd !!! depth)) (∅ : gset string) ds <->
  exists d k, d ∈ ds /\ k ∈ kbd !!! d /\ removeArrayIndices k = h.
Proof.
  induction ds as [|d ds IH] using rev_ind; simpl.
  - split; [set_solver|]. intros (d & k & Hd & _). by apply elem_of_nil in Hd.
  - rewrite foldl_app. simpl. rewrite foldl_singleton_union.
    rewrite elem_of_union, elem_of_list_to_set, list_elem_of_fmap, IH.
    split.
    + intros [(k & -> & Hk)|(d' & k & Hd' & Hk & <-)].
      * exists d, k. set_solver.
      * exists d', k. set_solver.
    + intros (d' & k & [Hd'|Hd'%list_elem_of_singleton]%elem_of_app & Hk & <-).
      * right. eauto.
      * subst. left. eauto.
Qed.

Lemma elem_of_uniqueKeySet (results : list TransformedResult) (h : string) :
  h ∈ (let '(keysByDepth, maxDepth) := groupByDepth (collectAllKeys results) in
       collectUniqueKeys keysByDepth maxDepth) <->
  exists k, k ∈ collectAllKeys results /\ removeArrayIndices k = h.
Proof.
  unfold groupByDepth.
  pose proof (groupByDepth_step_ok (elements (collectAllKeys results))) as Hok.
  destruct (foldl _ _ (elements _)) as [kbd md]. destruct Hok as [H1 H2]. simpl in *.
  unfold collectUniqueKeys. rewrite elem_of_collectUniqueKeys_go.
  split.
  - intros (d & k & Hd & Hk & <-). exists k. split; [|done].
    apply H1 in Hk as [Hk _]. by apply elem_of_elements in Hk.
  - intros (k & Hk & <-). exists (calculateKeyDepth k), k.
    apply elem_of_elements in Hk. split_and!; [|by apply H1|done].
    apply elem_of_seq. pose proof (calculateKeyDepth_pos k). specialize (H2 k Hk). lia.
Qed.

Lemma analyzeUniqueKeys_eq (results : list TransformedResult) :
  analyzeUniqueKeys results =
  sortStrings (elements (set_map (D:=gset string) removeArrayIndices (collectAllKeys results))).
Proof.
  unfold analyzeUniqueKeys.
  pose proof (elem_of_uniqueKeySet results) as H.
  destruct (groupByDepth (collectAllKeys results)) as [kbd md].
  f_equal. f_equal. apply set_eq. intros h. rewrite H, elem_of_map. naive_solver.
Qed.


(** *** Sorting *)

Lemma sortStrings_perm l : sortStrings l ≡ₚ l.
Proof. apply merge_sort_Permutation. Qed.

Lemma sortStrings_sorted l : StronglySorted String.le (sortStrings l).
Proof. apply StronglySorted_merge_sort; apply _. Qed.

Lemma sortInts_perm l : sortInts l ≡ₚ l.
Proof. apply merge_sort_Permutation. Qed.

Lemma sortInts_sorted l : StronglySorted Z.le (sortInts l).
Proof. apply StronglySorted_merge_sort; apply _. Qed.

(** *** Rows *)

Section RowFacts.
Variable rangeData : gmap string value -> list (string * value).
Variable Sprintf_f15 : float64 -> string.
Variable Sprintf_v : value -> string.

#[local] Abbreviation generateCSVRows := (generateCSVRows rangeData Sprintf_f15 Sprintf_v).

Lemma fillRow_go_length (cell : string -> option string) (l : list (nat * string)) row :
  length (foldl (fun row '(colIdx, uniqueKey) =>
                   match cell uniqueKey with
                   | Some text => <[ colIdx := text ]> row
                   | None => row
                   end) row l) = length row.
Proof.
  revert row. induction l as [|[i uk] l IH]; intros row; simpl; [done|].
  rewrite IH. destruct (cell uk); [apply length_insert|done].
Qed.

Lemma fillRow_length cell uniqueKeys :
  length (fillRow cell uniqueKeys) = length uniqueKeys.
Proof. unfold fillRow. by rewrite fillRow_go_length, length_replicate. Qed.

Lemma rows_go_spec (mk : gmap string Z -> list string) combos rows0 :
  foldl (fun rows combination => rows ++ [mk combination]) rows0 combos
  = rows0 ++ (mk <$> combos).
Proof.
  revert rows0. induction combos as [|c combos IH]; intros rows0; simpl.
  - by rewrite app_nil_r.
  - rewrite IH. by rewrite <- app_assoc.
Qed.

Lemma generateCSVRows_row_length data uniqueKeys row :
  row ∈ generateCSVRows data uniqueKeys -> length row = length uniqueKeys.
Proof.
  unfold Transform.generateCSVRows. case_decide.
  - intros ->%list_elem_of_singleton. apply fillRow_length.
  - rewrite rows_go_spec. simpl. intros (c & -> & _)%list_elem_of_fmap.
    apply fillRow_length.
Qed.

Lemma generateCSVRows_length data uniqueKeys :
  length (generateCSVRows data uniqueKeys) =
  length (generateArrayCombinations (findArrayPaths data)).
Proof.
  unfold Transform.generateCSVRows, generateArrayCombinations. case_decide; [done|].
  rewrite rows_go_spec. simpl. by rewrite length_fmap.
Qed.

End RowFacts.

(** *** Counting the combinations *)


Lemma combinations_loop_length (rest : list string) arrayPaths path K :
  (forall cur, length (generateCombinationsRecursive rest arrayPaths cur).1 = K) ->
  forall indices acc cur,
  length (foldl (fun '(allCombinations, cur) index =>
                 let '(combinations, cur') :=
                   generateCombinationsRecursive rest arrayPaths
                     (<[ path := index ]> cur) in
                 (allCombinations ++ combinations, cur'))
              (acc, cur) indices).1 = length acc + length indices * K.
Proof.
  intros HK. induction indices as [|i indices IH]; intros acc cur; simpl; [lia|].
  specialize (HK (<[path:=i]> cur)).
  destruct (generateCombinationsRecursive rest arrayPaths (<[path:=i]> cur)) as [cs cur'].
  rewrite IH, length_app. simpl in HK. lia.
Qed.

Lemma generateCombinationsRecursive_length paths arrayPaths cur :
  length (generateCombinationsRecursive paths arrayPaths cur).1
  = pathsProduct arrayPaths paths.
Proof.
  revert cur. induction paths as [|path rest IH]; intros cur; simpl; [done|].
  rewrite (combinations_loop_length rest arrayPaths path (pathsProduct arrayPaths rest)) by done.
  simpl. lia.
Qed.


(** *** The table of array paths *)

Lemma extract_no_segment key :
  hasIndexSegment key = false -> extractArrayPathAndIndex key = (EmptyString, (-1)%Z).
Proof.
  unfold hasIndexSegment, extractArrayPathAndIndex.
  intros H%bool_decide_eq_false. destruct (FindAllStringSubmatch key); [done|].
  exfalso. apply H. done.
Qed.

Lemma path_nonempty_has_segment key :
  (extractArrayPathAndIndex key).1 <> EmptyString -> hasIndexSegment key = true.
Proof.
  intros H. destruct (hasIndexSegment key) eqn:E; [done|].
  rewrite (extract_no_segment _ E) in H. done.
Qed.


Lemma recordArrayPath_ok l T x :
  arrayTable_ok l T -> arrayTable_ok (l ++ [x]) (recordArrayPath T x).
Proof.
  intros HT p. unfold recordArrayPath.
  destruct (extractArrayPathAndIndex x) as [px ix] eqn:Ex.
  case_decide as Hpx.
  { (* the key has no (non-empty) array path: the table is unchanged *)
    subst px. specialize (HT p). destruct (T !! p) as [idxs|].
    - destruct HT as (Hp & Hnd & Hi). split_and!; [done..|].
      intros i. rewrite Hi. split.
      + intros (k & Hk & E). exists k. split; [set_solver|done].
      + intros (k & [Hk|Hk%list_elem_of_singleton]%elem_of_app & E); [eauto|].
        subst k. rewrite Ex in E. congruence.
    - destruct HT as [->|HT]; [by left|].
      destruct (decide (p = EmptyString)) as [->|Hne]; [by left|]. right.
      intros k [Hk|Hk%list_elem_of_singleton]%elem_of_app; [auto|].
      subst k. rewrite Ex. simpl. congruence. }
  pose proof (HT px) as HTx.
  destruct (decide (p = px)) as [->|Hne].
  - (* the column of the key's own path *)
    destruct (T !! px) as [idxs|] eqn:ET; simpl.
    + destruct HTx as (_ & Hnd & Hi).
      rewrite (lookup_total_correct _ _ _ ET).
      case_decide as Hin.
      * rewrite ET. split_and!; [done..|]. intros i. rewrite Hi. split.
        -- intros (k & Hk & E). exists k. split; [set_solver|done].
        -- intros (k & [Hk|Hk%list_elem_of_singleton]%elem_of_app & E); [eauto|].
           subst k. rewrite Ex in E. simplify_eq. by apply Hi.
      * rewrite lookup_insert_eq. split_and!; [done| |].
        -- apply NoDup_app. split_and!; [done| |apply NoDup_singleton].
           intros i Hi1 Hi2%list_elem_of_singleton. by subst.
        -- intros i. rewrite elem_of_app, list_elem_of_singleton, Hi. split.
           ++ intros [(k & Hk & E)| ->].
              ** exists k. split; [set_solver|done].
              ** exists x. split; [set_solver|done].
           ++ intros (k & [Hk|Hk%list_elem_of_singleton]%elem_of_app & E); [eauto|].
              subst k. rewrite Ex in E. simplify_eq. by right.
    + rewrite lookup_total_insert_eq. rewrite decide_False by apply not_elem_of_nil.
      rewrite lookup_insert_eq. simpl. split_and!; [done|apply NoDup_singleton|].
      intros i. rewrite list_elem_of_singleton. split.
      * intros ->. exists x. split; [set_solver|done].
      * intros (k & [Hk|Hk%list_elem_of_singleton]%elem_of_app & E).
        -- destruct HTx as [?|HTx]; [done|]. exfalso. apply (HTx k Hk). by rewrite E.
        -- subst k. rewrite Ex in E. by simplify_eq.
  - (* another column *)
    assert (forall T', (match T !! px with Some _ => T | None => <[px:=[]]> T end) = T' ->
              (if decide (ix ∈ T' !!! px) then T' else <[px := T' !!! px ++ [ix]]> T') !! p
              = T !! p) as Hsame.
    { intros T' <-. case_decide.
      - destruct (T !! px); [done|]. by rewrite lookup_insert_ne.
      - rewrite lookup_insert_ne by done.
        destruct (T !! px); [done|]. by rewrite lookup_insert_ne. }
    rewrite (Hsame _ eq_refl). specialize (HT p). destruct (T !! p) as [idxs|].
    + destruct HT as (Hp & Hnd & Hi). split_and!; [done..|].
      intros i. rewrite Hi. split.
      * intros (k & Hk & E). exists k. split; [set_solver|done].
      * intros (k & [Hk|Hk%list_elem_of_singleton]%elem_of_app & E); [eauto|].
        subst k. rewrite Ex in E. congruence.
    + destruct HT as [->|HT]; [by left|]. right.
      intros k [Hk|Hk%list_elem_of_singleton]%elem_of_app; [auto|].
      subst k. rewrite Ex. simpl. congruence.
Qed.

Lemma foldl_recordArrayPath_ok l :
  arrayTable_ok l (foldl recordArrayPath ∅ l).
Proof.
  induction l as [|x l IH] using rev_ind.
  - intros p. simpl. rewrite lookup_empty.
    destruct (decide (p = EmptyString)); [by left|right].
    intros k Hk. by apply elem_of_nil in Hk.
  - rewrite foldl_app. simpl. by apply recordArrayPath_ok.
Qed.


Lemma elem_of_observedIndices data p i :
  i ∈ observedIndices data p <->
  exists k, k ∈ dom data /\ hasIndexSegment k = true /\ extractArrayPathAndIndex k = (p, i).
Proof.
  unfold observedIndices. rewrite elem_of_list_to_set, list_elem_of_omap.
  split.
  - intros (k & Hk%elem_of_elements & E). exists k.
    destruct (hasIndexSegment k); simpl in E; [|done].
    case_bool_decide as Hp; [|done]. simplify_eq.
    split_and!; [done..|]. by destruct (extractArrayPathAndIndex k).
  - intros (k & Hk & Hs & E). exists k. split; [by apply elem_of_elements|].
    rewrite Hs, E. simpl. by rewrite bool_decide_eq_true_2.
Qed.

Lemma elem_of_observedPaths data p :
  p ∈ observedPaths data <->
  exists k, k ∈ dom data /\ hasIndexSegment k = true /\ (extractArrayPathAndIndex k).1 = p.
Proof.
  unfold observedPaths. rewrite elem_of_list_to_set, list_elem_of_omap.
  split.
  - intros (k & Hk%elem_of_elements & E). exists k.
    destruct (hasIndexSegment k); simpl in E; [|done]. by simplify_eq.
  - intros (k & Hk & Hs & E). exists k. split; [by apply elem_of_elements|].
    by rewrite Hs, E.
Qed.

Lemma findArrayPaths_lookup_Some data p idxs :
  findArrayPaths data !! p = Some idxs ->
  p <> EmptyString /\ StronglySorted Z.le idxs /\ NoDup idxs /\
  (forall i, i ∈ idxs <-> i ∈ observedIndices data p).
Proof.
  unfold findArrayPaths. rewrite lookup_fmap.
  pose proof (foldl_recordArrayPath_ok (elements (dom data)) p) as HT.
  destruct (foldl recordArrayPath ∅ (elements (dom data)) !! p) as [raw|]; [|done].
  simpl. intros [= <-]. destruct HT as (Hp & Hnd & Hi).
  split_and!; [done|apply sortInts_sorted|by rewrite sortInts_perm|].
  intros i. rewrite sortInts_perm, Hi, elem_of_observedIndices. split.
  - intros (k & Hk%elem_of_elements & E). exists k. split_and!; [done| |done].
    apply path_nonempty_has_segment. by rewrite E.
  - intros (k & Hk & _ & E). exists k. split; [by apply elem_of_elements|done].
Qed.

Lemma dom_findArrayPaths data :
  dom (findArrayPaths data) = observedPaths data ∖ {[ EmptyString ]}.
Proof.
  apply set_eq. intros p.
  rewrite elem_of_dom, elem_of_difference, elem_of_observedPaths, not_elem_of_singleton.
  unfold findArrayPaths. rewrite lookup_fmap, fmap_is_Some.
  pose proof (foldl_recordArrayPath_ok (elements (dom data)) p) as HT.
  destruct (foldl recordArrayPath ∅ (elements (dom data)) !! p) as [raw|] eqn:E.
  - destruct HT as (Hp & Hnd & Hi). split; [intros _|by eauto].
    split; [|done].
    destruct raw as [|i raw].
    + (* a recorded path always carries an index *)
      exfalso. clear Hi Hnd.
      assert (forall l T, (forall q, T !! q <> Some []) ->
                forall q, foldl recordArrayPath T l !! q <> Some []) as Hne.
      { clear. induction l as [|x l IH]; intros T HT; simpl; [done|].
        apply IH. intros q. unfold recordArrayPath.
        destruct (extractArrayPathAndIndex x) as [px ix].
        case_decide; [done|].
        destruct (T !! px) as [old|] eqn:ET.
        - rewrite (lookup_total_correct _ _ _ ET). case_decide; [done|].
          destruct (decide (q = px)) as [->|]; [rewrite lookup_insert_eq|by rewrite lookup_insert_ne].
          by destruct old.
        - rewrite lookup_total_insert_eq. rewrite decide_False by apply not_elem_of_nil.
          destruct (decide (q = px)) as [->|]; [by rewrite lookup_insert_eq|].
          rewrite !lookup_insert_ne by done. done. }
      eapply (Hne (elements (dom data)) ∅); [|exact E].
      intros q. by rewrite lookup_empty.
    + destruct (proj1 (Hi i)) as (k & Hk & Ek); [set_solver|].
      exists k. apply elem_of_elements in Hk. split_and!; [done| |by rewrite Ek].
      apply path_nonempty_has_segment. by rewrite Ek.
  - split; [by intros [? ?]|]. intros [(k & Hk & Hs & Ek) Hp].
    destruct HT as [->|HT]; [done|]. exfalso.
    apply (HT k); [by apply elem_of_elements|done].
Qed.

Lemma findArrayPaths_length data p :
  length (findArrayPaths data !!! p) =
  if decide (p ∈ dom (findArrayPaths data)) then size (observedIndices data p) else 0.
Proof.
  case_decide as Hp.
  - apply elem_of_dom in Hp as [idxs E].
    rewrite (lookup_total_correct _ _ _ E).
    apply findArrayPaths_lookup_Some in E as (_ & _ & Hnd & Hi).
    rewrite <- (size_list_to_set (C:=gset Z) idxs) by done.
    f_equal. apply set_eq. intros i. by rewrite elem_of_list_to_set.
  - apply not_elem_of_dom in Hp. by rewrite lookup_total_alt, Hp.
Qed.

Lemma pathsProduct_perm arrayPaths l1 l2 :
  l1 ≡ₚ l2 -> pathsProduct arrayPaths l1 = pathsProduct arrayPaths l2.
Proof.
  unfold pathsProduct. induction 1; simpl; [done|congruence|lia|congruence].
Qed.

Lemma pathsProduct_observed data (paths : list string) :
  Forall (fun p => p ∈ dom (findArrayPaths data)) paths ->
  pathsProduct (findArrayPaths data) paths =
  foldr (fun path n => size (observedIndices data path) * n) 1 paths.
Proof.
  induction 1 as [|p paths Hp _ IH]; simpl; [done|].
  rewrite IH, findArrayPaths_length. by rewrite decide_True.
Qed.

Lemma generateArrayCombinations_length data :
  length (generateArrayCombinations (findArrayPaths data)) =
  productOver data (observedPaths data ∖ {[ EmptyString ]}).
Proof.
  unfold generateArrayCombinations, productOver, set_fold. simpl.
  rewrite <- dom_findArrayPaths.
  case_decide as Hsz.
  - apply map_size_empty_inv in Hsz. rewrite Hsz, dom_empty_L, elements_empty. done.
  - rewrite generateCombinationsRecursive_length.
    rewrite (pathsProduct_perm _ _ _ (sortStrings_perm _)).
    apply pathsProduct_observed. apply Forall_forall. intros p.
    by rewrite elem_of_elements.
Qed.


(** *** Headers *)

Lemma collectAllKeys_single data :
  collectAllKeys [mkTransformedResult data [] []] = dom data.
Proof.
  apply set_eq. intros k. rewrite elem_of_collectAllKeys. simpl. split.
  - intros (r & ->%list_elem_of_singleton & Hk). done.
  - intros Hk. eexists. split; [by apply list_elem_of_singleton|done].
Qed.

Lemma elem_of_analyzeUniqueKeys results h :
  h ∈ analyzeUniqueKeys results <->
  exists r k, r ∈ results /\ k ∈ dom (TransformedData r) /\ removeArrayIndices k = h.
Proof.
  rewrite analyzeUniqueKeys_eq, sortStrings_perm, elem_of_elements, elem_of_map.
  setoid_rewrite elem_of_collectAllKeys. naive_solver.
Qed.

Lemma analyzeUniqueKeys_NoDup results : NoDup (analyzeUniqueKeys results).
Proof. rewrite analyzeUniqueKeys_eq, sortStrings_perm. apply NoDup_elements. Qed.

Lemma analyzeUniqueKeys_sorted results :
  StronglySorted String.le (analyzeUniqueKeys results).
Proof. rewrite analyzeUniqueKeys_eq. apply sortStrings_sorted. Qed.

Lemma analyzeUniqueKeys_length results :
  length (analyzeUniqueKeys results) =
  size (set_map (D:=gset string) removeArrayIndices (collectAllKeys results)).
Proof. by rewrite analyzeUniqueKeys_eq, sortStrings_perm. Qed.

Section Claims.
Variable rangeData : gmap string value -> list (string * value).
Variable Sprintf_f15 : float64 -> string.
Variable Sprintf_v : value -> string.

#[local] Abbreviation tabulate := (tabulate rangeData Sprintf_f15 Sprintf_v).
#[local] Abbreviation generateCSVRows := (generateCSVRows rangeData Sprintf_f15 Sprintf_v).

Lemma tabulate_headers data :
  (tabulate data).1 = analyzeUniqueKeys [mkTransformedResult data [] []].
Proof. reflexivity. Qed.

Lemma tabulate_rows data :
  (tabulate data).2 =
  generateCSVRows data (analyzeUniqueKeys [mkTransformedResult data [] []]).
Proof. reflexivity. Qed.

(** The row count of [generateCSVRows]: the product, over the non-empty
    array paths observed, of the number of distinct indices observed. *)
Theorem generateCSVRows_count (data : gmap string value) (uniqueKeys : list string) :
  length (generateCSVRows data uniqueKeys) =
  productOver data (observedPaths data ∖ {[ EmptyString ]}).
Proof. by rewrite generateCSVRows_length, generateArrayCombinations_length. Qed.

(** C1. On the nested-array input of the guide the code yields seven
    headers that all start with a dot, in byte order, and 64 rows. *)
Theorem nested_guide_tabulate :
  (tabulate Scenarios.nestedGuideData).1 =
    [ ".avg_response_time"; ".doc_count";
      ".hosts.buckets.cpu_usage.buckets.idle";
      ".hosts.buckets.cpu_usage.buckets.system";
      ".hosts.buckets.cpu_usage.buckets.user";
      ".hosts.buckets.key"; ".key" ] /\
  length (tabulate Scenarios.nestedGuideData).2 = 64 /\
  (tabulate Scenarios.nestedGuideData).1 <> Scenarios.nestedGuideHeaders /\
  length (tabulate Scenarios.nestedGuideData).2 <> 8.
Proof.
  rewrite tabulate_headers, tabulate_rows, generateCSVRows_length.
  assert (analyzeUniqueKeys [mkTransformedResult Scenarios.nestedGuideData [] []] =
    [ ".avg_response_time"; ".doc_count";
      ".hosts.buckets.cpu_usage.buckets.idle";
      ".hosts.buckets.cpu_usage.buckets.system";
      ".hosts.buckets.cpu_usage.buckets.user";
      ".hosts.buckets.key"; ".key" ]) as -> by (vm_compute; reflexivity).
  assert (length (generateArrayCombinations (findArrayPaths Scenarios.nestedGuideData)) = 64)
    as -> by (vm_compute; reflexivity).
  split_and!; [reflexivity|reflexivity|discriminate|lia].
Qed.

(** C2. A top-level array of two buckets: the empty array path is observed
    with the indices 0 and 1, so the product of the index counts is 2, and
    the code produces one row. *)
Theorem top_level_array_single_row :
  observedPaths Scenarios.topLevelPair = {[ EmptyString ]} /\
  observedIndices Scenarios.topLevelPair EmptyString = {[ 0%Z; 1%Z ]} /\
  cartesianRowCount Scenarios.topLevelPair = 2 /\
  length (tabulate Scenarios.topLevelPair).2 = 1.
Proof.
  rewrite tabulate_rows, generateCSVRows_length.
  split_and!; vm_compute; reflexivity.
Qed.

(** A flat map none of whose keys has an index segment gives one row. *)
Theorem no_index_segment_single_row (data : gmap string value) (uniqueKeys : list string) :
  (forall k, k ∈ dom data -> hasIndexSegment k = false) ->
  length (generateCSVRows data uniqueKeys) = 1.
Proof.
  intros Hno. rewrite generateCSVRows_length, generateArrayCombinations_length.
  replace (observedPaths data ∖ {[EmptyString]}) with (∅ : gset string); [done|].
  symmetry. apply set_eq. intros p. rewrite elem_of_difference, elem_of_observedPaths.
  split; [|set_solver]. intros [(k & Hk & Hs & _) _]. rewrite (Hno k Hk) in Hs. done.
Qed.

End Claims.

(** On the guide's input the cells depend on the order in which the flat
    map is ranged over: the first row names one service under one order
    and the other service under the reverse order. *)
Example nested_guide_cells_depend_on_order :
  head (generateCSVRows map_to_list (fun _ => "f") (fun _ => "v")
          Scenarios.nestedGuideData
          (analyzeUniqueKeys [mkTransformedResult Scenarios.nestedGuideData [] []]))
    = Some ["f"; "f"; "f"; "f"; "f"; "host-3"; "web-service"] /\
  head (generateCSVRows (fun m => reverse (map_to_list m)) (fun _ => "f") (fun _ => "v")
          Scenarios.nestedGuideData
          (analyzeUniqueKeys [mkTransformedResult Scenarios.nestedGuideData [] []]))
    = Some ["f"; "f"; "f"; "f"; "f"; "host-1"; "api-service"].
Proof. split; vm_compute; reflexivity. Qed.

Lemma no_index_segment_single_row_witness :
  length (generateCSVRows map_to_list (fun _ => "0") (fun _ => "?")
            {[ "name" := VString "n"; "count" := VInt 3 ]} ["count"; "name"]) = 1.
Proof.
  apply no_index_segment_single_row.
  intros k Hk. apply elem_of_dom in Hk as [v Hk].
  apply lookup_insert_Some in Hk as [[<- _]|[_ Hk]]; [reflexivity|].
  apply lookup_singleton_Some in Hk as [<- _]. reflexivity.
Defined.

End TransformFacts.

Module HistoryFacts.
Import Transform Scenarios.


Lemma keepLast_nonneg (limit : Z) sets :
  (0 <= limit)%Z ->
  keepLast limit sets = Some (drop (length sets - Z.to_nat limit) sets).
Proof.
  intros Hl. unfold keepLast, sliceFrom. case_decide as Hlt.
  - rewrite decide_True by lia. do 2 f_equal. lia.
  - replace (length sets - Z.to_nat limit) with 0 by lia. done.
Qed.

Lemma keepLast_negative (limit : Z) sets :
  (limit < 0)%Z -> keepLast limit sets = None.
Proof.
  intros Hl. unfold keepLast, sliceFrom.
  rewrite decide_True by lia. rewrite decide_False by lia. done.
Qed.

Lemma keepLast_length limit sets kept :
  keepLast limit sets = Some kept ->
  (0 <= limit)%Z /\ (Z.of_nat (length kept) <= limit)%Z /\ kept `suffix_of` sets.
Proof.
  intros H. destruct (decide (limit < 0)%Z) as [Hneg|Hpos].
  - by rewrite keepLast_negative in H.
  - rewrite keepLast_nonneg in H by lia. simplify_eq.
    split_and!; [lia| |apply suffix_drop].
    rewrite length_drop. lia.
Qed.

Lemma step_ring_ok t t' : step t t' -> ring_ok t'.
Proof.
  intros [results t'' H|cfg t'' H].
  - unfold storePreviousResults in H.
    destruct (keepLast _ _) as [kept|] eqn:E; [|done]. simplify_eq/=.
    apply keepLast_length in E as (? & ? & _). by split.
  - unfold UpdateConfig in H.
    destruct (keepLast _ _) as [kept|] eqn:E; [|done]. simplify_eq/=.
    apply keepLast_length in E as (? & ? & _). by split.
Qed.

Lemma reachable_ring_ok t : reachable t -> ring_ok t.
Proof.
  induction 1 as [cfg t H|t t' _ _ Hstep].
  - unfold NewTransformer in H. case_decide; [|done]. simplify_eq.
    split; simpl; lia.
  - by eapply step_ring_ok.
Qed.

(** C9. Every transformer a program can hold keeps at most
    [previous_results_sets] sets (none when that is zero); a store never
    panics on it, appends the new set and keeps the newest sets; an update
    to a non-negative limit keeps the newest sets as well. *)
Theorem history_ring_invariant (t : Transformer) :
  reachable t ->
  (Z.of_nat (length (previousResults t)) <= PreviousResultsSets (config t))%Z /\
  (PreviousResultsSets (config t) = 0%Z -> previousResults t = []) /\
  (forall results, exists t',
     storePreviousResults t results = Some t' /\
     config t' = config t /\
     previousResults t' =
       drop (length (previousResults t ++ [results])
               - Z.to_nat (PreviousResultsSets (config t)))
            (previousResults t ++ [results]) /\
     reachable t') /\
  (forall cfg, (0 <= PreviousResultsSets cfg)%Z -> exists t',
     UpdateConfig t cfg = Some t' /\
     config t' = cfg /\
     previousResults t' =
       drop (length (previousResults t) - Z.to_nat (PreviousResultsSets cfg))
            (previousResults t) /\
     reachable t').
Proof.
  intros Hr. destruct (reachable_ring_ok t Hr) as [Hpos Hlen].
  split_and!.
  - done.
  - intros Hz. rewrite Hz in Hlen. destruct (previousResults t); [done|simpl in Hlen; lia].
  - intros results. eexists. split_and!.
    + unfold storePreviousResults. rewrite keepLast_nonneg by done. reflexivity.
    + done.
    + done.
    + eapply reachable_step; [exact Hr|]. eapply step_store.
      unfold storePreviousResults. rewrite keepLast_nonneg by done. reflexivity.
  - intros cfg Hcfg. eexists. split_and!.
    + unfold UpdateConfig. rewrite keepLast_nonneg by done. reflexivity.
    + done.
    + done.
    + eapply reachable_step; [exact Hr|]. eapply step_update.
      unfold UpdateConfig. rewrite keepLast_nonneg by done. reflexivity.
Qed.

(** A negative limit makes both the constructor and the update panic. *)
Lemma negative_limit_panics t cfg :
  (PreviousResultsSets cfg < 0)%Z ->
  NewTransformer cfg = None /\ UpdateConfig t cfg = None.
Proof.
  intros H. split.
  - unfold NewTransformer. by rewrite decide_False by lia.
  - unfold UpdateConfig. by rewrite keepLast_negative.
Qed.


Lemma history_ring_invariant_witness :
  reachable (mkTransformer (sampleConfig 2) [sampleBatch "a"]) /\
  (Z.of_nat (length [sampleBatch "a"]) <= 2)%Z.
Proof.
  assert (reachable (mkTransformer (sampleConfig 2) [sampleBatch "a"])) as Hr.
  { eapply reachable_step.
    - apply (reachable_new (sampleConfig 2)). reflexivity.
    - apply (step_store _ (sampleBatch "a")). reflexivity. }
  split; [exact Hr|].
  exact (proj1 (history_ring_invariant _ Hr)).
Defined.

End HistoryFacts.

Module UtilsFacts.
Import GoStrings Strconv Utils GoStringsFacts.

Lemma takeWhile_skipWhile p s : s = takeWhile p s +:+ skipWhile p s.
Proof.
  induction s as [|c s IH]; simpl; [done|].
  destruct (p c); [rewrite string_app_cons; by f_equal|done].
Qed.

Lemma allBytes_takeWhile p s : allBytes p (takeWhile p s) = true.
Proof.
  induction s as [|c s IH]; simpl; [done|].
  destruct (p c) eqn:E; simpl; [by rewrite E|done].
Qed.


Lemma skipWhile_headFails p s : headFails p (skipWhile p s).
Proof.
  induction s as [|c s IH]; simpl; [done|].
  destruct (p c) eqn:E; simpl; done.
Qed.

Lemma skipWhile_app p a b :
  allBytes p a = true -> headFails p b -> skipWhile p (a +:+ b) = b.
Proof.
  induction a as [|c a IH].
  - intros _ H. rewrite string_app_nil_l.
    destruct b as [|d b]; simpl in *; [done|by rewrite H].
  - rewrite string_app_cons. simpl. intros [-> Ha]%andb_prop Hb. auto.
Qed.

Lemma takeWhile_app p a b :
  allBytes p a = true -> headFails p b -> takeWhile p (a +:+ b) = a.
Proof.
  induction a as [|c a IH].
  - intros _ H. rewrite string_app_nil_l.
    destruct b as [|d b]; simpl in *; [done|by rewrite H].
  - rewrite string_app_cons. simpl. intros [-> Ha]%andb_prop Hb. f_equal. auto.
Qed.


(** *** Bytes *)


Lemma sign_not_space c : isSign c = true -> isReSpace c = false.
Proof. by_bytes c. Qed.

Lemma digit_not_space c : isDigit c = true -> isReSpace c = false.
Proof. by_bytes c. Qed.

Lemma space_not_digit c : isReSpace c = true -> isDigit c = false.
Proof. by_bytes c. Qed.

Lemma digit_not_sign c : isDigit c = true -> isSign c = false.
Proof. by_bytes c. Qed.

Lemma digit_upper c : isDigit c = true -> toUpperByte c = c.
Proof. by_bytes c. Qed.

Lemma sign_upper c : isSign c = true -> toUpperByte c = c.
Proof. by_bytes c. Qed.

Lemma isSign_cases c : isSign c = true <-> c = "+"%char \/ c = "-"%char.
Proof.
  unfold isSign. rewrite orb_true_iff, !byte_eqb_eq. done.
Qed.

(** *** Digits *)

Lemma digitsValue_is_Some acc ds :
  is_Some (digitsValue acc ds) <-> allBytes isDigit ds = true.
Proof.
  revert acc. induction ds as [|c ds IH]; intros acc; simpl.
  - split; eauto.
  - destruct (isDigit c); simpl; [apply IH|]. split; [by intros [? ?]|done].
Qed.

Lemma isDigits_cons_inv ds :
  isDigits ds = true ->
  exists c ds', ds = String c ds' /\ isDigit c = true /\ allBytes isDigit ds' = true.
Proof.
  unfold isDigits. destruct ds as [|c ds]; [done|]. simpl.
  intros [? ?]%andb_prop. eauto.
Qed.

Lemma isDigits_alt ds :
  isDigits ds = true <-> ds <> EmptyString /\ allBytes isDigit ds = true.
Proof.
  unfold isDigits. rewrite andb_true_iff, negb_true_iff, String.eqb_neq. done.
Qed.

Lemma ParseInt_digits ds :
  isDigits ds = true ->
  ParseInt ds =
    match digitsValue 0 ds with
    | Some n => if (n <=? maxInt64)%Z then Some n else None
    | None => None
    end.
Proof.
  intros (c & ds' & -> & Hc & Hds)%isDigits_cons_inv.
  unfold ParseInt.
  pose proof (digit_not_sign c Hc) as Hs. unfold isSign in Hs.
  apply orb_false_elim in Hs as [-> ->]. done.
Qed.


(** *** The pattern of relative expressions *)

Lemma headFails_space_digits ds rest :
  isDigits ds = true -> headFails isReSpace (ds +:+ rest).
Proof.
  intros (c & ds' & -> & Hc & _)%isDigits_cons_inv.
  rewrite string_app_cons. simpl. by apply digit_not_space.
Qed.

Lemma headFails_unit p unit :
  p "M"%char = false -> p "S"%char = false ->
  unit = "MIN" \/ unit = "SEC" -> headFails p unit.
Proof. intros ? ? [-> | ->]; done. Qed.

Lemma headFails_digit_tail ws unit :
  allBytes isReSpace ws = true -> unit = "MIN" \/ unit = "SEC" ->
  headFails isDigit (ws +:+ unit).
Proof.
  intros Hws Hu. destruct ws as [|c ws].
  - rewrite string_app_nil_l. by apply headFails_unit.
  - rewrite string_app_cons. simpl in *. apply andb_prop in Hws as [Hc _].
    by apply space_not_digit.
Qed.

Lemma matchNowPattern_complete s op ds unit :
  nowShape s op ds unit -> matchNowPattern s = Some (op, ds, unit).
Proof.
  intros (ws1 & ws2 & ws3 & -> & H1 & H2 & H3 & Hop & Hds & Hu).
  unfold matchNowPattern.
  rewrite HasPrefix_app.
  change 3 with (String.length "NOW"). rewrite dropBytes_app.
  rewrite skipWhile_app; [|done|simpl; by apply sign_not_space].
  unfold isSign in Hop. rewrite Hop.
  rewrite (skipWhile_app isReSpace ws2) by (try done; by apply headFails_space_digits).
  apply isDigits_alt in Hds as [Hne Hall].
  rewrite (takeWhile_app isDigit ds) by (try done; by apply headFails_digit_tail).
  rewrite (skipWhile_app isDigit ds) by (try done; by apply headFails_digit_tail).
  rewrite (skipWhile_app isReSpace ws3) by (try done; by apply headFails_unit).
  apply String.eqb_neq in Hne. rewrite Hne.
  destruct Hu as [-> | ->]; done.
Qed.

Lemma matchNowPattern_sound s op ds unit :
  matchNowPattern s = Some (op, ds, unit) -> nowShape s op ds unit.
Proof.
  unfold matchNowPattern.
  destruct (HasPrefix s "NOW") eqn:Hp; [|done].
  apply HasPrefix_inv in Hp. simpl String.length in Hp.
  destruct (skipWhile isReSpace (dropBytes 3 s)) as [|op' rest] eqn:Hsk; [done|].
  destruct (byte_eqb op' "+" || byte_eqb op' "-") eqn:Hop; [|done].
  destruct (String.eqb (takeWhile isDigit (skipWhile isReSpace rest)) EmptyString) eqn:Hd; [done|].
  destruct (String.eqb _ "MIN" || String.eqb _ "SEC") eqn:Hu; [|done].
  intros [= <- <- <-].
  exists (takeWhile isReSpace (dropBytes 3 s)), (takeWhile isReSpace rest),
         (takeWhile isReSpace (skipWhile isDigit (skipWhile isReSpace rest))).
  split_and!.
  - rewrite Hp at 1. f_equal.
    rewrite (takeWhile_skipWhile isReSpace (dropBytes 3 s)) at 1. rewrite Hsk. f_equal. f_equal.
    rewrite (takeWhile_skipWhile isReSpace rest) at 1. f_equal.
    rewrite (takeWhile_skipWhile isDigit (skipWhile isReSpace rest)) at 1. f_equal.
    apply takeWhile_skipWhile.
  - apply allBytes_takeWhile.
  - apply allBytes_takeWhile.
  - apply allBytes_takeWhile.
  - done.
  - apply isDigits_alt. split; [by apply String.eqb_neq|apply allBytes_takeWhile].
  - apply orb_prop in Hu as [Hu|Hu]; apply String.eqb_eq in Hu; auto.
Qed.


(** *** Absolute timestamps *)

Lemma ParseInt_plus ds :
  ParseInt (String "+" ds) =
    match parseDigits ds with
    | Some n => if (n <=? maxInt64)%Z then Some n else None
    | None => None
    end.
Proof. reflexivity. Qed.

Lemma ParseInt_minus ds :
  ParseInt (String "-" ds) =
    match parseDigits ds with
    | Some n => if (n <=? 2 ^ 63)%Z then Some (- n)%Z else None
    | None => None
    end.
Proof. reflexivity. Qed.

Lemma ParseInt_is_Some e : is_Some (ParseInt e) <-> absoluteTimeSpec e.
Proof.
  split.
  - intros [t Ht]. unfold ParseInt in Ht. destruct e as [|c rest]; [done|].
    destruct (byte_eqb c "+") eqn:Hplus.
    { apply byte_eqb_eq in Hplus as ->.
      destruct (parseDigits rest) as [n|] eqn:Hn; [|done].
      destruct (n <=? maxInt64)%Z eqn:Hr; [|done].
      exists "+", rest, n. unfold parseDigits in Hn.
      destruct rest as [|d rest]; [done|].
      split_and!; [done|auto| |done|by apply Z.leb_le].
      apply isDigits_alt. split; [done|]. apply (digitsValue_is_Some 0). eauto. }
    destruct (byte_eqb c "-") eqn:Hminus.
    { apply byte_eqb_eq in Hminus as ->.
      destruct (parseDigits rest) as [n|] eqn:Hn; [|done].
      destruct (n <=? 2 ^ 63)%Z eqn:Hr; [|done].
      exists "-", rest, n. unfold parseDigits in Hn.
      destruct rest as [|d rest]; [done|].
      split_and!; [done|auto| |done|by apply Z.leb_le].
      apply isDigits_alt. split; [done|]. apply (digitsValue_is_Some 0). eauto. }
    destruct (parseDigits (String c rest)) as [n|] eqn:Hn; [|done].
    destruct (n <=? maxInt64)%Z eqn:Hr; [|done].
    exists EmptyString, (String c rest), n. unfold parseDigits in Hn.
    split_and!; [done|auto| |done|by apply Z.leb_le].
    apply isDigits_alt. split; [done|]. apply (digitsValue_is_Some 0). eauto.
  - intros (sign & ds & n & -> & Hsign & Hds & Hn & Hr).
    destruct Hsign as [-> | [-> | ->]].
    + rewrite string_app_nil_l, ParseInt_digits, Hn by done.
      simpl in Hr. apply Z.leb_le in Hr. rewrite Hr. eauto.
    + apply isDigits_cons_inv in Hds as (c & ds' & -> & Hc & Hds).
      simpl in Hr. apply Z.leb_le in Hr.
      change ("+" +:+ String c ds') with (String "+"%char (String c ds')).
      rewrite ParseInt_plus. unfold parseDigits. rewrite Hn, Hr. eauto.
    + apply isDigits_cons_inv in Hds as (c & ds' & -> & Hc & Hds).
      simpl in Hr. apply Z.leb_le in Hr.
      change ("-" +:+ String c ds') with (String "-"%char (String c ds')).
      rewrite ParseInt_minus. unfold parseDigits. rewrite Hn, Hr. eauto.
Qed.

Lemma ToUpper_head c s :
  byte_eqb c (ascii_of_nat 196) = false ->
  byte_eqb c (ascii_of_nat 197) = false ->
  exists t, ToUpper (String c s) = String (toUpperByte c) t.
Proof.
  intros H1 H2. destruct s as [|d s]; [by eexists|].
  cbn [ToUpper]. rewrite H1, H2. cbn [andb]. by eexists.
Qed.

Lemma digit_not_lead c :
  isDigit c = true ->
  byte_eqb c (ascii_of_nat 196) = false /\ byte_eqb c (ascii_of_nat 197) = false /\
  byte_eqb (toUpperByte c) "N" = false.
Proof. by_bytes c. Qed.

Lemma absolute_not_now e :
  absoluteTimeSpec e -> HasPrefix (ToUpper e) "NOW" = false.
Proof.
  intros (sign & ds & n & -> & Hsign & Hds & _).
  apply isDigits_cons_inv in Hds as (c & ds' & -> & Hc & _).
  destruct Hsign as [-> | [-> | ->]].
  - rewrite string_app_nil_l.
    destruct (digit_not_lead c Hc) as (H1 & H2 & H3).
    destruct (ToUpper_head c ds' H1 H2) as [t ->].
    rewrite HasPrefix_cons, H3. done.
  - destruct (ToUpper_head "+" (String c ds') eq_refl eq_refl) as [t Ht].
    change ("+" +:+ String c ds') with (String "+"%char (String c ds')).
    rewrite Ht. done.
  - destruct (ToUpper_head "-" (String c ds') eq_refl eq_refl) as [t Ht].
    change ("-" +:+ String c ds') with (String "-"%char (String c ds')).
    rewrite Ht. done.
Qed.

Lemma eqb_now_prefix s : String.eqb s "NOW" = true -> HasPrefix s "NOW" = true.
Proof. by intros ->%String.eqb_eq. Qed.

Lemma nowShape_not_now s op ds unit : nowShape s op ds unit -> s <> "NOW".
Proof.
  intros (ws1 & ws2 & ws3 & -> & _) H.
  change "NOW" with ("NOW" +:+ EmptyString) in H at 2.
  apply (inj (String.app "NOW")) in H.
  destruct ws1; discriminate.
Qed.

Lemma Atoi_digits ds n :
  isDigits ds = true -> digitsValue 0 ds = Some n ->
  Atoi ds = if (n <=? maxInt64)%Z then Some n else None.
Proof. intros Hds Hn. unfold Atoi. by rewrite ParseInt_digits, Hn. Qed.

Lemma unitDuration_unit unit :
  unit = "MIN" \/ unit = "SEC" -> is_Some (unitDuration unit).
Proof. intros [-> | ->]; vm_compute; eauto. Qed.

(** [parseTimeExpression] succeeds exactly on the usable expressions,
    whatever the clock reads. *)
Lemma parseTimeExpression_ok_iff now spec :
  is_err (parseTimeExpression now spec) = false <-> usableTimeSpec spec.
Proof.
  unfold parseTimeExpression, usableTimeSpec. cbv zeta.
  set (e := TrimSpace spec).
  destruct (String.eqb (ToUpper e) "NOW") eqn:Hnow.
  { apply String.eqb_eq in Hnow. split; [by left|done]. }
  apply String.eqb_neq in Hnow.
  destruct (matchNowPattern (ToUpper e)) as [[[op ds] unit]|] eqn:Hm.
  - apply matchNowPattern_sound in Hm.
    pose proof Hm as (ws1 & ws2 & ws3 & HE & _ & _ & _ & Hop & Hds & Hu).
    destruct (proj2 (digitsValue_is_Some 0 ds)) as [n Hn].
    { by apply isDigits_alt in Hds as [_ ?]. }
    rewrite (Atoi_digits ds n) by done.
    destruct (n <=? maxInt64)%Z eqn:Hr.
    + destruct (unitDuration_unit unit Hu) as [u ->].
      split; [intros _|by destruct (byte_eqb op "+")].
      right. left. exists op, ds, unit, n. split_and!; [done..|by apply Z.leb_le].
    + split; [done|]. intros [?|[Hrel|Habs]]; [done| |].
      * exfalso. destruct Hrel as (op' & ds' & unit' & n' & Hm' & Hn' & Hr').
        apply matchNowPattern_complete in Hm, Hm'. rewrite Hm in Hm'.
        simplify_eq. apply Z.leb_gt in Hr. lia.
      * exfalso. apply absolute_not_now in Habs. rewrite HE in Habs.
        by rewrite HasPrefix_app in Habs.
  - destruct (ParseInt e) as [t|] eqn:Hp.
    + split; [intros _|done]. right. right. apply ParseInt_is_Some. eauto.
    + split; [done|]. intros [?|[Hrel|Habs]]; [done| |].
      * destruct Hrel as (op' & ds' & unit' & n' & Hm' & _).
        apply matchNowPattern_complete in Hm'. congruence.
      * apply ParseInt_is_Some in Habs as [? ?]. congruence.
Qed.

Lemma empty_spec_unusable : ~ usableTimeSpec EmptyString.
Proof.
  rewrite <- (parseTimeExpression_ok_iff 0). by vm_compute.
Qed.


(** *** SubstituteQuery *)

Lemma substituteTime_err now text macro spec label :
  is_err (substituteTime now text macro spec label) = true <->
  Contains text macro = true /\ (spec = EmptyString \/ ~ usableTimeSpec spec).
Proof.
  unfold substituteTime. destruct (Contains text macro); [|by split; [|intros [? _]]].
  destruct (String.eqb spec EmptyString) eqn:He.
  - apply String.eqb_eq in He. simpl. split; auto.
  - apply String.eqb_neq in He.
    pose proof (parseTimeExpression_ok_iff now spec) as Hok.
    destruct (parseTimeExpression now spec) as [v|msg]; simpl in *.
    + split; [done|]. intros [_ [?|Hn]]; [done|]. exfalso. apply Hn. by apply Hok.
    + split; [intros _|done]. split; [done|]. right. intros Hu. by apply Hok in Hu.
Qed.

Lemma substituteTime_ok now text macro spec label out :
  substituteTime now text macro spec label = Ok out ->
  out = timeFilled now text macro spec.
Proof.
  unfold substituteTime, timeFilled. destruct (Contains text macro); [|congruence].
  destruct (String.eqb spec EmptyString); [done|].
  destruct (parseTimeExpression now spec); congruence.
Qed.

(** C6, as the code has it.  The cluster macro is replaced first; each time
    macro is then looked for in the text so far.  The call fails exactly
    when such a macro is present and its spec is empty or not usable;
    otherwise the result is the text with the three substitutions made. *)
Theorem substitute_query_error_iff (m : MacroSubstituter) (nowStart nowEnd : Z)
    (query clusterName : string) :
  let text := ReplaceAll query macroCluster clusterName in
  let text' := timeFilled nowStart text macroStartTime (startTime m) in
  (is_err (SubstituteQuery m nowStart nowEnd query clusterName) = true <->
     (Contains text macroStartTime = true /\
      (startTime m = EmptyString \/ ~ usableTimeSpec (startTime m))) \/
     (Contains text' macroEndTime = true /\
      (endTime m = EmptyString \/ ~ usableTimeSpec (endTime m)))) /\
  (forall out, SubstituteQuery m nowStart nowEnd query clusterName = Ok out ->
     out = timeFilled nowEnd text' macroEndTime (endTime m)).
Proof.
  cbv zeta. unfold SubstituteQuery.
  set (text := ReplaceAll query macroCluster clusterName).
  pose proof (substituteTime_err nowStart text macroStartTime (startTime m) "start_time") as Hs.
  destruct (substituteTime nowStart text macroStartTime (startTime m) "start_time")
    as [text1|msg] eqn:E1.
  - apply substituteTime_ok in E1 as ->. simpl in Hs. split.
    + rewrite substituteTime_err. split; [auto|].
      intros [H|H]; [|done]. apply Hs in H. done.
    + intros out Hout. by apply substituteTime_ok in Hout.
  - simpl in Hs. split; [|done]. simpl. split; [intros _|done]. left. by apply Hs.
Qed.

(** The values: [NOW] is the clock reading in milliseconds. *)
Lemma parseTimeExpression_now now spec :
  ToUpper (TrimSpace spec) = "NOW" ->
  parseTimeExpression now spec = Ok (UnixMilli now).
Proof. intros H. unfold parseTimeExpression. by rewrite H. Qed.


(** C6, as stated, fails.  The start spec [NOW-99999999999999999999MIN] is
    in the stated grammar and the template holds the start macro, so the
    stated condition for an error is false; the code returns an error,
    since the digits do not fit an int. *)
Lemma overflowing_relative_start_rejected :
  ~ (is_err (SubstituteQuery Scenarios.overflowingStart 0 0 macroStartTime "prod") = true
     <-> claimedErrorCondition Scenarios.overflowingStart macroStartTime).
Proof.
  intros [H _]. specialize (H eq_refl).
  destruct H as [[_ [H|H]]|[H _]]; vm_compute in H; discriminate.
Qed.

(** The scenario of the guide: one minute back from the clock, the clock
    itself, and the cluster name. *)
Example macro_expansion_scenario :
  SubstituteQuery (NewMacroSubstituter "NOW-1MIN" "NOW")
    1700000000123000000 1700000000123000000
    "{range:{gte:__STARTTIME__,lte:__ENDTIME__},cluster:__CLUSTER__}" "prod"
  = Ok "{range:{gte:1699999940123,lte:1700000000123},cluster:prod}".
Proof. vm_compute. reflexivity. Qed.

(** The cluster macro is replaced first: here it takes the head of the
    start macro with it, and no start time is asked for. *)
Example cluster_macro_goes_first :
  Contains "__CLUSTER__STARTTIME__" macroStartTime = true /\
  SubstituteQuery (NewMacroSubstituter EmptyString "NOW") 0 0
    "__CLUSTER__STARTTIME__" "prod" = Ok "prodSTARTTIME__".
Proof. split; vm_compute; reflexivity. Qed.

(** Blanks between the parts of a relative expression are accepted. *)
Example blanks_inside_accepted :
  claimedTimeSpec " now - 5 min " = false /\
  parseTimeExpression 600000000000 " now - 5 min " = Ok 300000%Z.
Proof. split; vm_compute; reflexivity. Qed.

(** A bare integer is passed through up to the largest int64 and rejected
    beyond it, although the stated grammar has it. *)
Example absolute_beyond_int64_rejected :
  claimedTimeSpec "9223372036854775808" = true /\
  parseTimeExpression 0 "9223372036854775807" = Ok 9223372036854775807%Z /\
  parseTimeExpression 0 "9223372036854775808"
  = Err "invalid time expression: 9223372036854775808".
Proof. repeat split; vm_compute; reflexivity. Qed.

(** Trimming and upper-casing are those of Go on runes: U+2000 and U+00A0
    around the text are trimmed, and U+0131 is read as the I of MIN. *)
Example runes_trimmed_and_folded :
  parseTimeExpression 600000000000
    (bytes [226; 128; 128] +:+ "NOW" +:+ bytes [194; 160]) = Ok 600000%Z /\
  parseTimeExpression 600000000000
    ("now-5m" +:+ bytes [196; 177] +:+ "n") = Ok 300000%Z.
Proof. split; vm_compute; reflexivity. Qed.
End UtilsFacts.

Module ExtractFacts.
Import GoStrings Strconv Extract.

(** *** Flattening *)

Lemma mergeInto_union (result flattened : gmap string value) :
  mergeInto result flattened = flattened ∪ result.
Proof.
  unfold mergeInto.
  apply (map_fold_weak_ind (fun r m => r = m ∪ result)).
  - by rewrite (left_id_L ∅ (∪)).
  - intros k v m r _ ->. by rewrite insert_union_l.
Qed.


Lemma flattenJSON_object_regular entries prefix :
  foldl (fun result '(key, v) =>
           mergeInto result (flattenJSON v (objectKey prefix key))) ∅ entries
  = flattenEntries entries prefix.
Proof.
  unfold flattenEntries. generalize (∅ : gmap string value).
  induction entries as [|[k v] entries IH]; intros acc; simpl; [done|].
  by rewrite mergeInto_union, IH.
Qed.

Lemma flattenJSON_collapse key v prefix :
  ToLower key = "value" ->
  flattenJSON (VObject [(key, v)]) prefix = {[ leafKey prefix := v ]}.
Proof.
  intros H. simpl. rewrite H. done.
Qed.

Lemma flattenJSON_single_other key v prefix :
  ToLower key <> "value" ->
  flattenJSON (VObject [(key, v)]) prefix = flattenEntries [(key, v)] prefix.
Proof.
  intros H. cbn [flattenJSON]. apply String.eqb_neq in H. rewrite H.
  apply (flattenJSON_object_regular [(key, v)]).
Qed.

Lemma flattenJSON_siblings entries prefix :
  length entries <> 1 ->
  flattenJSON (VObject entries) prefix = flattenEntries entries prefix.
Proof.
  intros H. rewrite <- flattenJSON_object_regular.
  destruct entries as [|[k v] [|e2 rest]]; simpl in *; [done|lia|done].
Qed.


(** *** Key filters *)

Section FilterFacts.
Variable Regexp : Type.
Variable regexp_Compile : string -> option Regexp.
Variable MatchString : Regexp -> string -> bool.

#[local] Abbreviation matchesFilter := (matchesFilter Regexp regexp_Compile MatchString).
#[local] Abbreviation applyExclude := (applyExclude Regexp regexp_Compile MatchString).
#[local] Abbreviation applyInclude := (applyInclude Regexp regexp_Compile MatchString).
#[local] Abbreviation applyFilters := (applyFilters Regexp regexp_Compile MatchString).

Lemma applyExclude_go_lookup pattern (l : list string) (acc : gmap string value) k :
  foldl (fun acc key =>
           if matchesFilter key pattern then delete key acc else acc) acc l !! k
  = if decide (k ∈ l /\ matchesFilter k pattern = true) then None else acc !! k.
Proof.
  revert acc. induction l as [|x l IH]; intros acc.
  - cbn [foldl]. case_decide as H; [|done]. destruct H as [H _]. by apply elem_of_nil in H.
  - cbn [foldl]. rewrite IH.
    destruct (decide (k = x)) as [->|Hne].
    + destruct (matchesFilter x pattern) eqn:E.
      * rewrite lookup_delete_eq.
        repeat case_decide; try done; exfalso; set_solver.
      * repeat case_decide; naive_solver.
    + assert ((if matchesFilter x pattern then delete x acc else acc) !! k = acc !! k) as ->.
      { destruct (matchesFilter x pattern); [by rewrite lookup_delete_ne|done]. }
      repeat case_decide; try done; exfalso; set_solver.
Qed.

Lemma applyExclude_lookup pattern (result : gmap string value) k :
  applyExclude pattern result !! k =
  if matchesFilter k pattern then None else result !! k.
Proof.
  unfold Extract.applyExclude. rewrite applyExclude_go_lookup.
  destruct (matchesFilter k pattern) eqn:E.
  - case_decide as H; [done|]. destruct (result !! k) eqn:Ek; [|done].
    exfalso. apply H. split; [|done]. apply elem_of_elements, elem_of_dom. eauto.
  - case_decide as H; [|done]. by destruct H.
Qed.

Lemma applyInclude_go_lookup pattern (l : list (string * value)) (acc : gmap string value) k :
  NoDup l.*1 ->
  foldl (fun acc '(key, v) =>
           if matchesFilter key pattern then <[ key := v ]> acc else acc) acc l !! k
  = if matchesFilter k pattern
    then match (list_to_map l : gmap string value) !! k with
         | Some v => Some v
         | None => acc !! k
         end
    else acc !! k.
Proof.
  revert acc. induction l as [|[x v] l IH]; intros acc Hnd; simpl.
  - rewrite lookup_empty. by destruct (matchesFilter k pattern).
  - apply NoDup_cons in Hnd as [Hx Hnd]. rewrite IH by done.
    destruct (decide (k = x)) as [->|Hne].
    + rewrite lookup_insert_eq.
      assert ((list_to_map l : gmap string value) !! x = None) as ->
        by (by apply not_elem_of_list_to_map_1).
      destruct (matchesFilter x pattern); [by rewrite lookup_insert_eq|done].
    + rewrite lookup_insert_ne by done.
      destruct (matchesFilter k pattern); [|by destruct (matchesFilter x pattern); rewrite ?lookup_insert_ne].
      destruct (list_to_map l !! k); [done|].
      by destruct (matchesFilter x pattern); rewrite ?lookup_insert_ne.
Qed.

Lemma applyInclude_lookup pattern (data result : gmap string value) k :
  applyInclude pattern data result !! k =
  if matchesFilter k pattern
  then match data !! k with Some v => Some v | None => result !! k end
  else result !! k.
Proof.
  unfold Extract.applyInclude.
  rewrite applyInclude_go_lookup by apply NoDup_fst_map_to_list.
  by rewrite list_to_map_to_list.
Qed.


(** C4. An include followed by an exclude of the same pattern leaves
    nothing.  An exclude followed by an include leaves the entries of the
    data whose key the pattern matches: when the pattern compiles, those
    whose key the compiled expression matches; when it does not compile,
    the entry whose key is the pattern itself, if there is one. *)
Theorem filter_order_law (r : string) (data : gmap string value) :
  applyFilters [includeFilter r; excludeFilter r] data = ∅ /\
  (forall regex, regexp_Compile r = Some regex ->
     applyFilters [excludeFilter r; includeFilter r] data =
       filter (fun kv => MatchString regex kv.1 = true) data /\
     forall key, matchesFilter key r = MatchString regex key) /\
  (regexp_Compile r = None ->
     applyFilters [excludeFilter r; includeFilter r] data =
       filter (fun kv => kv.1 = r) data /\
     forall key, matchesFilter key r = true <-> key = r).
Proof.
  assert (applyFilters [excludeFilter r; includeFilter r] data =
            filter (fun kv => matchesFilter kv.1 r = true) data) as Hkeep.
  { apply map_eq. intros k.
    unfold Extract.applyFilters. cbn. fold (applyExclude r ∅).
    fold (applyInclude r data (applyExclude r ∅)).
    rewrite applyInclude_lookup, applyExclude_lookup, lookup_empty.
    destruct (data !! k) as [v|] eqn:Ek.
    + destruct (matchesFilter k r) eqn:Em.
      * symmetry. by apply map_lookup_filter_Some.
      * symmetry. apply map_lookup_filter_None. right. intros v' _. simpl. congruence.
    + assert (filter (fun kv => matchesFilter kv.1 r = true) data !! k = None) as ->.
      { apply map_lookup_filter_None. by left. }
      by destruct (matchesFilter k r). }
  split_and!.
  - apply map_eq. intros k. rewrite lookup_empty.
    unfold Extract.applyFilters. cbn. fold (applyInclude r data ∅).
    fold (applyExclude r (applyInclude r data ∅)).
    rewrite applyExclude_lookup, applyInclude_lookup, lookup_empty.
    destruct (matchesFilter k r); done.
  - intros regex Hc.
    assert (forall key, matchesFilter key r = MatchString regex key) as Hm.
    { intros key. unfold Extract.matchesFilter. by rewrite Hc. }
    split; [|done]. rewrite Hkeep. apply map_filter_ext. intros k v _. cbn.
    by rewrite Hm.
  - intros Hc.
    assert (forall key, matchesFilter key r = true <-> key = r) as Hm.
    { intros key. unfold Extract.matchesFilter. rewrite Hc.
      rewrite String.eqb_eq. split; congruence. }
    split; [|done]. rewrite Hkeep. apply map_filter_ext. intros k v _. cbn.
    apply Hm.
Qed.


(** *** extractDataFromResponse *)

Variable json_Unmarshal : string -> Utils.result value.
Variable gjson_Get : string -> string -> option string.

#[local] Abbreviation extractDataFromResponse :=
  (extractDataFromResponse Regexp regexp_Compile MatchString json_Unmarshal gjson_Get).

(** C10. With an empty JSON path the whole body is parsed and flattened,
    and the flat map is returned as it is: whatever the filters of the
    configuration are, the outcome is the same.  The filters are applied
    on one branch only, the one where a non-empty path selected an existing
    subtree that parses.  An error of the parser is passed on with its
    text. *)
Theorem empty_path_skips_filters (cfg : ExtractConfig) (responseBody : string) :
  (JSONPath cfg = EmptyString ->
   (forall data, json_Unmarshal responseBody = Utils.Ok data ->
      extractDataFromResponse cfg responseBody
        = Utils.Ok (flattenJSON data EmptyString)) /\
   (forall err, json_Unmarshal responseBody = Utils.Err err ->
      extractDataFromResponse cfg responseBody
        = Utils.Err ("failed to unmarshal response: " +:+ err)) /\
   (forall filters,
      extractDataFromResponse (withFilters cfg filters) responseBody
        = extractDataFromResponse cfg responseBody)) /\
  (JSONPath cfg <> EmptyString ->
   (gjson_Get responseBody (JSONPath cfg) = None ->
      extractDataFromResponse cfg responseBody = Utils.Ok ∅) /\
   (forall raw extractedData,
      gjson_Get responseBody (JSONPath cfg) = Some raw ->
      json_Unmarshal raw = Utils.Ok extractedData ->
      extractDataFromResponse cfg responseBody
        = Utils.Ok (applyFilters (Filters cfg)
                      (flattenJSON extractedData EmptyString))) /\
   (forall raw err,
      gjson_Get responseBody (JSONPath cfg) = Some raw ->
      json_Unmarshal raw = Utils.Err err ->
      extractDataFromResponse cfg responseBody
        = Utils.Err ("failed to unmarshal extracted JSON: " +:+ err))).
Proof.
  unfold Extract.extractDataFromResponse. split.
  - intros Hp. split_and!.
    + intros data Hd. by rewrite Hp, Hd.
    + intros err Hd. by rewrite Hp, Hd.
    + intros filters. cbn. by rewrite Hp.
  - intros Hne%String.eqb_neq. rewrite Hne. split_and!.
    + by intros ->.
    + intros raw extractedData -> Hd. by rewrite Hd.
    + intros raw err -> Hd. by rewrite Hd.
Qed.

End FilterFacts.

Lemma leafKey_decide prefix :
  leafKey prefix = if decide (prefix = EmptyString) then "value" else prefix.
Proof.
  unfold leafKey. destruct (String.eqb_spec prefix EmptyString); by case_decide.
Qed.


(** The first scenario of the specification, and an object that keeps its
    [value] key because it has a sibling. *)
Example value_collapse_scenario :
  flattenJSON
    (VObject [("avg_response_time", VObject [("value", Scenarios.dec 1255 10)])])
    EmptyString
  = {[ "avg_response_time" := Scenarios.dec 1255 10 ]} /\
  flattenJSON
    (VObject [("cpu", VObject [("value", Scenarios.dec 1 1); ("unit", VString "ms")])])
    EmptyString
  = {[ "cpu.value" := Scenarios.dec 1 1; "cpu.unit" := VString "ms" ]}.
Proof. split; vm_compute; reflexivity. Qed.

Lemma filter_order_law_witness :
  Extract.applyFilters string Scenarios.literalCompile Scenarios.literalMatch
    [excludeFilter "0"; includeFilter "0"] Scenarios.topLevelPair
  = filter (fun kv => Scenarios.literalMatch "0" kv.1 = true) Scenarios.topLevelPair /\
  (forall key,
     Extract.matchesFilter string Scenarios.literalCompile Scenarios.literalMatch
       key "0" = Scenarios.literalMatch "0" key).
Proof.
  exact (proj1 (proj2 (filter_order_law string Scenarios.literalCompile
                         Scenarios.literalMatch "0" Scenarios.topLevelPair))
           "0" eq_refl).
Defined.

(** On the two buckets of a top-level array the pattern [0] compiles and
    matches the key of the first bucket: the exclude followed by the
    include keeps that entry, the include followed by the exclude
    nothing.  The pattern [[] does not compile and is no key. *)
Example filter_order_scenario :
  Extract.applyFilters string Scenarios.literalCompile Scenarios.literalMatch
    [excludeFilter "0"; includeFilter "0"] Scenarios.topLevelPair
  = {[ "[0].key" := VString "a" ]} /\
  Extract.applyFilters string Scenarios.literalCompile Scenarios.literalMatch
    [includeFilter "0"; excludeFilter "0"] Scenarios.topLevelPair = ∅ /\
  Extract.applyFilters string Scenarios.literalCompile Scenarios.literalMatch
    [excludeFilter "["; includeFilter "["] Scenarios.topLevelPair = ∅.
Proof. split_and!; vm_compute; reflexivity. Qed.

Lemma empty_path_skips_filters_witness :
  Extract.extractDataFromResponse string Scenarios.literalCompile
    Scenarios.literalMatch Scenarios.toyUnmarshal Scenarios.toyGet
    (Scenarios.toyConfig EmptyString) Scenarios.pairBody
  = Utils.Ok (flattenJSON (VArray [Scenarios.dec 1 1; Scenarios.dec 2 1]) EmptyString).
Proof.
  exact (proj1 (proj1 (empty_path_skips_filters string Scenarios.literalCompile
                  Scenarios.literalMatch Scenarios.toyUnmarshal Scenarios.toyGet
                  (Scenarios.toyConfig EmptyString) Scenarios.pairBody) eq_refl)
           _ eq_refl).
Defined.

(** A body that does not parse: the error carries the text of the
    parser's error. *)
Example unmarshal_error_is_wrapped :
  Extract.extractDataFromResponse string Scenarios.literalCompile
    Scenarios.literalMatch Scenarios.toyUnmarshal Scenarios.toyGet
    (Scenarios.toyConfig EmptyString) "[1,"
  = Utils.Err "failed to unmarshal response: unexpected end of JSON input".
Proof. vm_compute. reflexivity. Qed.

(** The same body under the two kinds of path: the filter that strikes the
    keys holding a 0 is applied only under the non-empty path. *)
Example filters_only_under_a_path :
  Extract.extractDataFromResponse string Scenarios.literalCompile
    Scenarios.literalMatch Scenarios.toyUnmarshal Scenarios.toyGet
    (Scenarios.toyConfig EmptyString) Scenarios.pairBody
  = Utils.Ok {[ "[0]" := Scenarios.dec 1 1; "[1]" := Scenarios.dec 2 1 ]} /\
  Extract.extractDataFromResponse string Scenarios.literalCompile
    Scenarios.literalMatch Scenarios.toyUnmarshal Scenarios.toyGet
    (Scenarios.toyConfig "@this") Scenarios.pairBody
  = Utils.Ok {[ "[1]" := Scenarios.dec 2 1 ]}.
Proof. split; vm_compute; reflexivity. Qed.

(** *** Extract *)

Lemma omap_sent_perm {A} (f : nat -> option A) l1 l2 :
  l1 ≡ₚ l2 -> omap f l1 ≡ₚ omap f l2.
Proof. intros H. by rewrite H. Qed.

Lemma omap_nil_iff {A B} (f : A -> option B) l :
  omap f l = [] <-> forall x, x ∈ l -> f x = None.
Proof.
  induction l as [|a l IH]; simpl.
  - split; [|done]. intros _ x Hx. by apply elem_of_nil in Hx.
  - destruct (f a) eqn:E.
    + split; [done|]. intros H. specialize (H a (list_elem_of_here _ _)). congruence.
    + rewrite IH. split.
      * intros H x [->|Hx]%elem_of_cons; auto.
      * intros H x Hx. apply H. by right.
Qed.

(** C7. [Extract] fails exactly when some issued call failed and no issued
    call produced a result; otherwise it returns the produced results, and
    only them. *)
Theorem extract_fails_iff_all_failed (cfg : ExtractConfig) (call : nat -> outcome)
    (completion : list nat) :
  completion ≡ₚ seq 0 (minLen cfg) ->
  (Utils.is_err (Extract.Extract cfg call completion) = true <->
     (exists i err, i < minLen cfg /\ call i = Failed err) /\
     (forall i r, i < minLen cfg -> call i <> Produced r)) /\
  ((forall i, i < minLen cfg -> call i <> Nothing) ->
   (Utils.is_err (Extract.Extract cfg call completion) = true <->
      0 < minLen cfg /\ forall i, i < minLen cfg -> exists err, call i = Failed err)) /\
  (forall results, Extract.Extract cfg call completion = Utils.Ok results ->
     results ≡ₚ omap (sentResult call) (seq 0 (minLen cfg)) /\
     forall r, r ∈ results <-> exists i, i < minLen cfg /\ call i = Produced r).
Proof.
  intros Hperm.
  assert (forall i, i ∈ completion <-> i < minLen cfg) as Hin.
  { intros i. rewrite Hperm, elem_of_seq. lia. }
  assert (Utils.is_err (Extract.Extract cfg call completion) = true <->
     (exists i err, i < minLen cfg /\ call i = Failed err) /\
     (forall i r, i < minLen cfg -> call i <> Produced r)) as Hmain.
  { unfold Extract.Extract. case_decide as Hd; simpl.
    - split; [intros _|done]. destruct Hd as [Hres Herr]. split.
      + destruct (omap (sentError cfg call) completion) as [|e errs] eqn:E; [simpl in Herr; lia|].
        assert (e ∈ omap (sentError cfg call) completion) as He by (rewrite E; left).
        apply list_elem_of_omap in He as (i & Hi & Hs). exists i.
        unfold sentError in Hs. destruct (call i) as [err| |] eqn:Ec; [|done..].
        exists err. split; [by apply Hin|done].
      + intros i r Hi Hc. apply length_zero_iff_nil in Hres.
        pose proof (proj1 (omap_nil_iff _ _) Hres i (proj2 (Hin i) Hi)) as Hn.
        unfold sentResult in Hn. by rewrite Hc in Hn.
    - split; [done|]. intros [(i & err & Hi & Hc) Hnone]. exfalso. apply Hd. split.
      + apply length_zero_iff_nil, omap_nil_iff. intros j Hj%Hin.
        unfold sentResult. destruct (call j) eqn:Ej; [done| |done].
        exfalso. by eapply Hnone.
      + assert (is_Some (sentError cfg call i)) as [e He].
        { unfold sentError. rewrite Hc. eauto. }
        assert (e ∈ omap (sentError cfg call) completion) as Hmem.
        { apply list_elem_of_omap. exists i. split; [by apply Hin|done]. }
        destruct (omap (sentError cfg call) completion); [by apply elem_of_nil in Hmem|simpl; lia]. }
  split_and!; [exact Hmain| |].
  - intros Hsome. rewrite Hmain. split.
    + intros [(i & err & Hi & Hc) Hnone]. split; [lia|]. intros j Hj.
      destruct (call j) as [e|r|] eqn:Ej; [eauto| |].
      * exfalso. by eapply Hnone.
      * exfalso. by eapply Hsome.
    + intros [Hpos Hall]. split.
      * destruct (Hall 0 Hpos) as [err He]. eauto.
      * intros i r Hi Hc. destruct (Hall i Hi) as [err He]. congruence.
  - intros results. unfold Extract.Extract. case_decide; [done|]. intros [= <-].
    split; [by apply omap_sent_perm|]. intros r. rewrite list_elem_of_omap. split.
    + intros (i & Hi%Hin & Hs). exists i. split; [done|].
      unfold sentResult in Hs. destruct (call i); congruence.
    + intros (i & Hi & Hc). exists i. split; [by apply Hin|].
      unfold sentResult. by rewrite Hc.
Qed.



Lemma extract_fails_iff_all_failed_witness :
  Utils.is_err (Extract.Extract Scenarios.twoEndpoints Scenarios.oneFails [1; 0]) = true <->
  (exists i err, i < minLen Scenarios.twoEndpoints /\ Scenarios.oneFails i = Failed err) /\
  (forall i r, i < minLen Scenarios.twoEndpoints -> Scenarios.oneFails i <> Produced r).
Proof.
  exact (proj1 (extract_fails_iff_all_failed Scenarios.twoEndpoints
                  Scenarios.oneFails [1; 0] (perm_swap 0 1 []))).
Defined.

(** One endpoint fails and the other answers: the run succeeds with the
    one result. *)
Example partial_failure_scenario :
  Extract.Extract Scenarios.twoEndpoints Scenarios.oneFails [1; 0]
  = Utils.Ok [mkResult "http://b" ∅].
Proof. vm_compute. reflexivity. Qed.
End ExtractFacts.

Module LoadFacts.
Import GoStrings Strconv Load.

Section GEMFacts.
Variable ParseFloat : string -> option float64.
Variable rangeGroups :
  gmap string (list rowSample) -> list (string * list rowSample).

#[local] Abbreviation sampleOfRow := (sampleOfRow ParseFloat).
#[local] Abbreviation groupRows := (groupRows ParseFloat).
#[local] Abbreviation rowKept := (rowKept ParseFloat).
#[local] Abbreviation groupSamplesOf := (groupSamplesOf ParseFloat).
#[local] Abbreviation groupKeysOf := (groupKeysOf ParseFloat).
#[local] Abbreviation seriesOfKey := (seriesOfKey ParseFloat).

Lemma cellAt_cell row idx : (0 <= idx)%Z -> cellAt row idx = cell row idx.
Proof. intros H. unfold cellAt, cell. by rewrite decide_True. Qed.

Lemma cell_None row idx : (len row <= idx)%Z -> cell row idx = None.
Proof.
  intros H. unfold cell, len in *. apply lookup_ge_None. lia.
Qed.

Lemma cell_Some row idx :
  (0 <= idx < len row)%Z -> is_Some (cell row idx).
Proof.
  intros H. unfold cell, len in *. apply lookup_lt_is_Some. lia.
Qed.

Lemma uniqueKeyOf_join metric row :
  Forall (fun idx => (0 <= idx)%Z) (UniqueFieldsIndex metric) ->
  uniqueKeyOf metric row =
  Some (Join (omap (cell row) (UniqueFieldsIndex metric)) "|").
Proof.
  intros Hall. unfold uniqueKeyOf.
  assert (forall l acc,
    Forall (fun idx => (0 <= idx)%Z) l ->
    foldl (fun acc idx =>
             keyParts ← acc;
             if decide (idx < len row)%Z
             then cell ← cellAt row idx; Some (keyParts ++ [cell])
             else Some keyParts) (Some acc) l
    = Some (acc ++ omap (cell row) l)) as H.
  { induction l as [|c l IH]; intros acc Hl; cbn [foldl omap list_omap].
    - by rewrite app_nil_r.
    - apply Forall_cons in Hl as [Hc Hl]. cbn. case_decide as Hlt.
      + rewrite cellAt_cell by done.
        destruct (cell_Some row c) as [x Hx]; [lia|]. rewrite Hx. cbn.
        rewrite IH by done. by rewrite <- app_assoc.
      + rewrite cell_None by lia. by apply IH. }
  rewrite (H _ [] Hall). done.
Qed.

Lemma sampleOfRow_rowKept metric row :
  columnsUsable metric ->
  sampleOfRow metric row = Some (rowKept metric row).
Proof.
  intros (Hv & Ht & Hu & _).
  unfold Load.sampleOfRow, Load.rowKept, parseFloat, parseInt64.
  destruct (decide (len row <= Z.max (Value metric) (Timestamp metric))%Z) as [H|H].
  - rewrite decide_True by lia. done.
  - rewrite decide_False by lia. rewrite uniqueKeyOf_join by done. cbn.
    rewrite !cellAt_cell by done.
    destruct (cell_Some row (Value metric)) as [x Hx]; [lia|].
    destruct (cell_Some row (Timestamp metric)) as [y Hy]; [lia|].
    rewrite Hx, Hy. cbn.
    destruct (ParseFloat x); cbn; [|done]. by destruct (ParseInt y).
Qed.

Lemma groupRows_lookup metric csvData :
  columnsUsable metric ->
  exists uniqueGroups,
    groupRows csvData metric = Some uniqueGroups /\
    forall key,
      uniqueGroups !! key =
      match groupSamplesOf metric csvData key with
      | [] => None
      | samples => Some samples
      end.
Proof.
  intros Hok. unfold Load.groupRows, Load.groupSamplesOf.
  induction csvData as [|row csvData IH] using rev_ind.
  { exists ∅. split; [done|]. intros key. by rewrite lookup_empty. }
  destruct IH as (groups & Hg & Hlook).
  rewrite foldl_app. cbn [foldl]. rewrite Hg. cbn.
  rewrite sampleOfRow_rowKept by done. cbn.
  destruct (rowKept metric row) as [[k sample]|] eqn:E.
  - eexists. split; [done|]. intros key. rewrite omap_app. cbn. rewrite E.
    case_decide as Hk.
    + subst k. rewrite lookup_insert_eq, lookup_total_alt, Hlook.
      destruct (omap _ csvData); done.
    + rewrite lookup_insert_ne by done. by rewrite Hlook, app_nil_r.
  - exists groups. split; [done|]. intros key. rewrite omap_app. cbn. rewrite E.
    by rewrite Hlook, app_nil_r.
Qed.

Lemma elem_of_groupKeysOf metric csvData key :
  key ∈ groupKeysOf metric csvData <-> groupSamplesOf metric csvData key <> [].
Proof.
  unfold Load.groupKeysOf, Load.groupSamplesOf.
  rewrite elem_of_list_to_set, list_elem_of_omap. split.
  - intros (row & Hrow & Hk) Hnil.
    destruct (rowKept metric row) as [[k sample]|] eqn:E; [|done]. simpl in Hk. simplify_eq.
    assert (sample ∈ omap (fun row =>
          match rowKept metric row with
          | Some (k, sample) => if decide (k = key) then Some sample else None
          | None => None
          end) csvData) as Hin.
    { apply list_elem_of_omap. exists row. split; [done|]. rewrite E. by rewrite decide_True. }
    rewrite Hnil in Hin. by apply elem_of_nil in Hin.
  - intros Hne. destruct (omap _ csvData) as [|s l] eqn:E; [done|].
    assert (s ∈ s :: l) as Hin by left. rewrite <- E in Hin.
    apply list_elem_of_omap in Hin as (row & Hrow & Hs). exists row. split; [done|].
    destruct (rowKept metric row) as [[k sample]|]; [|done]. simpl.
    case_decide; [by subst|done].
Qed.

Lemma map_to_list_groups metric csvData (uniqueGroups : gmap string (list rowSample)) :
  (forall key,
      uniqueGroups !! key =
      match groupSamplesOf metric csvData key with
      | [] => None
      | samples => Some samples
      end) ->
  map_to_list uniqueGroups ≡ₚ
  (fun key => (key, groupSamplesOf metric csvData key))
    <$> elements (groupKeysOf metric csvData).
Proof.
  intros Hlook. apply NoDup_Permutation.
  - apply NoDup_map_to_list.
  - apply NoDup_fmap_2; [|apply NoDup_elements]. by intros k1 k2 [= ->].
  - intros [k samples]. rewrite elem_of_map_to_list, Hlook, list_elem_of_fmap.
    split.
    + intros H. exists k. destruct (groupSamplesOf metric csvData k) eqn:E; [done|].
      simplify_eq. split; [done|].
      apply elem_of_elements, elem_of_groupKeysOf. by rewrite E.
    + intros (k' & [= -> ->] & Hk%elem_of_elements%elem_of_groupKeysOf).
      by destruct (groupSamplesOf metric csvData k').
Qed.

Lemma addConfiguredLabels_union (streamLabels labels : gmap string string) :
  addConfiguredLabels streamLabels labels = streamLabels ∪ labels.
Proof.
  unfold addConfiguredLabels.
  apply (map_fold_weak_ind (fun r m => r = m ∪ labels)).
  - by rewrite (left_id_L ∅ (∪)).
  - intros k v m r _ ->. by rewrite insert_union_l.
Qed.

Lemma dynamicLabels_rules streamLabels metric row :
  columnsUsable metric ->
  addConfiguredLabels streamLabels <$> dynamicLabels metric row
  = Some (labelsOf streamLabels metric row).
Proof.
  intros (_ & _ & _ & Hl). unfold labelsOf, dynamicLabels.
  generalize ({[ "__name__" := Name metric ]} : gmap string string).
  induction Hl as [|label l Hlabel _ IH]; intros acc; cbn [foldl].
  - cbn. by rewrite addConfiguredLabels_union.
  - cbn. unfold labelRule.
    destruct (String.eqb (StaticValue label) EmptyString) eqn:Es; cbn.
    + apply String.eqb_eq in Es. destruct Hlabel as [?|Hidx]; [done|].
      case_decide as Hlt.
      * rewrite cellAt_cell by done.
        destruct (cell_Some row (IndexInCSVData label)) as [x Hx]; [lia|].
        rewrite Hx. cbn. apply IH.
      * rewrite cell_None by lia. apply IH.
    + apply IH.
Qed.

Lemma seriesOfGroup_key streamLabels metric csvData key :
  columnsUsable metric ->
  groupSamplesOf metric csvData key <> [] ->
  seriesOfGroup streamLabels metric (groupSamplesOf metric csvData key)
  = Some (Some (seriesOfKey streamLabels metric csvData key)).
Proof.
  intros Hok Hne. unfold seriesOfGroup, Load.seriesOfKey.
  destruct (groupSamplesOf metric csvData key) as [|s l]; [done|].
  cbn [head fmap option_fmap option_map default].
  pose proof (dynamicLabels_rules streamLabels metric (sampleRow s) Hok) as Hd.
  destruct (dynamicLabels metric (sampleRow s)) as [labels|]; [|done].
  cbn in Hd. injection Hd as Hd. cbn. by rewrite Hd.
Qed.

Lemma series_loop streamLabels metric csvData
    (l : list (string * list rowSample)) done_ :
  columnsUsable metric ->
  Forall (fun kv => kv.2 = groupSamplesOf metric csvData kv.1 /\ kv.2 <> []) l ->
  foldl (fun acc '(_, groupSamples) =>
           samples ← acc;
           step ← seriesOfGroup streamLabels metric groupSamples;
           match step with
           | None => Some samples
           | Some timeSeries => Some (samples ++ [timeSeries])
           end)
        (Some done_) l
  = Some (done_ ++ ((fun kv => seriesOfKey streamLabels metric csvData kv.1) <$> l)).
Proof.
  intros Hok Hall. revert done_.
  induction Hall as [|[k samples] l [Hs Hne] _ IH]; intros done_.
  - cbn. by rewrite app_nil_r.
  - cbn [fmap list_fmap foldl]. cbn in Hs, Hne. subst samples. cbn.
    rewrite seriesOfGroup_key by done. cbn.
    rewrite IH. by rewrite <- app_assoc.
Qed.

Lemma createPrometheusTimeSeriesForMetric_perm streamLabels csvData metric :
  columnsUsable metric ->
  (forall m, rangeGroups m ≡ₚ map_to_list m) ->
  exists samples,
    createPrometheusTimeSeriesForMetric ParseFloat rangeGroups streamLabels
      csvData metric = Some samples /\
    samples ≡ₚ seriesOfKey streamLabels metric csvData
                 <$> elements (groupKeysOf metric csvData).
Proof.
  intros Hok rangeGroups_perm.
  unfold createPrometheusTimeSeriesForMetric.
  destruct (groupRows_lookup metric csvData Hok) as (groups & -> & Hlook). cbn.
  assert (rangeGroups groups ≡ₚ
          (fun key => (key, groupSamplesOf metric csvData key))
            <$> elements (groupKeysOf metric csvData)) as Hperm.
  { rewrite rangeGroups_perm. by apply map_to_list_groups. }
  rewrite (series_loop streamLabels metric csvData (rangeGroups groups) []); [|done|].
  - eexists. split; [done|]. cbn. rewrite Hperm. rewrite <- list_fmap_compose.
    done.
  - apply Forall_forall. intros [k samples] Hin. rewrite Hperm in Hin.
    apply list_elem_of_fmap in Hin as (k' & [= -> ->] & Hk%elem_of_elements).
    cbn. split; [done|]. by apply elem_of_groupKeysOf.
Qed.

Lemma labelsOf_name streamLabels metric row :
  (forall label, label ∈ Labels metric -> LabelName label <> "__name__") ->
  streamLabels !! "__name__" = None ->
  labelsOf streamLabels metric row !! "__name__" = Some (Name metric).
Proof.
  intros Hl Hs. unfold labelsOf. rewrite lookup_union_r by done.
  assert (forall (acc : gmap string string) l,
            (forall label, label ∈ l -> LabelName label <> "__name__") ->
            foldl (fun labels label =>
                     match labelRule row label with
                     | Some v => <[ LabelName label := v ]> labels
                     | None => labels
                     end) acc l !! "__name__" = acc !! "__name__") as H.
  { intros acc l. revert acc. induction l as [|label l IH]; intros acc Hne; simpl; [done|].
    rewrite IH by (intros ? ?; apply Hne; by right).
    destruct (labelRule row label); [|done].
    rewrite lookup_insert_ne; [done|]. apply Hne. left. }
  rewrite H by done. apply lookup_singleton_eq.
Qed.

Lemma negative_value_panics metric row :
  (Value metric < 0)%Z -> (Timestamp metric < len row)%Z ->
  sampleOfRow metric row = None.
Proof.
  intros Hv Ht. unfold Load.sampleOfRow.
  case_decide as Hd; [exfalso; unfold len in *; lia|].
  destruct (uniqueKeyOf metric row); [|done]. cbn.
  unfold cellAt. destruct (decide (0 <= Value metric)%Z); [lia|done].
Qed.

(** C8. For a metric none of whose columns is negative, no step panics.
    Rows no longer than the larger of the two column indices are skipped;
    a longer row whose two cells parse joins the group named by the
    bar-join of its cells at the unique columns; the output holds exactly
    one series per non-empty group, with the samples of the group in the
    order of the rows and the labels of the label rules, among them
    [__name__] with the metric's name.  (On a negative value column every
    row longer than the timestamp column makes the code panic.) *)
Theorem gem_time_series_grouping (streamLabels : gmap string string)
    (csvData : list (list string)) (metric : PrometheusMetricConfig) :
  columnsUsable metric ->
  (forall m, rangeGroups m ≡ₚ map_to_list m) ->
  (forall row,
     (len row <= Z.max (Value metric) (Timestamp metric))%Z ->
     sampleOfRow metric row = Some None) /\
  (forall row value timestamp,
     (Z.max (Value metric) (Timestamp metric) < len row)%Z ->
     ParseFloat (default EmptyString (cell row (Value metric))) = Some value ->
     ParseInt (default EmptyString (cell row (Timestamp metric))) = Some timestamp ->
     sampleOfRow metric row =
       Some (Some (Join (omap (cell row) (UniqueFieldsIndex metric)) "|",
                   mkRowSample value timestamp row))) /\
  (exists uniqueGroups,
     groupRows csvData metric = Some uniqueGroups /\
     forall key,
       uniqueGroups !! key =
         match groupSamplesOf metric csvData key with
         | [] => None
         | samples => Some samples
         end) /\
  (exists samples,
     createPrometheusTimeSeriesForMetric ParseFloat rangeGroups streamLabels
       csvData metric = Some samples /\
     samples ≡ₚ seriesOfKey streamLabels metric csvData
                  <$> elements (groupKeysOf metric csvData)) /\
  (forall key,
     key ∈ groupKeysOf metric csvData <-> groupSamplesOf metric csvData key <> []) /\
  (forall row,
     (forall label, label ∈ Labels metric -> LabelName label <> "__name__") ->
     streamLabels !! "__name__" = None ->
     labelsOf streamLabels metric row !! "__name__" = Some (Name metric)).
Proof.
  intros Hok Hperm. split_and!.
  - intros row Hshort. rewrite sampleOfRow_rowKept by done. unfold Load.rowKept.
    by rewrite decide_True.
  - intros row value timestamp Hlong Hv Ht.
    rewrite sampleOfRow_rowKept by done. unfold Load.rowKept.
    rewrite decide_False by lia. rewrite Hv. simpl. rewrite Ht. done.
  - by apply groupRows_lookup.
  - by apply createPrometheusTimeSeriesForMetric_perm.
  - apply elem_of_groupKeysOf.
  - apply labelsOf_name.
Qed.

End GEMFacts.

Lemma albMetric_usable : columnsUsable Scenarios.albMetric.
Proof.
  unfold columnsUsable. cbn. split_and!; [lia|lia| |].
  - constructor; [lia|constructor].
  - constructor; [right; cbn; lia|]. constructor; [by left|constructor].
Qed.

(** The load-balancer rows of the guide: two groups, [alb1] with two
    samples in row order and [alb2] with one. *)
Lemma gem_time_series_grouping_witness :
  exists samples,
    createPrometheusTimeSeriesForMetric Scenarios.parseDecimal map_to_list ∅
      Scenarios.albRows Scenarios.albMetric = Some samples /\
    samples
    ≡ₚ Load.seriesOfKey Scenarios.parseDecimal ∅ Scenarios.albMetric Scenarios.albRows
         <$> elements (Load.groupKeysOf Scenarios.parseDecimal Scenarios.albMetric
                         Scenarios.albRows).
Proof.
  exact (proj1 (proj2 (proj2 (proj2
    (gem_time_series_grouping Scenarios.parseDecimal map_to_list ∅
       Scenarios.albRows Scenarios.albMetric albMetric_usable
       (fun m => reflexivity _)))))).
Defined.

Example alb_scenario_series :
  createPrometheusTimeSeriesForMetric Scenarios.parseDecimal map_to_list ∅
    Scenarios.albRows Scenarios.albMetric
  = Some
    [ mkTimeSeries
        {[ "__name__" := "cpuusage"; "LB_Name" := "alb1"; "job" := "etl" ]}
        [ (Scenarios.f64 234 10, 712223444%Z);
          (Scenarios.f64 254 10, 713223444%Z) ];
      mkTimeSeries
        {[ "__name__" := "cpuusage"; "LB_Name" := "alb2"; "job" := "etl" ]}
        [ (Scenarios.f64 214 10, 716223444%Z) ] ].
Proof. vm_compute. reflexivity. Qed.

(** A negative value column: the first row makes the code panic on
    [row[metric.Value]]; no series is produced. *)
Example negative_column_panics :
  createPrometheusTimeSeriesForMetric Scenarios.parseDecimal map_to_list ∅
    Scenarios.albRows Scenarios.negativeValueMetric = None.
Proof. vm_compute. reflexivity. Qed.

End LoadFacts.

(* ===================================================================== *)
(** * Facts: time expressions and macros *)
(* ===================================================================== *)

Module TimeCheckFacts.
Import GoStrings Strconv Utils TimeCheck GoStringsFacts UtilsFacts.

(** [ValidateTimeExpression] accepts the empty expression, every
    expression that [parseTimeExpression] evaluates, and besides them the
    relative expressions whose amount is beyond the int range, which
    [parseTimeExpression] rejects. *)
Theorem ValidateTimeExpression_iff (now : Z) (expr : string) :
  ValidateTimeExpression expr = None <->
  expr = EmptyString \/
  is_err (parseTimeExpression now expr) = false \/
  overflowingRelativeSpec (TrimSpace expr).
Proof.
  unfold ValidateTimeExpression.
  destruct (String.eqb expr EmptyString) eqn:He.
  { apply String.eqb_eq in He. split; auto. }
  apply String.eqb_neq in He. cbv zeta.
  rewrite parseTimeExpression_ok_iff. unfold usableTimeSpec. cbv zeta.
  set (e := TrimSpace expr).
  destruct (String.eqb (ToUpper e) "NOW") eqn:Hnow.
  { apply String.eqb_eq in Hnow. split; auto. }
  apply String.eqb_neq in Hnow.
  destruct (matchNowPattern (ToUpper e)) as [[[op ds] unit]|] eqn:Hm.
  - rewrite bool_decide_eq_true_2 by eauto. split; [intros _|done].
    right. apply matchNowPattern_sound in Hm.
    pose proof Hm as (ws1 & ws2 & ws3 & HE & _ & _ & _ & Hop & Hds & Hu).
    destruct (proj2 (digitsValue_is_Some 0 ds)) as [n Hn].
    { by apply isDigits_alt in Hds as [_ ?]. }
    destruct (decide (n <= maxInt64)%Z).
    + left. right. left. by exists op, ds, unit, n.
    + right. exists op, ds, unit, n. split_and!; [done..|lia].
  - rewrite bool_decide_eq_false_2 by (by intros [? ?]).
    destruct (ParseInt e) as [t|] eqn:Hp.
    + split; [intros _|done]. right. left. right. right.
      apply ParseInt_is_Some. eauto.
    + split; [done|]. intros [?|[[?|[Hrel|Habs]]|Hov]]; [done..| | |].
      * destruct Hrel as (op' & ds' & unit' & n' & Hm' & _).
        apply matchNowPattern_complete in Hm'. congruence.
      * apply ParseInt_is_Some in Habs as [? ?]. congruence.
      * destruct Hov as (op' & ds' & unit' & n' & Hm' & _).
        apply matchNowPattern_complete in Hm'. congruence.
Qed.


(** *** What [strings.ReplaceAll] leaves of a text *)

Lemma disjointBytes_cons_l a p new :
  disjointBytes (String a p) new ->
  (a ∉ list_ascii_of_string new) /\ disjointBytes p new.
Proof.
  intros H. split.
  - intros Hin. apply (H a); [simpl; left|done].
  - intros c Hc Hn. apply (H c); [simpl; by right|done].
Qed.

Lemma HasPrefix_ReplaceAll_inv old new p s :
  old <> EmptyString -> new <> EmptyString -> disjointBytes p new ->
  HasPrefix (ReplaceAll s old new) p = true -> HasPrefix s p = true.
Proof.
  intros Hold Hnew. revert s. induction p as [|a p IH]; intros s Hd; [by destruct s|].
  apply disjointBytes_cons_l in Hd as [Ha Hd].
  destruct s as [|c s]; [done|].
  destruct (HasPrefix (String c s) old) eqn:Hp.
  - rewrite ReplaceAll_head by done.
    destruct new as [|n new]; [done|]. rewrite string_app_cons, HasPrefix_cons.
    intros [Hn _]%andb_prop. apply byte_eqb_eq in Hn as ->.
    exfalso. apply Ha. simpl. left.
  - rewrite ReplaceAll_step by done. rewrite !HasPrefix_cons.
    intros [-> H]%andb_prop. simpl. by apply IH.
Qed.

Lemma Index_None_cons c s p :
  Index (String c s) p = None <->
  HasPrefix (String c s) p = false /\ Index s p = None.
Proof.
  rewrite Index_unfold. destruct (HasPrefix (String c s) p); [by split; [|intros [? _]]|].
  destruct (Index s p); simpl; by split; [|intros [_ ?]].
Qed.

Lemma Index_None_dropBytes k s p :
  p <> EmptyString -> Index s p = None -> Index (dropBytes k s) p = None.
Proof.
  intros Hp. revert s. induction k as [|k IH]; intros s; [by destruct s|].
  destruct s as [|c s]; [done|]. intros [_ H]%Index_None_cons. simpl. by apply IH.
Qed.

Lemma Index_None_app_disjoint new t p :
  p <> EmptyString -> disjointBytes p new ->
  Index t p = None -> Index (new +:+ t) p = None.
Proof.
  intros Hp Hd Ht. induction new as [|n new IH]; [done|].
  rewrite string_app_cons. apply Index_None_cons. split.
  - destruct p as [|a p]; [done|]. rewrite HasPrefix_cons.
    apply andb_false_intro1. apply not_true_is_false. intros Hn%byte_eqb_eq.
    subst a. apply (Hd n); simpl; left.
  - apply IH. intros c Hc Hn. apply (Hd c); [done|]. simpl. by right.
Qed.

Lemma dropBytes_length_le k s : String.length (dropBytes k s) <= String.length s.
Proof.
  revert s. induction k as [|k IH]; intros s; [by destruct s|].
  destruct s as [|c s]; [done|]. simpl. specialize (IH s). lia.
Qed.

(** A text [p] that shares no byte with the replacement occurs in the
    result only where it occurred before at a place that was not
    replaced. *)
Lemma ReplaceAll_leaves_none old new p s :
  old <> EmptyString -> new <> EmptyString ->
  p <> EmptyString -> disjointBytes p new ->
  p = old \/ Index s p = None ->
  Index (ReplaceAll s old new) p = None.
Proof.
  intros Hold Hnew Hp Hd.
  remember (String.length s) as n eqn:Hn.
  assert (String.length s <= n) as Hle by lia. clear Hn.
  revert s Hle. induction n as [|n IH]; intros s Hle Hs.
  { destruct s; [|simpl in Hle; lia]. by destruct p. }
  destruct s as [|c s]; [by destruct p|].
  destruct (HasPrefix (String c s) old) eqn:Hh.
  - rewrite ReplaceAll_head by done.
    apply Index_None_app_disjoint; [done..|].
    apply IH.
    + destruct old as [|o old]; [done|]. simpl in *.
      pose proof (dropBytes_length_le (String.length old) s). lia.
    + destruct Hs as [->|Hs]; [by left|right].
      by apply Index_None_dropBytes.
  - rewrite ReplaceAll_step by done. apply Index_None_cons. split.
    + apply not_true_is_false. intros Hpre.
      assert (HasPrefix (String c s) p = true) as Hsp.
      { destruct p as [|a p]; [done|]. rewrite HasPrefix_cons in Hpre |- *.
        apply andb_prop in Hpre as [-> Hpre]. simpl.
        apply disjointBytes_cons_l in Hd as [_ Hd].
        by apply (HasPrefix_ReplaceAll_inv old new). }
      destruct Hs as [->|Hs]; [congruence|].
      apply Index_None_cons in Hs as [Hs _]. congruence.
    + apply IH; [simpl in Hle; lia|].
      destruct Hs as [->|Hs]; [by left|right].
      by apply Index_None_cons in Hs as [_ ?].
Qed.

(** *** Decimal numerals *)

Lemma pretty_N_go_numeral x s :
  allBytes isNumeralByte s = true -> allBytes isNumeralByte (pretty_N_go x s) = true.
Proof.
  revert s. induction (N.lt_wf_0 x) as [x _ IH]; intros s Hs.
  assert (x = 0 \/ 0 < x)%N as [->|Hx] by lia; [by rewrite pretty_N_go_0|].
  rewrite pretty_N_go_step by done. apply IH; [by apply N.div_lt|].
  simpl. rewrite Hs, andb_true_r.
  unfold pretty_N_char. by repeat case_match.
Qed.

Lemma pretty_N_go_nonempty x s : s <> EmptyString -> pretty_N_go x s <> EmptyString.
Proof.
  revert s. induction (N.lt_wf_0 x) as [x _ IH]; intros s Hs.
  assert (x = 0 \/ 0 < x)%N as [->|Hx] by lia; [by rewrite pretty_N_go_0|].
  rewrite pretty_N_go_step by done. apply IH; [by apply N.div_lt|done].
Qed.

Lemma pretty_N_numeral (x : N) :
  allBytes isNumeralByte (pretty x) = true /\ pretty x <> EmptyString.
Proof.
  unfold pretty, pretty_N. case_decide as Hx; [done|]. split.
  - by apply pretty_N_go_numeral.
  - assert (0 < x)%N as H0 by lia. rewrite pretty_N_go_step by done.
    by apply pretty_N_go_nonempty.
Qed.

Lemma pretty_Z_numeral (z : Z) :
  allBytes isNumeralByte (pretty z) = true /\ pretty z <> EmptyString.
Proof.
  destruct z as [|x|x]; [done| |].
  - apply (pretty_N_numeral (N.pos x)).
  - unfold pretty, pretty_Z. split; [|done].
    rewrite string_app_cons, string_app_nil_l. simpl.
    apply (pretty_N_numeral (N.pos x)).
Qed.

Lemma allBytes_elem_of P s c :
  allBytes P s = true -> c ∈ list_ascii_of_string s -> P c = true.
Proof.
  induction s as [|d s IH]; simpl; [by intros _ ?%elem_of_nil|].
  intros [Hd Hs]%andb_prop [->|Hin]%elem_of_cons; auto.
Qed.

Lemma macro_disjoint_numeral macro (z : Z) :
  allBytes (fun c => negb (isNumeralByte c)) macro = true ->
  disjointBytes macro (pretty z).
Proof.
  intros Hm c Hc Hz.
  apply (allBytes_elem_of _ _ _ Hm) in Hc.
  apply (allBytes_elem_of _ _ _ (proj1 (pretty_Z_numeral z))) in Hz.
  by rewrite Hz in Hc.
Qed.

Lemma substituteTime_leaves_none now text macro spec label out p :
  macro <> EmptyString -> p <> EmptyString ->
  allBytes (fun c => negb (isNumeralByte c)) p = true ->
  substituteTime now text macro spec label = Ok out ->
  p = macro \/ Index text p = None ->
  Index out p = None.
Proof.
  intros Hm Hp Hd. unfold substituteTime.
  destruct (Contains text macro) eqn:Hc.
  - destruct (String.eqb spec EmptyString); [done|].
    destruct (parseTimeExpression now spec) as [v|]; [|done].
    intros [= <-] Hs. apply ReplaceAll_leaves_none; try done.
    + apply pretty_Z_numeral.
    + by apply macro_disjoint_numeral.
  - intros [= <-] [->|Hs]; [|done]. by apply Contains_false.
Qed.

(** On success neither time macro is left in the query. *)
Theorem time_macros_all_expanded (m : MacroSubstituter) (nowStart nowEnd : Z)
    (query clusterName out : string) :
  SubstituteQuery m nowStart nowEnd query clusterName = Ok out ->
  Contains out macroStartTime = false /\ Contains out macroEndTime = false.
Proof.
  unfold SubstituteQuery.
  destruct (substituteTime nowStart _ macroStartTime (startTime m) "start_time")
    as [text1|] eqn:E1; [|done].
  intros E2. rewrite !Contains_false.
  assert (Index text1 macroStartTime = None) as H1.
  { eapply substituteTime_leaves_none; [..|exact E1|by left]; done. }
  split.
  - eapply substituteTime_leaves_none; [..|exact E2|by right]; done.
  - eapply substituteTime_leaves_none; [..|exact E2|by left]; done.
Qed.

(** A query without any of the three macros is returned as it is, and the
    two time expressions are not looked at. *)
Theorem query_without_macros_unchanged (m : MacroSubstituter) (nowStart nowEnd : Z)
    (query clusterName : string) :
  Contains query macroCluster = false ->
  Contains query macroStartTime = false ->
  Contains query macroEndTime = false ->
  SubstituteQuery m nowStart nowEnd query clusterName = Ok query.
Proof.
  intros Hc Hs He. unfold SubstituteQuery.
  rewrite ReplaceAll_absent by (by apply Contains_false).
  unfold substituteTime. by rewrite Hs, He.
Qed.

Lemma time_macros_all_expanded_witness :
  Contains "{gte:1699999940123,lte:1700000000123,c:prod}" macroStartTime = false /\
  Contains "{gte:1699999940123,lte:1700000000123,c:prod}" macroEndTime = false.
Proof.
  apply (time_macros_all_expanded (NewMacroSubstituter "NOW-1MIN" "NOW")
           1700000000123000000 1700000000123000000
           "{gte:__STARTTIME__,lte:__ENDTIME__,c:__CLUSTER__}" "prod").
  vm_compute. reflexivity.
Defined.

Lemma query_without_macros_unchanged_witness :
  SubstituteQuery (NewMacroSubstituter "yesterday" EmptyString) 0 0
    "{match_all:{}}" "prod" = Ok "{match_all:{}}".
Proof.
  apply query_without_macros_unchanged; vm_compute; reflexivity.
Defined.

End TimeCheckFacts.

(* ===================================================================== *)
(** * Facts: path helpers *)
(* ===================================================================== *)

Module PathUtilsFacts.
Import GoStrings PathUtils GoStringsFacts.

Lemma Index_Some_split s sep i :
  Index s sep = Some i ->
  s = takeBytes i s +:+ sep +:+ dropBytes (i + String.length sep) s.
Proof.
  revert i. induction s as [|c s IH]; intros i; rewrite Index_unfold.
  - destruct (HasPrefix EmptyString sep) eqn:Hp; [|done]. intros [= <-].
    by destruct sep.
  - destruct (HasPrefix (String c s) sep) eqn:Hp.
    + intros [= <-]. cbn [takeBytes Nat.add]. rewrite string_app_nil_l.
      by apply HasPrefix_inv.
    + destruct (Index s sep) as [j|] eqn:Hj; [|done]. intros [= <-].
      cbn [takeBytes Nat.add dropBytes]. rewrite string_app_cons. f_equal. by apply IH.
Qed.

Lemma string_length_app (a b : string) :
  String.length (a +:+ b) = String.length a + String.length b.
Proof. induction a as [|c a IH]; [done|]. rewrite string_app_cons. simpl. lia. Qed.

Lemma dropBytes_length k s :
  String.length (dropBytes k s) = String.length s - k.
Proof.
  revert s. induction k as [|k IH]; intros s; [by destruct s|].
  destruct s as [|c s]; [done|]. simpl. apply IH.
Qed.

Lemma Index_Some_pos s sep i :
  sep <> EmptyString -> Index s sep = Some i -> 0 < String.length s.
Proof.
  intros Hsep H. destruct s as [|c s]; [|simpl; lia].
  rewrite Index_unfold in H. by destruct sep.
Qed.

Lemma Split_go_fuel sep f1 f2 s :
  sep <> EmptyString ->
  String.length s <= f1 -> String.length s <= f2 ->
  Split_go f1 s sep = Split_go f2 s sep.
Proof.
  intros Hsep. revert f2 s. induction f1 as [|f1 IH]; intros f2 s H1 H2.
  - destruct s; [|simpl in H1; lia]. destruct f2; [done|]. simpl.
    by destruct sep.
  - simpl. destruct (Index s sep) as [i|] eqn:Hi.
    + pose proof (Index_Some_pos _ _ _ Hsep Hi) as Hpos.
      destruct f2 as [|f2]; [lia|]. simpl. rewrite Hi. f_equal.
      assert (0 < String.length sep) by (destruct sep; [done|simpl; lia]).
      apply IH; rewrite dropBytes_length; lia.
    + destruct f2; [done|]. simpl. by rewrite Hi.
Qed.

Lemma Split_unfold s sep :
  sep <> EmptyString ->
  Split s sep =
    match Index s sep with
    | Some i => takeBytes i s :: Split (dropBytes (i + String.length sep) s) sep
    | None => [s]
    end.
Proof.
  intros Hsep. unfold Split.
  destruct (Index s sep) as [i|] eqn:Hi.
  - pose proof (Index_Some_pos _ _ _ Hsep Hi) as Hpos.
    destruct (String.length s) as [|n] eqn:Hn; [lia|]. simpl. rewrite Hi. f_equal.
    assert (0 < String.length sep) by (destruct sep; [done|simpl; lia]).
    apply Split_go_fuel; [done| |done]. rewrite dropBytes_length. lia.
  - destruct (String.length s); simpl; by rewrite ?Hi.
Qed.

Lemma Split_nonempty s sep : sep <> EmptyString -> Split s sep <> [].
Proof. intros Hsep. rewrite Split_unfold by done. by destruct (Index s sep). Qed.

Lemma last_cons_nonempty {A} (x : A) l : l <> [] -> last (x :: l) = last l.
Proof. by destruct l. Qed.

Lemma Index_app_sep l sep r : is_Some (Index (l +:+ sep +:+ r) sep).
Proof.
  induction l as [|c l IH].
  - rewrite string_app_nil_l, Index_unfold, HasPrefix_app. eauto.
  - rewrite string_app_cons, Index_unfold.
    destruct (HasPrefix _ sep); [eauto|]. destruct IH as [i ->]. simpl. eauto.
Qed.

(** With the one-byte separator, a leading byte does not change the last
    part of a text that holds a separator. *)
Lemma last_Split_cons x rest :
  is_Some (Index rest ".") ->
  last (Split (String x rest) ".") = last (Split rest ".").
Proof.
  intros [i Hi].
  rewrite (Split_unfold (String x rest)) by done. rewrite Index_unfold.
  destruct (HasPrefix (String x rest) ".") eqn:Hp.
  - cbn [takeBytes Nat.add String.length dropBytes].
    by rewrite last_cons_nonempty by (by apply Split_nonempty).
  - rewrite Hi. cbn [fmap option_fmap option_map].
    rewrite last_cons_nonempty by (by apply Split_nonempty).
    rewrite (Split_unfold rest) by done. rewrite Hi.
    rewrite last_cons_nonempty by (by apply Split_nonempty). done.
Qed.

Lemma last_Split_after_dot lead r :
  Index r "." = None -> last (Split (lead +:+ "." +:+ r) ".") = Some r.
Proof.
  intros Hr. induction lead as [|c lead IH].
  - rewrite string_app_nil_l. change ("." +:+ r) with (String "."%char r).
    rewrite Split_unfold by done.
    rewrite Index_unfold, HasPrefix_cons, HasPrefix_nil.
    cbn [byte_eqb Ascii.eqb Bool.eqb andb takeBytes Nat.add String.length dropBytes].
    rewrite last_cons_nonempty by (by apply Split_nonempty).
    rewrite Split_unfold by done. by rewrite Hr.
  - rewrite string_app_cons, last_Split_cons; [done|]. apply Index_app_sep.
Qed.


Lemma Index_app_None_char a b (c : ascii) :
  Index a (String c EmptyString) = None -> Index b (String c EmptyString) = None ->
  Index (a +:+ b) (String c EmptyString) = None.
Proof.
  intros Ha Hb. induction a as [|x a IH]; [done|].
  rewrite string_app_cons. rewrite Index_unfold in Ha |- *.
  rewrite HasPrefix_cons, HasPrefix_nil, andb_true_r in Ha |- *.
  destruct (byte_eqb x c); [done|].
  destruct (Index a (String c EmptyString)); [done|]. by rewrite IH.
Qed.

Lemma Index_app_first_char a b (c : ascii) :
  Index a (String c EmptyString) = None ->
  Index (a +:+ String c b) (String c EmptyString) = Some (String.length a).
Proof.
  intros Ha. induction a as [|x a IH].
  - rewrite string_app_nil_l, Index_unfold, HasPrefix_cons, HasPrefix_nil.
    unfold byte_eqb. by rewrite Ascii.eqb_refl.
  - rewrite string_app_cons. rewrite Index_unfold in Ha |- *.
    rewrite HasPrefix_cons, HasPrefix_nil, andb_true_r in Ha |- *.
    destruct (byte_eqb x c); [done|].
    destruct (Index a (String c EmptyString)); [done|]. by rewrite IH.
Qed.

Lemma takeBytes_app a b : takeBytes (String.length a) (a +:+ b) = a.
Proof. induction a as [|x a IH]; [by destruct b|]. rewrite string_app_cons. simpl. by f_equal. Qed.

(** The name that [GetLastPathSegment] gives: the field after the last
    dot, without a trailing index. *)
Theorem last_path_segment_is_last_field (lead seg tail : string) :
  (lead = EmptyString \/ exists l, lead = l +:+ ".") ->
  Index seg "." = None -> Index seg "[" = None ->
  (tail = EmptyString \/ exists t, tail = "[" +:+ t) ->
  Index tail "." = None ->
  GetLastPathSegment (lead +:+ seg +:+ tail) = seg.
Proof.
  intros Hlead Hs1 Hs2 Htail Ht.
  assert (Index (seg +:+ tail) "." = None) as Hst by (by apply Index_app_None_char).
  assert (last (Split (lead +:+ seg +:+ tail) ".") = Some (seg +:+ tail)) as Hlast.
  { destruct Hlead as [->|[l ->]].
    - rewrite string_app_nil_l, Split_unfold by done. by rewrite Hst.
    - rewrite string_app_assoc. by apply last_Split_after_dot. }
  unfold GetLastPathSegment. cbv zeta. rewrite Hlast.
  destruct Htail as [->|[t ->]].
  - rewrite string_app_nil_r. by rewrite Hs2.
  - change ("[" +:+ t) with (String "["%char t).
    rewrite Index_app_first_char by done. apply takeBytes_app.
Qed.

Lemma last_path_segment_is_last_field_witness :
  GetLastPathSegment "aggregations.services.buckets[0]" = "buckets".
Proof.
  apply (last_path_segment_is_last_field "aggregations.services." "buckets" "[0]").
  - right. by exists "aggregations.services".
  - reflexivity.
  - reflexivity.
  - right. by exists "0]".
  - reflexivity.
Defined.

Lemma Index_char_cons x s (c : ascii) :
  Index (String x s) (String c EmptyString) =
    if byte_eqb x c then Some 0 else S <$> Index s (String c EmptyString).
Proof. by rewrite Index_unfold, HasPrefix_cons, HasPrefix_nil, andb_true_r. Qed.

Lemma Index_take_first s (c : ascii) i :
  Index s (String c EmptyString) = Some i ->
  Index (takeBytes i s) (String c EmptyString) = None.
Proof.
  revert i. induction s as [|x s IH]; intros i.
  - rewrite Index_unfold. simpl. done.
  - rewrite Index_char_cons. destruct (byte_eqb x c) eqn:Hx; [by intros [= <-]|].
    destruct (Index s (String c EmptyString)) as [j|] eqn:Hj; [|done].
    intros [= <-]. cbn [takeBytes]. rewrite Index_char_cons, Hx.
    by rewrite (IH j).
Qed.

Lemma Index_take_None s (c : ascii) k :
  Index s (String c EmptyString) = None ->
  Index (takeBytes k s) (String c EmptyString) = None.
Proof.
  revert k. induction s as [|x s IH]; intros k; [by destruct k|].
  rewrite Index_char_cons. destruct (byte_eqb x c) eqn:Hx; [done|].
  destruct (Index s (String c EmptyString)) eqn:Hj; [done|]. intros _.
  destruct k as [|k]; [done|]. cbn [takeBytes]. rewrite Index_char_cons, Hx.
  by rewrite IH.
Qed.

Lemma Split_parts_plain (c : ascii) s part :
  part ∈ Split s (String c EmptyString) ->
  Index part (String c EmptyString) = None.
Proof.
  remember (String.length s) as n eqn:Hn.
  assert (String.length s <= n) as Hle by lia. clear Hn.
  revert s Hle. induction n as [|n IH]; intros s Hle; rewrite Split_unfold by done.
  - destruct s; [|simpl in Hle; lia]. rewrite Index_unfold. simpl.
    by intros ->%list_elem_of_singleton.
  - destruct (Index s (String c EmptyString)) as [i|] eqn:Hi.
    + intros [->|Hin]%elem_of_cons; [by apply Index_take_first|].
      apply IH in Hin; [done|]. rewrite dropBytes_length.
      assert (0 < String.length s) by (eapply Index_Some_pos; [|exact Hi]; done).
      simpl. lia.
    + by intros ->%list_elem_of_singleton.
Qed.

(** The name never holds a dot or an opening bracket. *)
Theorem last_path_segment_plain (jsonPath : string) :
  Index (GetLastPathSegment jsonPath) "." = None /\
  Index (GetLastPathSegment jsonPath) "[" = None.
Proof.
  unfold GetLastPathSegment. cbv zeta.
  destruct (last (Split jsonPath ".")) as [lastPart|] eqn:Hl.
  - assert (Index lastPart "." = None) as Hdot.
    { apply (Split_parts_plain "."%char jsonPath). by apply last_Some_elem_of. }
    destruct (Index lastPart "[") as [idx|] eqn:Hb.
    + split; [by apply Index_take_None|by apply Index_take_first].
    + done.
  - apply last_None in Hl. by apply Split_nonempty in Hl.
Qed.

End PathUtilsFacts.

(* ===================================================================== *)
(** * Facts: environment references *)
(* ===================================================================== *)

Module EnvFacts.
Import GoStrings Env GoStringsFacts PathUtilsFacts.

Lemma untilBrace_split s name rest :
  untilBrace s = Some (name, rest) -> s = name +:+ "}" +:+ rest.
Proof.
  revert name. induction s as [|c s IH]; intros name; [done|]. simpl.
  destruct (byte_eqb c "}") eqn:Hc.
  - intros [= <- <-]. apply byte_eqb_eq in Hc as ->. done.
  - destruct (untilBrace s) as [[n r]|]; [|done]. simpl. intros [= <- <-].
    rewrite string_app_cons. f_equal. by apply IH.
Qed.

Lemma untilBrace_name name rest :
  Index name "}" = None -> untilBrace (name +:+ "}" +:+ rest) = Some (name, rest).
Proof.
  induction name as [|c name IH].
  - intros _. by rewrite string_app_nil_l.
  - rewrite Index_char_cons. destruct (byte_eqb c "}") eqn:Hc; [done|].
    destruct (Index name "}") eqn:Hn; [done|]. intros _.
    rewrite string_app_cons. simpl. rewrite Hc. by rewrite IH.
Qed.

Lemma matchReference_split s m rest :
  matchReference s = Some (m, rest) -> s = m +:+ rest /\ m <> EmptyString.
Proof.
  unfold matchReference. destruct (HasPrefix s "${") eqn:Hp; [|done].
  apply HasPrefix_inv in Hp. simpl String.length in Hp.
  destruct (untilBrace (dropBytes 2 s)) as [[name r]|] eqn:Hu; [|done].
  destruct (String.eqb name EmptyString); [done|]. intros [= <- <-].
  apply untilBrace_split in Hu. rewrite Hu in Hp. split; [|done].
  rewrite Hp. by norm_app.
Qed.

Section EnvironmentFacts.
Variable Getenv : string -> string.

#[local] Abbreviation expandReference := (expandReference Getenv).
#[local] Abbreviation substituteEnvVars_go := (substituteEnvVars_go Getenv).
#[local] Abbreviation substituteEnvVars := (substituteEnvVars Getenv).

Lemma substituteEnvVars_go_fuel f1 f2 s :
  String.length s <= f1 -> String.length s <= f2 ->
  substituteEnvVars_go f1 s = substituteEnvVars_go f2 s.
Proof.
  revert f2 s. induction f1 as [|f1 IH]; intros f2 s H1 H2.
  - destruct s; [|simpl in H1; lia]. by destruct f2.
  - destruct f2 as [|f2].
    { destruct s; [|simpl in H2; lia]. done. }
    simpl. destruct (matchReference s) as [[m rest]|] eqn:Hm.
    + apply matchReference_split in Hm as [-> Hne]. f_equal.
      rewrite string_length_app in H1, H2.
      assert (0 < String.length m) by (destruct m; [done|simpl; lia]).
      apply IH; lia.
    + destruct s as [|c s]; [done|]. f_equal. simpl in H1, H2. apply IH; lia.
Qed.

Lemma substituteEnvVars_unfold s :
  substituteEnvVars s =
    match matchReference s with
    | Some (m, rest) => expandReference m +:+ substituteEnvVars rest
    | None =>
        match s with
        | EmptyString => EmptyString
        | String c rest => String c (substituteEnvVars rest)
        end
    end.
Proof.
  unfold Env.substituteEnvVars.
  destruct (String.length s) as [|n] eqn:Hn.
  - destruct s; [|done]. done.
  - simpl. destruct (matchReference s) as [[m rest]|] eqn:Hm.
    + apply matchReference_split in Hm as [-> Hne]. f_equal.
      rewrite string_length_app in Hn.
      assert (0 < String.length m) by (destruct m; [done|simpl; lia]).
      apply substituteEnvVars_go_fuel; lia.
    + destruct s as [|c s]; [done|]. f_equal. simpl in Hn.
      apply substituteEnvVars_go_fuel; lia.
Qed.

(** When no variable has a value the text is returned as it is. *)
Theorem substituteEnvVars_nothing_set (input : string) :
  (forall name, Getenv name = EmptyString) ->
  substituteEnvVars input = input.
Proof.
  intros Hunset. unfold Env.substituteEnvVars.
  generalize (String.length input) as fuel. intros fuel. revert input.
  induction fuel as [|fuel IH]; intros input; [done|]. simpl.
  destruct (matchReference input) as [[m rest]|] eqn:Hm.
  - apply matchReference_split in Hm as [-> _]. rewrite IH. f_equal.
    unfold Env.expandReference. cbv zeta. by rewrite Hunset.
  - destruct input as [|c rest]; [done|]. by rewrite IH.
Qed.

Lemma TrimSuffix_brace s : TrimSuffix (s +:+ "}") "}" = s.
Proof.
  unfold TrimSuffix, HasSuffix. rewrite string_length_app. simpl String.length.
  replace (String.length s + 1 - 1) with (String.length s) by lia.
  rewrite dropBytes_app, takeBytes_app.
  replace (1 <=? String.length s + 1) with true by (symmetry; apply Nat.leb_le; lia).
  done.
Qed.

Lemma varName_of_reference name :
  TrimPrefix (TrimSuffix ("${" +:+ name +:+ "}") "}") "${" = name.
Proof.
  rewrite <- string_app_assoc, TrimSuffix_brace.
  unfold TrimPrefix. rewrite HasPrefix_app. apply dropBytes_app.
Qed.

Lemma matchReference_at name rest :
  name <> EmptyString -> Index name "}" = None ->
  matchReference ("${" +:+ name +:+ "}" +:+ rest)
  = Some ("${" +:+ name +:+ "}", rest).
Proof.
  intros Hne Hn. unfold matchReference. rewrite HasPrefix_app.
  change 2 with (String.length "${"). rewrite dropBytes_app.
  rewrite untilBrace_name by done. apply String.eqb_neq in Hne. by rewrite Hne.
Qed.

Lemma matchReference_not_dollar c s :
  byte_eqb c "$" = false -> matchReference (String c s) = None.
Proof.
  intros Hc. unfold matchReference.
  change "${" with (String "$"%char "{"). by rewrite HasPrefix_cons, Hc.
Qed.

(** One reference: the text before it, when it holds no dollar sign, is
    kept; the reference gives the value of its variable, or stays as it is
    when the variable is empty or not set; the value is not looked into
    again, and the rest of the text is treated in the same way. *)
Theorem substituteEnvVars_reference (pre name rest : string) :
  Index pre "$" = None -> name <> EmptyString -> Index name "}" = None ->
  substituteEnvVars (pre +:+ "${" +:+ name +:+ "}" +:+ rest) =
    pre +:+
    (if String.eqb (Getenv name) EmptyString
     then "${" +:+ name +:+ "}" else Getenv name)
    +:+ substituteEnvVars rest.
Proof.
  intros Hpre Hne Hn. induction pre as [|c pre IH].
  - rewrite !string_app_nil_l. rewrite substituteEnvVars_unfold.
    rewrite matchReference_at by done. f_equal.
    unfold Env.expandReference. cbv zeta. rewrite varName_of_reference.
    by destruct (String.eqb (Getenv name) EmptyString).
  - rewrite Index_char_cons in Hpre.
    destruct (byte_eqb c "$") eqn:Hc; [done|].
    destruct (Index pre "$") eqn:Hp; [done|].
    rewrite !string_app_cons. rewrite substituteEnvVars_unfold.
    rewrite matchReference_not_dollar by done. f_equal. by apply IH.
Qed.

End EnvironmentFacts.

Lemma substituteEnvVars_nothing_set_witness :
  substituteEnvVars (fun _ => EmptyString) "Bearer ${ES_TOKEN}" = "Bearer ${ES_TOKEN}".
Proof. apply substituteEnvVars_nothing_set. reflexivity. Defined.

Lemma substituteEnvVars_reference_witness :
  substituteEnvVars (fun name => if String.eqb name "ES_TOKEN" then "${HOME}" else "/root")
    "Bearer ${ES_TOKEN}" = "Bearer ${HOME}".
Proof.
  exact (substituteEnvVars_reference
           (fun name => if String.eqb name "ES_TOKEN" then "${HOME}" else "/root")
           "Bearer " "ES_TOKEN" EmptyString eq_refl ltac:(discriminate) eq_refl).
Defined.

End EnvFacts.

(* ===================================================================== *)
(** * Facts: filters and flattening *)
(* ===================================================================== *)

Module FlatKeysFacts.
Import GoStrings Extract FlatKeys GoStringsFacts ExtractFacts.

Section DecisiveFacts.
Variable Regexp : Type.
Variable regexp_Compile : string -> option Regexp.
Variable MatchString : Regexp -> string -> bool.

#[local] Abbreviation matchesFilter := (matchesFilter Regexp regexp_Compile MatchString).
#[local] Abbreviation applyExclude := (applyExclude Regexp regexp_Compile MatchString).
#[local] Abbreviation applyInclude := (applyInclude Regexp regexp_Compile MatchString).
#[local] Abbreviation applyFilters := (applyFilters Regexp regexp_Compile MatchString).
#[local] Abbreviation decisiveFilter := (decisiveFilter Regexp regexp_Compile MatchString).

Lemma copy_loop_lookup (l : list (string * value)) (acc : gmap string value) k :
  NoDup l.*1 ->
  foldl (fun acc '(key, v) => <[ key := v ]> acc) acc l !! k
  = match (list_to_map l : gmap string value) !! k with
    | Some v => Some v
    | None => acc !! k
    end.
Proof.
  revert acc. induction l as [|[x v] l IH]; intros acc Hnd; simpl.
  - by rewrite lookup_empty.
  - apply NoDup_cons in Hnd as [Hx Hnd]. rewrite IH by done.
    destruct (decide (k = x)) as [->|Hne].
    + rewrite lookup_insert_eq.
      assert ((list_to_map l : gmap string value) !! x = None) as ->
        by (by apply not_elem_of_list_to_map_1).
      by rewrite lookup_insert_eq.
    + rewrite !lookup_insert_ne by done. done.
Qed.

Lemma copy_loop (data : gmap string value) :
  foldl (fun acc '(key, v) => <[ key := v ]> acc) ∅ (map_to_list data) = data.
Proof.
  apply map_eq. intros k. rewrite copy_loop_lookup by apply NoDup_fst_map_to_list.
  rewrite list_to_map_to_list, lookup_empty. by destruct (data !! k).
Qed.

Lemma filters_loop_lookup (filters : list FilterConfig)
    (data start : gmap string value) (k : string) :
  start ⊆ data ->
  foldl (fun result filter =>
           if isExclude filter then applyExclude (Pattern filter) result
           else if isInclude filter
           then applyInclude (Pattern filter) data result
           else result)
        start filters !! k
  = match decisiveFilter filters k with
    | Some f => if isExclude f then None else data !! k
    | None => start !! k
    end.
Proof.
  intros Hsub. induction filters as [|f filters IH] using rev_ind; [done|].
  rewrite foldl_app. cbn [foldl]. unfold FlatKeys.decisiveFilter in *.
  rewrite filter_app. cbn [filter list_filter].
  assert (data !! k = None -> start !! k = None) as Hstart.
  { intros Hd. destruct (start !! k) as [v|] eqn:Hv; [|done].
    eapply lookup_weaken in Hv; [|exact Hsub]. congruence. }
  destruct (isExclude f) eqn:Hex; cbn [orb andb].
  - rewrite applyExclude_lookup.
    destruct (matchesFilter k (Pattern f)) eqn:Hm.
    + rewrite decide_True by done. rewrite last_snoc. by rewrite Hex.
    + rewrite decide_False by done. rewrite app_nil_r. apply IH.
  - destruct (isInclude f) eqn:Hin; cbn [orb andb].
    + rewrite applyInclude_lookup.
      destruct (matchesFilter k (Pattern f)) eqn:Hm.
      * rewrite decide_True by done. rewrite last_snoc, Hex.
        destruct (data !! k) as [v|] eqn:Hd; [done|]. rewrite IH.
        destruct (last _) as [g|]; [by destruct (isExclude g)|by apply Hstart].
      * rewrite decide_False by done. rewrite app_nil_r. apply IH.
    + rewrite decide_False by done. rewrite app_nil_r. apply IH.
Qed.

(** The last filter that bears on a key decides: an exclude strikes the
    key, an include gives it the value of the data.  A key no filter bears
    on is kept exactly when the list has no include filter. *)
Theorem last_matching_filter_decides (filters : list FilterConfig)
    (data : gmap string value) (k : string) :
  applyFilters filters data !! k
  = match decisiveFilter filters k with
    | Some f => if isExclude f then None else data !! k
    | None => if existsb isInclude filters then None else data !! k
    end.
Proof.
  unfold Extract.applyFilters. destruct filters as [|f filters]; [done|].
  rewrite filters_loop_lookup.
  - destruct (decisiveFilter (f :: filters) k); [done|].
    destruct (existsb isInclude (f :: filters)); [done|]. by rewrite copy_loop.
  - destruct (existsb isInclude (f :: filters)); [apply map_empty_subseteq|].
    by rewrite copy_loop.
Qed.

End DecisiveFacts.

(** *** The keys of a flattening *)

(** Induction on a JSON value, with the hypothesis on every element of an
    array and on every entry of an object. *)
Lemma value_ind_nested (P : value -> Prop) :
  P VNil -> (forall b, P (VBool b)) -> (forall f, P (VFloat64 f)) ->
  (forall z, P (VInt z)) -> (forall s, P (VString s)) ->
  (forall items, Forall P items -> P (VArray items)) ->
  (forall entries, Forall (fun kv => P kv.2) entries -> P (VObject entries)) ->
  forall v, P v.
Proof.
  intros Hnil Hbool Hfloat Hint Hstr Harr Hobj. fix IH 1.
  intros [| b | f | z | s | items | entries].
  - exact Hnil.
  - apply Hbool.
  - apply Hfloat.
  - apply Hint.
  - apply Hstr.
  - apply Harr. induction items as [|x items IHitems]; constructor;
      [apply IH|exact IHitems].
  - apply Hobj. induction entries as [|[k x] entries IHentries]; constructor;
      [apply IH|exact IHentries].
Qed.

Lemma HasPrefix_trans k a b :
  HasPrefix k (a +:+ b) = true -> HasPrefix k a = true.
Proof.
  revert k. induction a as [|c a IH]; intros k; [by rewrite HasPrefix_nil|].
  rewrite string_app_cons. destruct k as [|d k]; [done|].
  rewrite !HasPrefix_cons. intros [-> H]%andb_prop. simpl. by apply IH.
Qed.

Lemma HasPrefix_refl k : HasPrefix k k = true.
Proof. rewrite <- (string_app_nil_r k) at 1. apply HasPrefix_app. Qed.

Lemma objectKey_extends prefix key :
  prefix <> EmptyString ->
  objectKey prefix key <> EmptyString /\
  HasPrefix (objectKey prefix key) (prefix +:+ ".") = true.
Proof.
  intros Hne. unfold objectKey. apply String.eqb_neq in Hne. rewrite Hne. split.
  - destruct prefix; [done|]. by rewrite string_app_cons.
  - rewrite <- string_app_assoc. apply HasPrefix_app.
Qed.

Lemma arrayKey_extends prefix i :
  prefix <> EmptyString ->
  arrayKey prefix i <> EmptyString /\
  HasPrefix (arrayKey prefix i) (prefix +:+ "[") = true.
Proof.
  intros Hne. unfold arrayKey. apply String.eqb_neq in Hne. rewrite Hne. split.
  - destruct prefix; [done|]. by rewrite string_app_cons.
  - rewrite <- string_app_assoc. apply HasPrefix_app.
Qed.

Lemma extendsPrefix_via prefix mid key :
  HasPrefix mid (prefix +:+ ".") = true \/ HasPrefix mid (prefix +:+ "[") = true ->
  extendsPrefix mid key -> extendsPrefix prefix key.
Proof.
  intros Hmid Hk. right.
  assert (HasPrefix key mid = true) as Hkm.
  { destruct Hk as [->|[H|H]]; [apply HasPrefix_refl|by apply HasPrefix_trans in H..]. }
  apply HasPrefix_inv in Hkm. rewrite Hkm.
  destruct Hmid as [Hm|Hm]; [left|right]; apply HasPrefix_inv in Hm; rewrite Hm;
    rewrite string_app_assoc; apply HasPrefix_app.
Qed.

Lemma flattenJSON_array_loop_dom (P : string -> Prop) prefix :
  forall (items : list value) (i : nat) (result : gmap string value),
  (forall k, k ∈ dom result -> P k) ->
  Forall (fun item => forall j k, k ∈ dom (flattenJSON item (arrayKey prefix j)) -> P k) items ->
  forall k,
  k ∈ dom ((fix elems (i : nat) (items : list value) (result : gmap string value)
              : gmap string value :=
              match items with
              | [] => result
              | item :: rest =>
                  elems (S i) rest
                        (mergeInto result (flattenJSON item (arrayKey prefix i)))
              end) i items result) -> P k.
Proof.
  induction items as [|item items IH]; intros i result Hres Hall k; [by apply Hres|].
  apply Forall_cons in Hall as [Hitem Hall].
  apply IH; [|done]. intros k'. rewrite mergeInto_union, dom_union, elem_of_union.
  intros [H|H]; [by eapply Hitem|by apply Hres].
Qed.

Lemma flattenJSON_object_loop_dom (P : string -> Prop) prefix :
  forall (entries : list (string * value)) (result : gmap string value),
  (forall k, k ∈ dom result -> P k) ->
  Forall (fun kv => forall key k, k ∈ dom (flattenJSON kv.2 (objectKey prefix key)) -> P k)
         entries ->
  forall k,
  k ∈ dom (foldl (fun result '(key, v) =>
                    mergeInto result (flattenJSON v (objectKey prefix key)))
                 result entries) -> P k.
Proof.
  induction entries as [|[key v] entries IH]; intros result Hres Hall k; [by apply Hres|].
  apply Forall_cons in Hall as [Hitem Hall]. cbn [foldl].
  apply IH; [|done]. intros k'. rewrite mergeInto_union, dom_union, elem_of_union.
  intros [H|H]; [by eapply (Hitem key)|by apply Hres].
Qed.

Lemma flattenJSON_dom_extends (data : value) (prefix key : string) :
  prefix <> EmptyString ->
  key ∈ dom (flattenJSON data prefix) ->
  extendsPrefix prefix key.
Proof.
  revert prefix key.
  induction data as [| b | f | z | s | items IH | entries IH] using value_ind_nested;
    intros prefix key Hne.
  1-5: (simpl; rewrite dom_singleton, elem_of_singleton; intros ->;
        left; unfold leafKey; apply String.eqb_neq in Hne; by rewrite Hne).
  - cbn [flattenJSON]. apply (flattenJSON_array_loop_dom (extendsPrefix prefix)).
    + intros k. by rewrite dom_empty, elem_of_empty.
    + eapply Forall_impl; [exact IH|]. cbv beta. intros item Hitem j k Hk.
      destruct (arrayKey_extends prefix j Hne) as [Hne' Hext].
      eapply extendsPrefix_via; [right; exact Hext|]. by apply Hitem.
  - assert (forall k,
        k ∈ dom (foldl (fun result '(key, v) =>
                          mergeInto result (flattenJSON v (objectKey prefix key)))
                       ∅ entries) -> extendsPrefix prefix k) as Hregular.
    { apply (flattenJSON_object_loop_dom (extendsPrefix prefix)).
      - intros k. by rewrite dom_empty, elem_of_empty.
      - eapply Forall_impl; [exact IH|]. cbv beta. intros [key' v] Hitem fkey k Hk.
        destruct (objectKey_extends prefix fkey Hne) as [Hne' Hext].
        eapply extendsPrefix_via; [left; exact Hext|]. by apply Hitem. }
    cbn [flattenJSON].
    destruct entries as [|[key1 v1] [|e2 entries]]; try apply Hregular.
    destruct (String.eqb (ToLower key1) "value"); [|apply Hregular].
    rewrite dom_singleton, elem_of_singleton. intros ->.
    left. unfold leafKey. apply String.eqb_neq in Hne. by rewrite Hne.
Qed.

(** Under a non-empty prefix every flat key is the prefix itself or
    extends it by a field or by an index. *)
Theorem flattenJSON_keys_extend_prefix (data : value) (prefix key : string) :
  prefix <> EmptyString ->
  key ∈ dom (flattenJSON data prefix) ->
  extendsPrefix prefix key.
Proof. apply flattenJSON_dom_extends. Qed.

Lemma flattenJSON_keys_extend_prefix_witness :
  extendsPrefix "hosts" "hosts.buckets[0]".
Proof.
  apply (flattenJSON_keys_extend_prefix
           (VObject [("buckets", VArray [VString "host-1"])]) "hosts" "hosts.buckets[0]").
  - discriminate.
  - apply elem_of_dom. exists (VString "host-1"). vm_compute. reflexivity.
Defined.

(** *** An array of scalars *)

Lemma string_app_inj_r (a b c : string) : a +:+ c = b +:+ c -> a = b.
Proof.
  intros H.
  assert (String.length a = String.length b) as Hlen.
  { apply (f_equal String.length) in H.
    rewrite !PathUtilsFacts.string_length_app in H. lia. }
  revert b H Hlen. induction a as [|x a IH]; intros [|y b] H Hlen; try done.
  rewrite !string_app_cons in H. injection H as -> H. f_equal.
  apply IH; [done|]. simpl in Hlen. lia.
Qed.

Lemma arrayKey_inj prefix i j : arrayKey prefix i = arrayKey prefix j -> i = j.
Proof.
  unfold arrayKey. destruct (String.eqb prefix EmptyString); intros H.
  - rewrite !string_app_cons, !string_app_nil_l in H. injection H as H.
    apply string_app_inj_r in H. by apply (inj pretty) in H.
  - apply (inj (String.app prefix)) in H.
    rewrite !string_app_cons, !string_app_nil_l in H. injection H as H.
    apply string_app_inj_r in H. by apply (inj pretty) in H.
Qed.

Lemma arrayKey_nonempty prefix i : arrayKey prefix i <> EmptyString.
Proof.
  unfold arrayKey. destruct (String.eqb prefix EmptyString) eqn:He; [done|].
  apply String.eqb_neq in He. destruct prefix; [done|]. by rewrite string_app_cons.
Qed.

Lemma flattenJSON_scalar v key :
  isScalar v = true -> key <> EmptyString -> flattenJSON v key = {[ key := v ]}.
Proof.
  intros Hv Hk. apply String.eqb_neq in Hk.
  destruct v; try done; simpl; unfold leafKey; by rewrite Hk.
Qed.

Lemma scalar_array_loop_lookup prefix :
  forall (items : list value) (i : nat) (result : gmap string value) (j : nat),
  Forall (fun v => isScalar v = true) items ->
  (fix elems (i : nat) (items : list value) (result : gmap string value)
     : gmap string value :=
     match items with
     | [] => result
     | item :: rest =>
         elems (S i) rest
               (mergeInto result (flattenJSON item (arrayKey prefix i)))
     end) i items result !! arrayKey prefix j
  = match (if decide (i <= j) then items !! (j - i) else None) with
    | Some v => Some v
    | None => result !! arrayKey prefix j
    end.
Proof.
  induction items as [|item items IH]; intros i result j Hall.
  - rewrite lookup_nil. by destruct (decide (i <= j)).
  - apply Forall_cons in Hall as [Hitem Hall].
    rewrite IH by done.
    rewrite flattenJSON_scalar by (try done; apply arrayKey_nonempty).
    rewrite mergeInto_union.
    destruct (decide (j = i)) as [->|Hne].
    + rewrite decide_False by lia. rewrite decide_True by lia.
      rewrite Nat.sub_diag. cbn [lookup list_lookup].
      apply lookup_union_Some_l. apply lookup_singleton_eq.
    + assert (({[arrayKey prefix i := item]} ∪ result) !! arrayKey prefix j
              = result !! arrayKey prefix j) as ->.
      { apply lookup_union_r. apply lookup_singleton_ne. intros E%arrayKey_inj. lia. }
      destruct (decide (S i <= j)).
      * rewrite decide_True by lia. replace (j - i) with (S (j - S i)) by lia. done.
      * rewrite decide_False by lia. done.
Qed.

Lemma scalar_array_loop_size prefix :
  forall (items : list value) (i : nat) (result : gmap string value),
  Forall (fun v => isScalar v = true) items ->
  (forall j, i <= j -> result !! arrayKey prefix j = None) ->
  size ((fix elems (i : nat) (items : list value) (result : gmap string value)
           : gmap string value :=
           match items with
           | [] => result
           | item :: rest =>
               elems (S i) rest
                     (mergeInto result (flattenJSON item (arrayKey prefix i)))
           end) i items result)
  = size result + length items.
Proof.
  induction items as [|item items IH]; intros i result Hall Hfresh; [simpl; lia|].
  apply Forall_cons in Hall as [Hitem Hall].
  rewrite IH; [|done|].
  - rewrite flattenJSON_scalar by (try done; apply arrayKey_nonempty).
    rewrite mergeInto_union. rewrite map_size_disj_union.
    + rewrite map_size_singleton. simpl. lia.
    + apply map_disjoint_singleton_l. apply (Hfresh i). lia.
  - intros j Hj.
    rewrite flattenJSON_scalar by (try done; apply arrayKey_nonempty).
    rewrite mergeInto_union. apply lookup_union_None. split; [|apply Hfresh; lia].
    apply lookup_singleton_ne. intros E%arrayKey_inj. lia.
Qed.

(** An array of scalars gives one flat entry per element, the element
    number [i] under the key of index [i]. *)
Theorem flattenJSON_scalar_array (items : list value) (prefix : string) :
  Forall (fun v => isScalar v = true) items ->
  (forall i, flattenJSON (VArray items) prefix !! arrayKey prefix i = items !! i) /\
  size (flattenJSON (VArray items) prefix) = length items.
Proof.
  intros Hall. cbn [flattenJSON]. split.
  - intros i. rewrite scalar_array_loop_lookup by done.
    rewrite decide_True by lia. rewrite Nat.sub_0_r, lookup_empty.
    by destruct (items !! i).
  - rewrite scalar_array_loop_size; [by rewrite map_size_empty|done|].
    intros j _. apply lookup_empty.
Qed.

Lemma flattenJSON_scalar_array_witness :
  flattenJSON (VArray [VString "a"; VNil; VBool true]) "tags" !! "tags[1]" = Some VNil /\
  size (flattenJSON (VArray [VString "a"; VNil; VBool true]) "tags") = 3.
Proof.
  split.
  - exact (proj1 (flattenJSON_scalar_array [VString "a"; VNil; VBool true] "tags"
                    ltac:(repeat constructor)) 1).
  - exact (proj2 (flattenJSON_scalar_array [VString "a"; VNil; VBool true] "tags"
                    ltac:(repeat constructor))).
Defined.

End FlatKeysFacts.

(* ===================================================================== *)
(** * Facts: the flattening rules *)
(* ===================================================================== *)

Module FlattenFacts.
Import GoStrings Extract FlattenRules GoStringsFacts ExtractFacts FlatKeysFacts.

Lemma boundAt_leafKey prefix : leafKey prefix = boundAt prefix.
Proof.
  unfold leafKey, boundAt. destruct (String.eqb_spec prefix EmptyString); by case_decide.
Qed.

Lemma underKey_objectKey prefix key : objectKey prefix key = underKey prefix key.
Proof.
  unfold objectKey, underKey. destruct (String.eqb_spec prefix EmptyString); by case_decide.
Qed.

Lemma underIndex_arrayKey prefix i : arrayKey prefix i = underIndex prefix i.
Proof.
  unfold arrayKey, underIndex. destruct (String.eqb_spec prefix EmptyString) as [->|]; done.
Qed.

Lemma lastWins_go (l : list (string * value)) (m : gmap string value) :
  foldl (fun m kv => <[ kv.1 := kv.2 ]> m) m l = lastWins l ∪ m.
Proof.
  unfold lastWins. revert m. induction l as [|[k v] l IH] using rev_ind; intros m.
  - cbn. by rewrite (left_id_L ∅ (∪)).
  - rewrite !foldl_app. cbn. rewrite IH. by rewrite insert_union_l.
Qed.

Lemma lastWins_app (a b : list (string * value)) :
  lastWins (a ++ b) = lastWins b ∪ lastWins a.
Proof. unfold lastWins at 1. rewrite foldl_app. apply lastWins_go. Qed.

Lemma lastWins_singleton k v : lastWins [(k, v)] = {[ k := v ]}.
Proof. unfold lastWins. cbn. by rewrite insert_empty. Qed.

Lemma each_entryBindings prefix entries :
  (fix each (entries : list (string * value)) : list (string * value) :=
     match entries with
     | [] => []
     | (key, v) :: rest => bindings v (underKey prefix key) ++ each rest
     end) entries = entryBindings entries prefix.
Proof.
  unfold entryBindings. induction entries as [|[k v] entries IH]; [done|].
  cbn. by rewrite IH.
Qed.

Lemma object_loop_bindings prefix (entries : list (string * value)) :
  Forall (fun kv => forall p, flattenJSON kv.2 p = lastWins (bindings kv.2 p)) entries ->
  forall result,
  foldl (fun result '(key, v) =>
           mergeInto result (flattenJSON v (objectKey prefix key)))
        result entries
  = lastWins (entryBindings entries prefix) ∪ result.
Proof.
  unfold entryBindings.
  induction 1 as [|[k v] entries Hkv _ IH]; intros result; cbn [foldl flat_map].
  - unfold lastWins. cbn. by rewrite (left_id_L ∅ (∪)).
  - rewrite IH, mergeInto_union, lastWins_app. cbn in Hkv.
    rewrite Hkv, underKey_objectKey. by rewrite (assoc_L (∪)).
Qed.

Lemma array_loop_bindings prefix (items : list value) :
  Forall (fun item => forall p, flattenJSON item p = lastWins (bindings item p)) items ->
  forall i result,
  (fix elems (i : nat) (items : list value) (result : gmap string value)
     : gmap string value :=
     match items with
     | [] => result
     | item :: rest =>
         elems (S i) rest
               (mergeInto result (flattenJSON item (arrayKey prefix i)))
     end) i items result
  = lastWins
      ((fix elements (i : nat) (items : list value) : list (string * value) :=
          match items with
          | [] => []
          | item :: rest =>
              bindings item (underIndex prefix i) ++ elements (S i) rest
          end) i items) ∪ result.
Proof.
  induction 1 as [|item items Hitem _ IH]; intros i result.
  - unfold lastWins. cbn. by rewrite (left_id_L ∅ (∪)).
  - rewrite IH, mergeInto_union, lastWins_app.
    rewrite Hitem, underIndex_arrayKey. by rewrite (assoc_L (∪)).
Qed.

(** The Go function makes the bindings of the rules. *)
Lemma flattenJSON_bindings (data : value) :
  forall prefix, flattenJSON data prefix = lastWins (bindings data prefix).
Proof.
  induction data as [| b | f | z | s | items IH | entries IH] using value_ind_nested;
    intros prefix.
  1-5: (cbn [flattenJSON bindings]; by rewrite lastWins_singleton, boundAt_leafKey).
  - cbn [flattenJSON bindings].
    rewrite (array_loop_bindings prefix items IH 0 ∅).
    by rewrite (right_id_L ∅ (∪)).
  - cbn [flattenJSON bindings]. rewrite each_entryBindings.
    rewrite (object_loop_bindings prefix entries IH ∅), (right_id_L ∅ (∪)).
    destruct entries as [|[k v] [|e2 rest]]; [done| |done].
    destruct (String.eqb_spec (ToLower k) "value") as [Hv|Hv].
    + rewrite decide_True by done. by rewrite lastWins_singleton, boundAt_leafKey.
    + by rewrite decide_False by done.
Qed.

Lemma siblings_not_at_prefix entries prefix :
  prefix <> EmptyString -> length entries <> 1 ->
  flattenJSON (VObject entries) prefix !! prefix = None.
Proof.
  intros Hne Hlen. rewrite flattenJSON_siblings by done.
  apply not_elem_of_dom. intros Hin.
  assert (forall k, k ∈ dom (flattenEntries entries prefix) ->
            HasPrefix k (prefix +:+ ".") = true) as Hall.
  { unfold flattenEntries. clear Hin Hlen.
    assert (forall (result : gmap string value),
              (forall k, k ∈ dom result -> HasPrefix k (prefix +:+ ".") = true) ->
              forall k,
              k ∈ dom (foldl (fun result '(key, v) =>
                                flattenJSON v (objectKey prefix key) ∪ result)
                             result entries) ->
              HasPrefix k (prefix +:+ ".") = true) as Hloop.
    { induction entries as [|[key v] entries IH]; intros result Hres k; [by apply Hres|].
      cbn [foldl]. apply IH. intros k'. rewrite dom_union, elem_of_union.
      intros [Hk|Hk]; [|by apply Hres].
      destruct (objectKey_extends prefix key Hne) as [Hne' Hext].
      apply (flattenJSON_dom_extends v _ k' Hne') in Hk.
      assert (HasPrefix k' (objectKey prefix key) = true) as Hkm.
      { destruct Hk as [->|[H|H]]; [apply HasPrefix_refl|by apply HasPrefix_trans in H..]. }
      apply HasPrefix_inv in Hkm. rewrite Hkm.
      apply HasPrefix_inv in Hext. rewrite Hext.
      rewrite string_app_assoc. apply HasPrefix_app. }
    apply Hloop. intros k. by rewrite dom_empty, elem_of_empty. }
  specialize (Hall prefix Hin). apply HasPrefix_inv in Hall.
  assert (String.length prefix
          = String.length ((prefix +:+ ".") +:+ dropBytes (String.length (prefix +:+ ".")) prefix))
    as Hlen' by (by rewrite <- Hall).
  rewrite !PathUtilsFacts.string_length_app in Hlen'. cbn in Hlen'. lia.
Qed.

(** C5. An object whose only key lowercases to [value] collapses: its
    child is bound, as it is, to the prefix, or to [value] under the empty
    prefix.  An object with no entry or with several entries is not
    collapsed, its [value] key included: under a non-empty prefix nothing
    is bound to the prefix itself, and the flat map holds the bindings
    that rule F2 makes for the entries, each under [prefix.key].  An
    object whose only key is another one is treated likewise.  On every
    value the Go function makes the bindings of the rules F1 to F4, a
    later binding of a key replacing an earlier one. *)
Theorem flatten_value_collapse (prefix : string) :
  (forall key v,
     ToLower key = "value" ->
     flattenJSON (VObject [(key, v)]) prefix =
       {[ (if decide (prefix = EmptyString) then "value" else prefix) := v ]}) /\
  (forall entries,
     length entries <> 1 ->
     flattenJSON (VObject entries) prefix
       = lastWins (entryBindings entries prefix) /\
     (prefix <> EmptyString ->
      flattenJSON (VObject entries) prefix !! prefix = None)) /\
  (forall key v,
     ToLower key <> "value" ->
     flattenJSON (VObject [(key, v)]) prefix
       = lastWins (bindings v (underKey prefix key))) /\
  (forall data, flattenJSON data prefix = lastWins (bindings data prefix)).
Proof.
  split_and!.
  - intros key v H. rewrite <- leafKey_decide. by apply flattenJSON_collapse.
  - intros entries Hlen. split.
    + rewrite flattenJSON_bindings. cbn [bindings]. rewrite each_entryBindings.
      by destruct entries as [|[k v] [|e2 rest]].
    + intros Hne. by apply siblings_not_at_prefix.
  - intros key v Hv. rewrite flattenJSON_bindings. cbn [bindings].
    rewrite decide_False by done. by rewrite app_nil_r.
  - intros data. apply flattenJSON_bindings.
Qed.

Lemma flatten_value_collapse_witness :
  flattenJSON (VObject [("Value", Scenarios.dec 1255 10)]) "avg_response_time"
    = {[ "avg_response_time" := Scenarios.dec 1255 10 ]} /\
  flattenJSON Scenarios.measured "avg_response_time"
    = {[ "avg_response_time.value" := Scenarios.dec 1255 10;
         "avg_response_time.unit" := VString "ms" ]} /\
  flattenJSON Scenarios.measured "avg_response_time" !! "avg_response_time" = None.
Proof.
  split_and!.
  - exact (proj1 (flatten_value_collapse "avg_response_time")
             "Value" (Scenarios.dec 1255 10) eq_refl).
  - etransitivity.
    + apply (proj1 (proj2 (flatten_value_collapse "avg_response_time"))). cbn. lia.
    + vm_compute. reflexivity.
  - apply (proj1 (proj2 (flatten_value_collapse "avg_response_time"))); [cbn; lia|done].
Defined.

(** The rules on their own: a measurement with a unit keeps its [value]
    key; each of two collapsed readings of a list is bound at its index. *)
Example bindings_of_the_rules :
  bindings Scenarios.measured "avg_response_time"
    = [ ("avg_response_time.value", Scenarios.dec 1255 10);
        ("avg_response_time.unit", VString "ms") ] /\
  bindings Scenarios.twoReadings "cpu"
    = [ ("cpu[0]", Scenarios.dec 1 1); ("cpu[1]", Scenarios.dec 2 1) ] /\
  flattenJSON Scenarios.twoReadings "cpu"
    = {[ "cpu[0]" := Scenarios.dec 1 1; "cpu[1]" := Scenarios.dec 2 1 ]}.
Proof. split_and!; vm_compute; reflexivity. Qed.

End FlattenFacts.

(* ===================================================================== *)
(** * Facts: the retry loop *)
(* ===================================================================== *)

Module EndpointFacts.
Import GoStrings Utils Endpoint.

Lemma requestsOf_app t1 t2 : requestsOf (t1 ++ t2) = requestsOf t1 ++ requestsOf t2.
Proof. apply omap_app. Qed.

Lemma pausesOf_app t1 t2 : pausesOf (t1 ++ t2) = pausesOf t1 ++ pausesOf t2.
Proof. apply omap_app. Qed.

Lemma wrapInt64_small z : (- 2 ^ 63 <= z < 2 ^ 63)%Z -> wrapInt64 z = z.
Proof.
  intros H. unfold wrapInt64. rewrite Z.mod_small by lia. lia.
Qed.

Lemma pause_seconds a :
  (0 <= a < 9223372036)%Z ->
  wrapInt64 (wrapInt64 (a + 1) * Second) = ((a + 1) * Second)%Z.
Proof.
  intros H. unfold Second. rewrite (wrapInt64_small (a + 1)) by lia.
  apply wrapInt64_small. lia.
Qed.

(** [n] rounds whose replies are retryable, none of them the last one
    allowed: each sends, then pauses. *)
Lemma retryLoop_failing Do MaxRetries n m a st :
  (forall i, (a <= i < a + Z.of_nat n)%Z ->
             retryable (Do i) /\ (i < MaxRetries)%Z) ->
  exists st',
    retryLoop Do MaxRetries (n + m) a st
      = retryLoop Do MaxRetries m (a + Z.of_nat n) st' /\
    requestsOf (trace st') = requestsOf (trace st) ++ seqZ a (Z.of_nat n) /\
    pausesOf (trace st') =
      pausesOf (trace st)
      ++ ((fun i => wrapInt64 (wrapInt64 (i + 1) * Second)) <$> seqZ a (Z.of_nat n)).
Proof.
  revert a st. induction n as [|n IH]; intros a st Hbad.
  - exists st. rewrite Z.add_0_r. cbn [Nat.add]. rewrite !seqZ_nil by done.
    by rewrite !app_nil_r.
  - destruct (Hbad a ltac:(lia)) as [Ha Hlt].
    cbn [Nat.add retryLoop]. unfold retryable in Ha. rewrite Ha. cbn [resp lastErr trace].
    rewrite decide_True by done.
    match goal with |- context [retryLoop _ _ _ _ ?s] => set (st1 := s) end.
    destruct (IH (a + 1)%Z st1) as (st' & Heq & Hreq & Hpause).
    { intros i Hi. apply Hbad. lia. }
    exists st'. split; [|split].
    + rewrite Heq. f_equal. lia.
    + rewrite Hreq. subst st1.
      replace (Z.of_nat (S n)) with (Z.succ (Z.of_nat n)) by lia.
      rewrite (seqZ_cons a) by lia. rewrite Z.pred_succ.
      destruct (replyResp (Do a)); cbn [resp lastErr trace];
        rewrite !requestsOf_app; cbn; by rewrite <- !app_assoc.
    + rewrite Hpause. subst st1.
      replace (Z.of_nat (S n)) with (Z.succ (Z.of_nat n)) by lia.
      rewrite (seqZ_cons a) by lia. rewrite Z.pred_succ.
      destruct (replyResp (Do a)); cbn [resp lastErr trace];
        rewrite !pausesOf_app; cbn; by rewrite <- !app_assoc.
Qed.

(** How the loop ends.  Let attempt [k] be the first whose reply is
    accepted, or the last one allowed when none is.  Then the requests
    0 to [k] are sent, a pause of 1, 2, ..., [k] seconds follows each
    attempt before [k], and the loop leaves the reply of attempt [k]. *)
Theorem retry_loop_outcome (Do : Z -> reply) (MaxRetries k : Z) :
  (0 <= k <= MaxRetries)%Z -> (MaxRetries < 9223372036)%Z ->
  (forall i, (0 <= i < k)%Z -> retryable (Do i)) ->
  accepted (Do k) = Some true \/ (k = MaxRetries /\ retryable (Do k)) ->
  exists st,
    sendWithRetries Do MaxRetries = Some st /\
    requestsOf (trace st) = seqZ 0 (k + 1) /\
    pausesOf (trace st) = (fun i => ((i + 1) * Second)%Z) <$> seqZ 0 k /\
    resp st = replyResp (Do k) /\ lastErr st = replyErr (Do k).
Proof.
  intros Hk Hmax Hbad Hend. unfold sendWithRetries.
  replace (Z.to_nat (MaxRetries + 1))
    with (Z.to_nat k + S (Z.to_nat (MaxRetries - k))) by lia.
  destruct (retryLoop_failing Do MaxRetries (Z.to_nat k) (S (Z.to_nat (MaxRetries - k)))
              0 (mkLoopState None None [])) as (st' & -> & Hreq & Hpause).
  { intros i Hi. split; [apply Hbad|]; lia. }
  rewrite Z2Nat.id, Z.add_0_l in * by lia. cbn [trace app] in Hreq, Hpause.
  assert (pausesOf (trace st') = (fun i => ((i + 1) * Second)%Z) <$> seqZ 0 k) as Hpause'.
  { rewrite Hpause. apply list_fmap_ext. intros j i Hi%lookup_seqZ. cbv beta.
    apply pause_seconds. lia. }
  cbn [retryLoop].
  destruct Hend as [Hok|[-> Hretry]].
  - rewrite Hok. eexists. split; [done|]. cbn [trace resp lastErr].
    rewrite requestsOf_app, pausesOf_app, Hreq, Hpause'. cbn. rewrite app_nil_r.
    split_and!; [|done..].
    rewrite seqZ_app by lia. by rewrite Z.add_0_l.
  - unfold retryable in Hretry. rewrite Hretry. cbn [resp lastErr trace].
    rewrite decide_False by lia.
    replace (Z.to_nat (MaxRetries - MaxRetries)) with 0 by lia. cbn [retryLoop].
    eexists. split; [done|].
    destruct (replyResp (Do MaxRetries)); cbn [trace resp lastErr];
      rewrite ?requestsOf_app, ?pausesOf_app, Hreq, Hpause'; cbn; rewrite ?app_nil_r;
      (split_and!; [|done..]); rewrite seqZ_app by lia; by rewrite Z.add_0_l.
Qed.

(** A negative retry count: no request is sent, the response is [nil],
    and the code that follows the loop dereferences it. *)
Theorem negative_retries_send_nothing (Do : Z -> reply) (MaxRetries : Z) :
  (MaxRetries < 0)%Z ->
  sendWithRetries Do MaxRetries = Some (mkLoopState None None []) /\
  afterLoop MaxRetries (mkLoopState None None []) = Panics.
Proof.
  intros H. unfold sendWithRetries.
  replace (Z.to_nat (MaxRetries + 1)) with 0 by lia. done.
Qed.

Lemma retry_loop_outcome_witness :
  exists st,
    sendWithRetries
      (fun i => if (i <? 2)%Z then mkReply (Some (503%Z, EmptyString)) None
                else mkReply (Some (200%Z, "{}")) None) 3 = Some st /\
    requestsOf (trace st) = seqZ 0 (2 + 1) /\
    pausesOf (trace st) = (fun i => ((i + 1) * Second)%Z) <$> seqZ 0 2 /\
    resp st = Some (200%Z, "{}") /\ lastErr st = None.
Proof.
  apply (retry_loop_outcome
           (fun i => if (i <? 2)%Z then mkReply (Some (503%Z, EmptyString)) None
                     else mkReply (Some (200%Z, "{}")) None) 3 2).
  - lia.
  - lia.
  - intros i Hi. assert (i = 0 \/ i = 1)%Z as [-> | ->] by lia; reflexivity.
  - left. reflexivity.
Defined.

Lemma negative_retries_send_nothing_witness :
  sendWithRetries (fun _ => mkReply (Some (200%Z, "{}")) None) (-1)
    = Some (mkLoopState None None []) /\
  afterLoop (-1) (mkLoopState None None []) = Panics.
Proof. apply negative_retries_send_nothing. lia. Defined.

End EndpointFacts.

(* ===================================================================== *)
(** * Facts: conversions and Transform *)
(* ===================================================================== *)

Module ConversionFacts.
Import GoStrings Strconv Utils Conversion GoStringsFacts FlatKeysFacts.

(** *** Null substitution *)

Lemma substituteZerosForNull_loop (init m : gmap string value) k :
  map_fold (fun key v acc =>
              match v with
              | VNil => <[ key := VInt 0 ]> acc
              | VObject _ => <[ key := zeroNulls v ]> acc
              | _ => acc
              end) init m !! k
  = match m !! k with
    | Some VNil => Some (VInt 0)
    | Some (VObject entries) => Some (zeroNulls (VObject entries))
    | _ => init !! k
    end.
Proof.
  revert k.
  apply (map_fold_weak_ind (fun r (m : gmap string value) =>
           forall k, r !! k = match m !! k with
                              | Some VNil => Some (VInt 0)
                              | Some (VObject entries) => Some (zeroNulls (VObject entries))
                              | _ => init !! k
                              end)).
  - intros k. by rewrite lookup_empty.
  - intros i x m' r Hi IH k.
    destruct (decide (k = i)) as [->|Hne].
    + rewrite lookup_insert_eq. specialize (IH i). rewrite Hi in IH.
      destruct x; rewrite ?lookup_insert_eq; done.
    + rewrite lookup_insert_ne by done. rewrite <- IH.
      destruct x; rewrite ?lookup_insert_ne; done.
Qed.

Lemma substituteZerosForNull_fmap (data : gmap string value) :
  substituteZerosForNull data = zeroNulls <$> data.
Proof.
  apply map_eq. intros k. unfold substituteZerosForNull.
  rewrite substituteZerosForNull_loop, lookup_fmap.
  destruct (data !! k) as [[]|]; done.
Qed.

Lemma nullFree_zeroNulls v : nullFree (zeroNulls v) = true.
Proof.
  induction v as [| b | f | z | s | items IH | entries IH] using value_ind_nested;
    try done.
  cbn [zeroNulls nullFree]. apply forallb_forall. intros [k x] Hin.
  apply in_map_iff in Hin as ([k' x'] & [= <- <-] & Hin').
  rewrite Forall_forall in IH. apply (IH (k', x')). by apply list_elem_of_In.
Qed.

Lemma zeroNulls_nullFree v : nullFree v = true -> zeroNulls v = v.
Proof.
  induction v as [| b | f | z | s | items IH | entries IH] using value_ind_nested;
    try done.
  cbn [zeroNulls nullFree]. intros Hall. f_equal.
  induction entries as [|[k x] entries IHe]; [done|].
  apply Forall_cons in IH as [Hx IH]. cbn in Hall.
  apply andb_prop in Hall as [Hnx Hall]. cbn. f_equal.
  - f_equal. by apply Hx.
  - by apply IHe.
Qed.

(** After the substitution the map has the same keys, no value of it is
    [nil] or holds a [nil] under nested maps, and the values that had none
    are the same.  A [nil] inside an array stays. *)
Theorem substituteZerosForNull_clears_nulls (data : gmap string value) :
  dom (substituteZerosForNull data) = dom data /\
  (forall k v, substituteZerosForNull data !! k = Some v -> nullFree v = true) /\
  (forall k v, data !! k = Some v -> nullFree v = true ->
               substituteZerosForNull data !! k = Some v) /\
  (forall k items, data !! k = Some (VArray items) ->
                   substituteZerosForNull data !! k = Some (VArray items)).
Proof.
  rewrite substituteZerosForNull_fmap. split_and!.
  - apply dom_fmap_L.
  - intros k v. rewrite lookup_fmap. destruct (data !! k) as [x|]; [|done].
    intros [= <-]. apply nullFree_zeroNulls.
  - intros k v Hk Hv. rewrite lookup_fmap, Hk. cbn.
    by rewrite (zeroNulls_nullFree v Hv).
  - intros k items Hk. by rewrite lookup_fmap, Hk.
Qed.

(** *** Conversion functions *)

Section ConversionsFacts.
Variable ParseFloat : string -> option float64.
Variable NumError : string -> string -> string.
Variable truncate : float64 -> Z.
Variable Sprintf_v : value -> string.
Variable Sprintf_f15 : float64 -> string.
Variable Regexp : Type.
Variable regexp_Compile : string -> option Regexp.
Variable MatchString : Regexp -> string -> bool.
Variable rangeFields : gmap string dyn -> list (string * dyn).
Variable rangeData : gmap string value -> list (string * value).

#[local] Abbreviation convertValue :=
  (convertValue ParseFloat NumError truncate Sprintf_v).
#[local] Abbreviation converted :=
  (converted ParseFloat NumError truncate Sprintf_v).
#[local] Abbreviation fieldMatches := (fieldMatches Regexp regexp_Compile MatchString).
#[local] Abbreviation applyConversionToValue :=
  (applyConversionToValue ParseFloat NumError truncate Sprintf_v).
#[local] Abbreviation applyConversionFunction :=
  (applyConversionFunction ParseFloat NumError truncate Sprintf_v
     Regexp regexp_Compile MatchString rangeFields).
#[local] Abbreviation applyConversions :=
  (applyConversions ParseFloat NumError truncate Sprintf_v
     Regexp regexp_Compile MatchString rangeFields).
#[local] Abbreviation transformSingle :=
  (transformSingle ParseFloat NumError truncate Sprintf_v
     Regexp regexp_Compile MatchString rangeFields).
#[local] Abbreviation transformAll :=
  (transformAll ParseFloat NumError truncate Sprintf_v
     Regexp regexp_Compile MatchString rangeFields).
#[local] Abbreviation Transform :=
  (Transform ParseFloat NumError truncate Sprintf_v Sprintf_f15
     Regexp regexp_Compile MatchString rangeFields rangeData).

Lemma conversion_loop (convFunc : ConversionFunctionConfig) (regex : Regexp)
    (l : list (string * dyn)) (d0 : gmap string dyn) :
  NoDup l.*1 ->
  match
    foldl (fun acc '(key, v) =>
             match acc with
             | Err msg => Err msg
             | Ok data =>
                 if MatchString regex key then
                   match applyConversionToValue data key v convFunc with
                   | Err msg =>
                       Err ("conversion failed for field " +:+ key
                              +:+ ": " +:+ msg)
                   | Ok data => Ok data
                   end
                 else Ok data
             end)
          (Ok d0) l
  with
  | Err _ =>
      Exists (fun kv => MatchString regex kv.1 = true /\
                        is_err (convertValue convFunc kv.2) = true) l
  | Ok out =>
      Forall (fun kv => MatchString regex kv.1 = true ->
                        is_err (convertValue convFunc kv.2) = false) l /\
      forall k, out !! k =
        match (list_to_map l : gmap string dyn) !! k with
        | Some v => if MatchString regex k then Some (converted convFunc v)
                    else d0 !! k
        | None => d0 !! k
        end
  end.
Proof.
  induction l as [|[k0 v0] l IH] using rev_ind; intros Hnd.
  { cbn. split; [constructor|]. intros k. by rewrite lookup_empty. }
  rewrite fmap_app in Hnd. apply NoDup_app in Hnd as (Hnd & Hfresh & _).
  assert (k0 ∉ l.*1) as Hk0.
  { intros Hin. apply (Hfresh k0 Hin). cbn. apply list_elem_of_here. }
  specialize (IH Hnd). rewrite foldl_app. cbn [foldl].
  destruct (foldl _ (Ok d0) l) as [d|msg].
  - destruct IH as [Hall Hlook].
    assert (forall k, (list_to_map (l ++ [(k0, v0)]) : gmap string dyn) !! k
                      = if decide (k = k0) then Some v0
                        else (list_to_map l : gmap string dyn) !! k) as Hsnoc.
    { intros k. rewrite list_to_map_snoc by done.
      destruct (decide (k = k0)) as [->|Hne];
        [by rewrite lookup_insert_eq|by rewrite lookup_insert_ne]. }
    assert ((list_to_map l : gmap string dyn) !! k0 = None) as Hnone
      by (by apply not_elem_of_list_to_map_1).
    destruct (MatchString regex k0) eqn:Hm.
    + unfold Conversion.applyConversionToValue, Conversion.converted in *.
      destruct (convertValue convFunc v0) as [c|msg] eqn:Hc; cbn [mapOk].
      * split.
        -- apply Forall_app. split; [done|]. constructor; [|constructor].
           cbn. intros _. by rewrite Hc.
        -- intros k. rewrite Hsnoc. destruct (decide (k = k0)) as [->|Hne].
           ++ by rewrite lookup_insert_eq, Hm, Hc.
           ++ rewrite lookup_insert_ne by done. apply Hlook.
      * apply Exists_app. right. constructor. cbn. by rewrite Hc.
    + split.
      * apply Forall_app. split; [done|]. constructor; [|constructor].
        cbn. congruence.
      * intros k. rewrite Hsnoc. destruct (decide (k = k0)) as [->|Hne].
        -- rewrite Hm, Hlook, Hnone. done.
        -- apply Hlook.
  - apply Exists_app. by left.
Qed.

Lemma applyConversionFunction_spec (data : gmap string dyn)
    (convFunc : ConversionFunctionConfig) :
  rangeFields data ≡ₚ map_to_list data ->
  (is_err (applyConversionFunction data convFunc) = true <->
   exists k v, data !! k = Some v /\ fieldMatches convFunc k = true /\
               is_err (convertValue convFunc v) = true) /\
  (forall out, applyConversionFunction data convFunc = Ok out ->
     forall k, out !! k =
       (fun v => if fieldMatches convFunc k then converted convFunc v else v)
         <$> data !! k).
Proof.
  intros Hperm. unfold Conversion.applyConversionFunction, Conversion.fieldMatches,
    Extract.matchesFilter.
  destruct (regexp_Compile (Field convFunc)) as [regex|] eqn:Hre.
  - assert (NoDup (rangeFields data).*1) as Hnd.
    { rewrite Hperm. apply NoDup_fst_map_to_list. }
    assert ((list_to_map (rangeFields data) : gmap string dyn) = data) as Hmap.
    { rewrite <- (list_to_map_to_list data) at 2.
      by apply list_to_map_proper. }
    pose proof (conversion_loop convFunc regex (rangeFields data) data Hnd) as Hloop.
    destruct (foldl _ (Ok data) (rangeFields data)) as [out|msg].
    + destruct Hloop as [Hall Hlook]. split.
      * split; [done|]. intros (k & v & Hk & Hm & He).
        rewrite Forall_forall in Hall.
        assert ((k, v) ∈ rangeFields data) as Hin.
        { rewrite Hperm. by apply elem_of_map_to_list. }
        specialize (Hall (k, v) Hin Hm). cbn in Hall. congruence.
      * intros out' [= <-] k. rewrite Hlook, Hmap.
        destruct (data !! k) as [v|] eqn:Hk; cbn; [|done].
        by destruct (MatchString regex k).
    + split; [|done]. split; [intros _|done].
      apply Exists_exists in Hloop as ([k v] & Hin & Hm & He).
      exists k, v. split; [|done]. apply elem_of_map_to_list. by rewrite <- Hperm.
  - destruct (data !! Field convFunc) as [v|] eqn:Hf.
    + unfold Conversion.applyConversionToValue, Conversion.converted.
      destruct (convertValue convFunc v) as [c|msg] eqn:Hc; cbn [mapOk is_err].
      * split.
        -- split; [done|]. intros (k & v' & Hk & Heq%String.eqb_eq & He).
           rewrite <- Heq, Hf in Hk. injection Hk as <-. by rewrite Hc in He.
        -- intros out [= <-] k. destruct (String.eqb (Field convFunc) k) eqn:Hk.
           ++ apply String.eqb_eq in Hk as <-. by rewrite lookup_insert_eq, Hf; cbn; rewrite Hc.
           ++ apply String.eqb_neq in Hk. rewrite lookup_insert_ne by done.
              by destruct (data !! k).
      * split; [|done]. split; [intros _|done].
        exists (Field convFunc), v. split_and!; [done|apply String.eqb_refl|by rewrite Hc].
    + split.
      * split; [done|]. intros (k & v & Hk & Heq%String.eqb_eq & _). congruence.
      * intros out [= <-] k. destruct (String.eqb (Field convFunc) k) eqn:Hk.
        -- apply String.eqb_eq in Hk as <-. by rewrite Hf.
        -- by destruct (data !! k).
Qed.

(** A conversion function fails exactly when some field it bears on
    cannot be converted, whatever the order in which the map is visited;
    when it does not fail, every field it bears on holds its converted
    value and every other field is as before. *)
Theorem conversion_function_outcome (data : gmap string dyn)
    (convFunc : ConversionFunctionConfig) :
  rangeFields data ≡ₚ map_to_list data ->
  (is_err (applyConversionFunction data convFunc) = true <->
   exists k v, data !! k = Some v /\ fieldMatches convFunc k = true /\
               is_err (convertValue convFunc v) = true) /\
  (forall out, applyConversionFunction data convFunc = Ok out ->
     forall k, out !! k =
       (fun v => if fieldMatches convFunc k then converted convFunc v else v)
         <$> data !! k).
Proof. apply applyConversionFunction_spec. Qed.

(** A value that a conversion to int has written converts to the bool
    [true], even when it is 0: it is an [int64], which the comparison with
    the [int] 0 in [toBool] never finds equal.  (The [int] 0 that the null
    substitution writes converts to [false].) *)
Theorem bool_of_converted_int_is_true (v d : dyn) (fromType fromType' : string) :
  convertType ParseFloat NumError truncate Sprintf_v v fromType "int" = Ok d ->
  convertType ParseFloat NumError truncate Sprintf_v d fromType' "bool"
    = Ok (Dyn (VBool true)).
Proof.
  unfold convertType. cbn [String.eqb Ascii.eqb Bool.eqb andb].
  destruct (toInt NumError truncate v) as [z|msg]; [|done].
  by intros [= <-].
Qed.

(** *** transformSingle and Transform *)

Lemma copy_map (m : gmap string value) :
  map_fold (fun key v acc => <[ key := v ]> acc) ∅ m = m.
Proof.
  apply (map_fold_weak_ind (fun r (m : gmap string value) => r = m)); [done|].
  by intros i x m' r _ ->.
Qed.

Lemma applyConversions_nil data : applyConversions data [] = Ok data.
Proof. done. Qed.

Lemma conversions_loop_err msg (l : list ConversionFunctionConfig) :
  foldl (fun acc convFunc =>
           match acc with
           | Err msg => Err msg
           | Ok data =>
               match applyConversionFunction data convFunc with
               | Err msg =>
                   Err ("conversion function failed for field "
                          +:+ Field convFunc +:+ ": " +:+ msg)
               | Ok data => Ok data
               end
           end) (Err msg) l = Err msg.
Proof. by induction l. Qed.

Lemma applyConversions_cons data convFunc convFuncs :
  applyConversions data (convFunc :: convFuncs) =
    match applyConversionFunction data convFunc with
    | Err msg =>
        Err ("conversion function failed for field "
               +:+ Field convFunc +:+ ": " +:+ msg)
    | Ok data => applyConversions data convFuncs
    end.
Proof.
  unfold Conversion.applyConversions. cbn [foldl].
  destruct (applyConversionFunction data convFunc); [done|].
  apply conversions_loop_err.
Qed.

Hypothesis rangeFields_perm : forall m, rangeFields m ≡ₚ map_to_list m.

Lemma applyConversionFunction_dom data convFunc out :
  applyConversionFunction data convFunc = Ok out -> dom out = dom data.
Proof using rangeFields_perm.
  intros H. apply set_eq. intros k. rewrite !elem_of_dom.
  rewrite (proj2 (applyConversionFunction_spec data convFunc (rangeFields_perm data)) out H k).
  by rewrite fmap_is_Some.
Qed.

Lemma applyConversions_dom convFuncs data out :
  applyConversions data convFuncs = Ok out -> dom out = dom data.
Proof using rangeFields_perm.
  revert data. induction convFuncs as [|convFunc convFuncs IH]; intros data.
  - by intros [= <-].
  - rewrite applyConversions_cons.
    destruct (applyConversionFunction data convFunc) as [d|] eqn:E; [|done].
    intros H. rewrite (IH d H). by eapply applyConversionFunction_dom.
Qed.

Lemma transformSingle_fields (t : Transformer) (r : Extract.Result)
    (tr : Transformed) :
  transformSingle t r = Ok tr ->
  dom (Transform.TransformedData (Table tr)) = dom (Extract.Data r) /\
  Extract.Source (Origin tr) = Extract.Source r /\
  dom (Extract.Data (Origin tr)) = dom (Extract.Data r).
Proof using rangeFields_perm.
  unfold Conversion.transformSingle. rewrite copy_map.
  destruct (Transform.SubstituteZerosForNull (config t)).
  - destruct (applyConversions _ _) as [d|] eqn:E; [|done]. intros [= <-]. cbn.
    apply applyConversions_dom in E.
    rewrite dom_fmap_L, E, substituteZerosForNull_fmap.
    by rewrite !dom_fmap_L.
  - destruct (applyConversions _ _) as [d|] eqn:E; [|done]. intros [= <-]. cbn.
    apply applyConversions_dom in E. by rewrite dom_fmap_L, E, dom_fmap_L.
Qed.

(** A transformed result has the fields of the extract result it comes
    from, no more and no fewer, and names the same source. *)
Theorem transformSingle_keeps_fields (t : Transformer) (r : Extract.Result)
    (tr : Transformed) :
  transformSingle t r = Ok tr ->
  dom (Transform.TransformedData (Table tr)) = dom (Extract.Data r) /\
  Extract.Source (Origin tr) = Extract.Source r /\
  dom (Extract.Data (Origin tr)) = dom (Extract.Data r).
Proof using rangeFields_perm. apply transformSingle_fields. Qed.

Lemma transformAll_loop_err msg (l : list Extract.Result) t :
  foldl (fun acc r =>
           match acc with
           | Err msg => Err msg
           | Ok transformedResults =>
               match transformSingle t r with
               | Err msg =>
                   Err ("failed to transform result from "
                          +:+ Extract.Source r +:+ ": " +:+ msg)
               | Ok transformed => Ok (transformedResults ++ [transformed])
               end
           end) (Err msg) l = Err msg.
Proof. by induction l. Qed.

Lemma transformAll_loop t (l : list Extract.Result) (done_ : list Transformed) :
  match
    foldl (fun acc r =>
             match acc with
             | Err msg => Err msg
             | Ok transformedResults =>
                 match transformSingle t r with
                 | Err msg =>
                     Err ("failed to transform result from "
                            +:+ Extract.Source r +:+ ": " +:+ msg)
                 | Ok transformed => Ok (transformedResults ++ [transformed])
                 end
             end) (Ok done_) l
  with
  | Ok out =>
      exists trs, out = done_ ++ trs /\
                  Forall2 (fun r tr => transformSingle t r = Ok tr) l trs
  | Err msg =>
      exists before r rest trs e,
        l = before ++ r :: rest /\
        Forall2 (fun r tr => transformSingle t r = Ok tr) before trs /\
        transformSingle t r = Err e /\
        msg = "failed to transform result from " +:+ Extract.Source r +:+ ": " +:+ e
  end.
Proof.
  revert done_. induction l as [|r l IH]; intros done_.
  - cbn. exists []. by rewrite app_nil_r.
  - cbn [foldl]. destruct (transformSingle t r) as [tr|e] eqn:E.
    + specialize (IH (done_ ++ [tr])). destruct (foldl _ _ l) as [out|msg].
      * destruct IH as (trs & -> & Hall). exists (tr :: trs).
        rewrite <- app_assoc. split; [done|]. by constructor.
      * destruct IH as (before & r' & rest & trs & e & -> & Hall & He & ->).
        exists (r :: before), r', rest, (tr :: trs), e. split_and!; try done.
        by constructor.
    + rewrite transformAll_loop_err. exists [], r, l, [], e. by split_and!.
Qed.

Lemma convertToCSV_length results :
  length (Transform.convertToCSV rangeData Sprintf_f15 Sprintf_v results)
  = length results.
Proof.
  unfold Transform.convertToCSV. destruct results; [done|]. by rewrite length_fmap.
Qed.

Lemma withTables_Origin trs tables :
  length tables = length trs ->
  Origin <$> withTables trs tables = Origin <$> trs.
Proof.
  revert tables. induction trs as [|tr trs IH]; intros [|table tables] Hlen; try done.
  cbn. f_equal. apply IH. simpl in Hlen. lia.
Qed.

(** [Transform] gives one result per extract result, in the same order
    and from the same sources; when a result cannot be transformed the
    call fails with the error of the first such result, and nothing is
    stored. *)
Theorem Transform_one_per_result (t : Transformer) (results : list Extract.Result)
    (out : result (list Transformed)) (t' : Transformer) :
  Transform t results = Some (out, t') ->
  match out with
  | Ok trs =>
      (fun tr => Extract.Source (Origin tr)) <$> trs = Extract.Source <$> results
  | Err msg =>
      t' = t /\
      exists before r rest e,
        results = before ++ r :: rest /\
        Forall (fun r => is_err (transformSingle t r) = false) before /\
        transformSingle t r = Err e /\
        msg = "failed to transform result from " +:+ Extract.Source r +:+ ": " +:+ e
  end.
Proof using rangeFields_perm.
  unfold Conversion.Transform, Conversion.transformAll.
  pose proof (transformAll_loop t results []) as Hloop.
  destruct (foldl _ (Ok []) results) as [trs|msg].
  - destruct Hloop as (trs' & Heq & Hall). cbn in Heq. subst trs'.
    assert ((fun tr => Extract.Source (Origin tr)) <$> trs = Extract.Source <$> results) as Hsrc.
    { clear -Hall rangeFields_perm. induction Hall as [|r tr rs trs Hr _ IH]; [done|].
      cbn. f_equal; [|done]. by apply transformSingle_fields in Hr as (_ & ? & _). }
    set (final := if String.eqb _ "csv" then _ else trs).
    assert ((fun tr => Extract.Source (Origin tr)) <$> final
            = Extract.Source <$> results) as Hfinal.
    { subst final. destruct (String.eqb _ "csv"); [|done].
      rewrite <- Hsrc. rewrite (list_fmap_compose Origin Extract.Source).
      rewrite withTables_Origin; [by rewrite <- list_fmap_compose|].
      by rewrite convertToCSV_length, length_fmap. }
    destruct (Transform.Stateless (config t)).
    + by intros [= <- <-].
    + destruct (Transform.storePreviousResults _ _); [|done]. by intros [= <- <-].
  - intros [= <- <-]. split; [done|].
    destruct Hloop as (before & r & rest & trs & e & -> & Hall & He & ->).
    exists before, r, rest, e. split_and!; try done.
    clear -Hall. induction Hall as [|r' tr rs trs Hr _ IH]; constructor; [|done].
    by rewrite Hr.
Qed.


End ConversionsFacts.

#[local] Abbreviation applyConversionFunction' :=
  (applyConversionFunction Scenarios.parseDecimal plainNumError truncateFinite printedValue string
     Scenarios.literalCompile Scenarios.literalMatch map_to_list).
#[local] Abbreviation convertValue' := (convertValue Scenarios.parseDecimal plainNumError truncateFinite printedValue).
#[local] Abbreviation transformSingle' :=
  (transformSingle Scenarios.parseDecimal plainNumError truncateFinite printedValue string
     Scenarios.literalCompile Scenarios.literalMatch map_to_list).
#[local] Abbreviation Transform' :=
  (Transform Scenarios.parseDecimal plainNumError truncateFinite printedValue printedFloat
     string Scenarios.literalCompile Scenarios.literalMatch map_to_list map_to_list).

Lemma conversion_function_outcome_witness :
  (is_err (applyConversionFunction' sizeFields toKB) = true <->
   exists k v, sizeFields !! k = Some v /\
               fieldMatches string Scenarios.literalCompile Scenarios.literalMatch
                 toKB k = true /\
               is_err (convertValue' toKB v) = true) /\
  (forall out, applyConversionFunction' sizeFields toKB = Ok out ->
     forall k, out !! k =
       (fun v => if fieldMatches string Scenarios.literalCompile
                      Scenarios.literalMatch toKB k
                 then converted Scenarios.parseDecimal plainNumError truncateFinite printedValue toKB v
                 else v)
         <$> sizeFields !! k).
Proof.
  apply (conversion_function_outcome Scenarios.parseDecimal plainNumError truncateFinite printedValue string
           Scenarios.literalCompile Scenarios.literalMatch map_to_list
           sizeFields toKB).
  reflexivity.
Defined.

Lemma bool_of_converted_int_is_true_witness :
  convertType Scenarios.parseDecimal plainNumError truncateFinite printedValue
    (DynInt64 0) EmptyString "bool" = Ok (Dyn (VBool true)).
Proof.
  apply (bool_of_converted_int_is_true Scenarios.parseDecimal plainNumError
           truncateFinite printedValue (Dyn (VInt 0)) (DynInt64 0)
           EmptyString EmptyString).
  reflexivity.
Defined.

(** The zero that the null substitution writes is [false]; once it has
    been converted to int it is [true]. *)
Example zero_to_bool_depends_on_its_type :
  toBool plainNumError (Dyn (VInt 0)) = Ok false /\
  toBool plainNumError (DynInt64 0) = Ok true.
Proof. split; reflexivity. Qed.

Lemma transformSingle_keeps_fields_witness :
  dom sizeInKB = dom sizeData /\
  Extract.Source sizeResult = "http://es:9200" /\
  dom (Extract.Data sizeResult) = dom sizeData.
Proof.
  apply (transformSingle_keeps_fields Scenarios.parseDecimal plainNumError truncateFinite printedValue string
           Scenarios.literalCompile Scenarios.literalMatch map_to_list
           (fun m => reflexivity (map_to_list m))
           sizeTransformer sizeResult
           (mkTransformed sizeResult (Transform.mkTransformedResult sizeInKB [] []))).
  vm_compute. reflexivity.
Defined.

Lemma Transform_one_per_result_witness :
  (fun tr => Extract.Source (Origin tr)) <$> [mkTransformed sizeResult sizeTable]
    = Extract.Source <$> [sizeResult].
Proof.
  apply (Transform_one_per_result Scenarios.parseDecimal plainNumError
           truncateFinite printedValue printedFloat string
           Scenarios.literalCompile Scenarios.literalMatch map_to_list map_to_list
           (fun m => reflexivity (map_to_list m))
           sizeTransformer [sizeResult]
           (Ok [mkTransformed sizeResult sizeTable])
           (mkTransformer
              (Transform.mkTransformer (Scenarios.sampleConfig 2) [[sizeTable]])
              [toKB])).
  vm_compute. reflexivity.
Defined.


End ConversionFacts.

(* ===================================================================== *)
(** * Facts: the cells of the CSV table *)
(* ===================================================================== *)

Module TableFacts.
Import GoStrings Strconv Transform GoStringsFacts TransformFacts.

Section TableFactsRows.
Variable rangeData : gmap string value -> list (string * value).
Variable Sprintf_f15 : float64 -> string.
Variable Sprintf_v : value -> string.

#[local] Abbreviation generateCSVRows := (generateCSVRows rangeData Sprintf_f15 Sprintf_v).
#[local] Abbreviation convertToCSV := (convertToCSV rangeData Sprintf_f15 Sprintf_v).
#[local] Abbreviation formatValue := (formatValue Sprintf_f15 Sprintf_v).
#[local] Abbreviation findValueForUniqueKey := (findValueForUniqueKey rangeData).
#[local] Abbreviation findValueForCombination := (findValueForCombination rangeData).

Lemma fillRow_go_lookup (cell : string -> option string) (keys : list string)
    (L i : nat) :
  length keys <= L ->
  foldl (fun row '(colIdx, uniqueKey) =>
           match cell uniqueKey with
           | Some text => <[ colIdx := text ]> row
           | None => row
           end)
        (replicate L EmptyString) (imap pair keys) !! i
  = if decide (i < length keys)
    then (fun k => default EmptyString (cell k)) <$> keys !! i
    else replicate L EmptyString !! i.
Proof.
  induction keys as [|k keys IH] using rev_ind; intros HL; [done|].
  rewrite length_app in HL. cbn in HL.
  rewrite imap_app, foldl_app. cbn [imap foldl]. rewrite Nat.add_0_r.
  set (row := foldl _ _ (imap pair keys)) in *.
  assert (length row = L) as Hrow.
  { subst row. by rewrite fillRow_go_length, length_replicate. }
  rewrite length_app. cbn [length].
  destruct (decide (i = length keys)) as [->|Hne].
  - rewrite decide_True by lia. rewrite lookup_app_r by lia.
    rewrite Nat.sub_diag. cbn. destruct (cell k) as [text|] eqn:Hc.
    + rewrite list_lookup_insert_eq by lia. done.
    + rewrite IH by lia. rewrite decide_False by lia.
      rewrite lookup_replicate_2 by lia. done.
  - assert ((match cell k with
             | Some text => <[length keys:=text]> row
             | None => row
             end) !! i = row !! i) as ->.
    { destruct (cell k); [|done]. by rewrite list_lookup_insert_ne. }
    rewrite IH by lia. destruct (decide (i < length keys)).
    + rewrite decide_True by lia. by rewrite lookup_app_l by lia.
    + rewrite decide_False by lia. done.
Qed.

Lemma fillRow_lookup cell keys i k :
  keys !! i = Some k ->
  fillRow cell keys !! i = Some (default EmptyString (cell k)).
Proof.
  intros Hk. unfold fillRow. rewrite fillRow_go_lookup by done.
  rewrite decide_True by (by eapply lookup_lt_Some). by rewrite Hk.
Qed.

(** A field that the flat data holds under the very name of a column,
    so a field outside every array, fills that column in every row. *)
Theorem plain_field_repeated_in_rows (data : gmap string value)
    (uniqueKeys : list string) (i : nat) (k : string) (v : value)
    (row : list string) :
  data !! k = Some v -> uniqueKeys !! i = Some k ->
  row ∈ generateCSVRows data uniqueKeys ->
  row !! i = Some (formatValue v).
Proof.
  intros Hk Hi. unfold Transform.generateCSVRows. case_decide.
  - intros ->%list_elem_of_singleton. rewrite (fillRow_lookup _ _ _ _ Hi).
    unfold Transform.findValueForUniqueKey. rewrite Hk. by destruct v.
  - rewrite rows_go_spec. cbn [app]. intros (c & -> & _)%list_elem_of_fmap.
    rewrite (fillRow_lookup _ _ _ _ Hi). cbn.
    unfold Transform.findValueForCombination. by rewrite Hk.
Qed.

(** Every result of a batch gets the columns of the whole batch, one
    column for each field of each result, and rows with one cell per
    column; its data is not touched. *)
Theorem convertToCSV_batch_columns (results : list TransformedResult) :
  TransformedData <$> convertToCSV results = TransformedData <$> results /\
  forall r, r ∈ convertToCSV results ->
    CSVHeaders r = analyzeUniqueKeys results /\
    (forall row, row ∈ CSVData r -> length row = length (CSVHeaders r)) /\
    (forall r' k, r' ∈ results -> k ∈ dom (TransformedData r') ->
                  removeArrayIndices k ∈ CSVHeaders r).
Proof.
  unfold Transform.convertToCSV. destruct results as [|r0 results].
  { split; [done|]. by intros r ?%elem_of_nil. }
  set (rs := r0 :: results). split.
  - rewrite <- list_fmap_compose. by apply list_fmap_ext.
  - intros r (r1 & -> & Hr1)%list_elem_of_fmap. cbn. split_and!; [done| |].
    + intros row. apply generateCSVRows_row_length.
    + intros r' k Hr' Hk. apply elem_of_analyzeUniqueKeys. eauto.
Qed.

End TableFactsRows.

Lemma plain_field_repeated_in_rows_witness :
  ["3"; "n"] !! 1 = Some (formatValue (fun _ => "0") (fun _ => "?") (VString "n")).
Proof.
  apply (plain_field_repeated_in_rows map_to_list (fun _ => "0") (fun _ => "?")
           {[ "name" := VString "n"; "count" := VInt 3 ]} ["count"; "name"]
           1 "name" (VString "n") ["3"; "n"]).
  - reflexivity.
  - reflexivity.
  - assert (generateCSVRows map_to_list (fun _ => "0") (fun _ => "?")
              {[ "name" := VString "n"; "count" := VInt 3 ]} ["count"; "name"]
            = [["3"; "n"]]) as -> by (vm_compute; reflexivity).
    apply list_elem_of_here.
Defined.

End TableFacts.

(* ===================================================================== *)
(** * Facts: the metrics collector *)
(* ===================================================================== *)

Module MetricsFacts.
Import GoStrings Utils Conversion Metrics Pipeline.

Lemma wrapInt64_add_l a b : wrapInt64 (wrapInt64 a + b) = wrapInt64 (a + b).
Proof.
  unfold wrapInt64. f_equal.
  replace ((a + 2 ^ 63) mod 2 ^ 64 - 2 ^ 63 + b + 2 ^ 63)%Z
    with ((a + 2 ^ 63) mod 2 ^ 64 + b)%Z by lia.
  rewrite Zplus_mod_idemp_l. f_equal. lia.
Qed.

Lemma wrapInt64_id z : (- 2 ^ 63 <= z < 2 ^ 63)%Z -> wrapInt64 z = z.
Proof. intros H. unfold wrapInt64. rewrite Z.mod_small by lia. lia. Qed.

(** The average that a success stores is the old one plus the duration
    divided by the number of successes: it is not the mean of the
    durations, and it never goes down. *)
Theorem success_average_law (c : Collector) (name : string) (m : PipelineMetrics)
    (duration entries bytes : Z) :
  configEnabled c = true ->
  pipelineMetrics c !! name = Some m ->
  (0 <= SuccessfulRuns m < 2 ^ 63 - 1)%Z ->
  (0 <= AverageProcessTime m)%Z -> (0 <= duration)%Z ->
  ((SuccessfulRuns m + 1) * AverageProcessTime m + duration < 2 ^ 63)%Z ->
  exists m',
    pipelineMetrics (RecordPipelineSuccess c name duration entries bytes) !! name
      = Some m' /\
    SuccessfulRuns m' = (SuccessfulRuns m + 1)%Z /\
    AverageProcessTime m' =
      (AverageProcessTime m + duration / (SuccessfulRuns m + 1))%Z /\
    (AverageProcessTime m <= AverageProcessTime m')%Z.
Proof.
  intros Hen Hm HS HA Hd Hfit. unfold RecordPipelineSuccess. rewrite Hen, Hm. cbn.
  rewrite lookup_insert_eq. eexists. split; [done|]. cbn.
  assert (wrapInt64 (SuccessfulRuns m + 1) = SuccessfulRuns m + 1)%Z as Hw.
  { apply wrapInt64_id. lia. }
  rewrite Hw. unfold nextAverage. rewrite decide_True by lia.
  rewrite (wrapInt64_id ((SuccessfulRuns m + 1) * AverageProcessTime m)) by nia.
  rewrite wrapInt64_id by nia.
  rewrite Z.quot_div_nonneg by nia.
  rewrite (Z.mul_comm (SuccessfulRuns m + 1)), Z.div_add_l by lia.
  split_and!; [done|done|].
  pose proof (Z.div_pos duration (SuccessfulRuns m + 1)). lia.
Qed.

Lemma success_average_law_witness :
  exists m',
    pipelineMetrics (RecordPipelineSuccess oneRun "orders" 50 1 1) !! "orders"
      = Some m' /\
    SuccessfulRuns m' = (1 + 1)%Z /\
    AverageProcessTime m' = (100 + 50 / (1 + 1))%Z /\
    (100 <= AverageProcessTime m')%Z.
Proof.
  apply (success_average_law oneRun "orders" ordersAfterOneRun 50 1 1).
  - reflexivity.
  - vm_compute. reflexivity.
  - cbn. lia.
  - cbn. lia.
  - lia.
  - cbn. lia.
Defined.

Lemma wrapInt64_add_r a b : wrapInt64 (a + wrapInt64 b) = wrapInt64 (a + b).
Proof. by rewrite Z.add_comm, wrapInt64_add_l, Z.add_comm. Qed.

Lemma tallied_start_success c name now duration entries bytes :
  tallied c ->
  tallied (RecordPipelineSuccess (RecordPipelineStart c name now) name
             duration entries bytes).
Proof.
  destruct c as [[] pm sm]; [|done]. intros Hc.
  unfold RecordPipelineStart, RecordPipelineSuccess, withPipeline.
  cbn [configEnabled pipelineMetrics systemMetrics negb].
  rewrite lookup_insert_eq. cbn [configEnabled pipelineMetrics systemMetrics negb].
  intros n m. cbn [pipelineMetrics].
  destruct (decide (n = name)) as [->|Hne].
  - rewrite lookup_insert_eq. intros [= <-]. unfold runsAddUp. cbn.
    rewrite wrapInt64_add_l.
    destruct (pm !! name) as [m0|] eqn:Hm0; cbn.
    + rewrite (Hc name m0 Hm0). rewrite wrapInt64_add_l. f_equal. lia.
    + done.
  - rewrite !lookup_insert_ne by done. apply Hc.
Qed.

Lemma tallied_start_failure c name now duration err failedAt :
  tallied c ->
  tallied (RecordPipelineFailure (RecordPipelineStart c name now) name
             duration err failedAt).
Proof.
  destruct c as [[] pm sm]; [|done]. intros Hc.
  unfold RecordPipelineStart, RecordPipelineFailure, withPipeline.
  cbn [configEnabled pipelineMetrics systemMetrics negb].
  rewrite lookup_insert_eq. cbn [configEnabled pipelineMetrics systemMetrics negb].
  intros n m. cbn [pipelineMetrics].
  destruct (decide (n = name)) as [->|Hne].
  - rewrite lookup_insert_eq. intros [= <-]. unfold runsAddUp. cbn.
    rewrite wrapInt64_add_r.
    destruct (pm !! name) as [m0|] eqn:Hm0; cbn.
    + rewrite (Hc name m0 Hm0). rewrite wrapInt64_add_l. f_equal. lia.
    + done.
  - rewrite !lookup_insert_ne by done. apply Hc.
Qed.

Lemma tallied_status c name enabled :
  tallied c -> tallied (UpdatePipelineStatus c name enabled).
Proof.
  destruct c as [[] pm sm]; [|done]. intros Hc.
  unfold UpdatePipelineStatus, withPipeline.
  cbn [configEnabled pipelineMetrics systemMetrics negb].
  destruct (pm !! name) as [m0|] eqn:Hm0; intros n m; cbn [pipelineMetrics];
    (destruct (decide (n = name)) as [->|Hne];
     [rewrite lookup_insert_eq; intros [= <-]|rewrite lookup_insert_ne by done; apply Hc]).
  - apply (Hc name m0 Hm0).
  - done.
Qed.

(** When the executions of a pipeline do not overlap, the runs counted
    for it add up after every execution: the total is the number of
    successes plus the number of failures. *)
Theorem settled_runs_add_up (responseSize : Extract.Result -> option Z)
    (c : Collector) (name : string) (m : PipelineMetrics) :
  settled responseSize c ->
  pipelineMetrics c !! name = Some m ->
  TotalRuns m = wrapInt64 (SuccessfulRuns m + FailedRuns m).
Proof.
  intros Hs. revert name m. change (tallied c).
  induction Hs as [enabled|c pname now elapsed failedAt extracted transform load _ IH
                  |c pname enabled _ IH|c now _ IH|c sys alloc goroutines _ IH].
  - intros n m. unfold NewCollector. cbn [pipelineMetrics]. by rewrite lookup_empty.
  - unfold execute. destruct extracted as [extractResults|err].
    + case_decide; [by apply tallied_start_success|].
      destruct (transform extractResults) as [transformResults|err];
        [|by apply tallied_start_failure].
      destruct (load transformResults);
        [by apply tallied_start_failure|by apply tallied_start_success].
    + by apply tallied_start_failure.
  - by apply tallied_status.
  - unfold RecordConfigReload. by destruct (configEnabled c).
  - intros n m. unfold updateSystemMetrics. cbn [pipelineMetrics].
    rewrite lookup_fmap. destruct (pipelineMetrics c !! n) as [m0|] eqn:Hm0; [|done].
    intros [= <-]. apply (IH n m0 Hm0).
Qed.

Lemma settled_runs_add_up_witness :
  TotalRuns ordersAfterFailure
    = wrapInt64 (SuccessfulRuns ordersAfterFailure + FailedRuns ordersAfterFailure).
Proof.
  apply (settled_runs_add_up (fun _ => None) failedOnce "orders").
  - apply settled_execute, settled_new.
  - vm_compute. reflexivity.
Defined.

(** No call takes a pipeline out of the table. *)
Theorem pipelines_never_forgotten (c : Collector) (x : call) :
  dom (pipelineMetrics c) ⊆ dom (pipelineMetrics (perform c x)).
Proof.
  destruct c as [[] pm sm];
    destruct x as [name now|name duration entries bytes|name duration err now
                  |name enabled|now|sys alloc goroutines];
    unfold perform, RecordPipelineStart, RecordPipelineSuccess,
      RecordPipelineFailure, UpdatePipelineStatus, RecordConfigReload,
      updateSystemMetrics, withPipeline;
    cbn [configEnabled pipelineMetrics systemMetrics negb]; try done;
    try (by rewrite dom_fmap_L);
    try (destruct (pm !! name); cbn [pipelineMetrics]; try done);
    rewrite dom_insert; set_solver.
Qed.

(** The system metrics count the pipelines of the table and, among them,
    the enabled ones. *)
Theorem active_pipelines_counted (c : Collector) (uptime : Z) :
  TotalPipelines (GetSystemMetrics c uptime)
    = Z.of_nat (size (pipelineMetrics c)) /\
  ActivePipelines (GetSystemMetrics c uptime)
    = Z.of_nat (size (filter (fun kv => Enabled kv.2 = true) (pipelineMetrics c))) /\
  (0 <= ActivePipelines (GetSystemMetrics c uptime)
     <= TotalPipelines (GetSystemMetrics c uptime))%Z.
Proof.
  cbn.
  assert (map_fold (fun _ m n => if Enabled m then (n + 1)%Z else n) 0%Z
                   (pipelineMetrics c)
          = Z.of_nat (size (filter (fun kv => Enabled kv.2 = true) (pipelineMetrics c))))
    as ->.
  { apply (map_fold_weak_ind
             (fun n (pm : gmap string PipelineMetrics) =>
                n = Z.of_nat (size (filter (fun kv => Enabled kv.2 = true) pm)))).
    - by rewrite map_filter_empty, map_size_empty.
    - intros i x pm n Hi ->. destruct (Enabled x) eqn:Hx.
      + rewrite map_filter_insert_True by done.
        rewrite map_size_insert_None; [lia|].
        apply map_lookup_filter_None. by left.
      + rewrite map_filter_insert_not' by (cbn; congruence || (intros; cbn; congruence)).
        done. }
  split_and!; [done|done|lia|].
  apply inj_le. apply map_subseteq_size, map_filter_subseteq.
Qed.

End MetricsFacts.

(* ===================================================================== *)
(** * Facts: the loader, the csv stream, validation *)
(* ===================================================================== *)

Module LoaderFacts.
Import GoStrings Utils Transform Conversion Loader GoStringsFacts TransformFacts ConversionFacts.

Lemma omap_ext_in {A B} (f g : A -> option B) (l : list A) :
  (forall x, x ∈ l -> f x = g x) -> omap f l = omap g l.
Proof.
  induction l as [|a l IH]; intros H; [done|]. cbn.
  rewrite (H a) by left. rewrite IH; [done|]. intros x Hx. apply H. by right.
Qed.

Lemma omap_seq_lookup {A B} (f : A -> option B) (l : list A) :
  omap (fun i => l !! i ≫= f) (seq 0 (length l)) = omap f l.
Proof.
  induction l as [|a l IH] using rev_ind; [done|].
  rewrite length_app. cbn [length]. rewrite Nat.add_1_r, seq_S, !omap_app.
  rewrite Nat.add_0_l. f_equal.
  - rewrite <- IH. apply omap_ext_in. intros i Hi%elem_of_seq.
    by rewrite lookup_app_l by lia.
  - assert ((l ++ [a]) !! length l = Some a) as Hl.
    { rewrite lookup_app_r by lia. by rewrite Nat.sub_diag. }
    cbn. by rewrite Hl.
Qed.

(** The error a stream contributes. *)
Lemma sentError_seq streams results :
  omap (sentError streams results) (seq 0 (length streams))
  = omap (fun s => (fun err => "stream " +:+ GetType s +:+ ": " +:+ err)
                     <$> StreamLoad s results) streams.
Proof.
  rewrite <- (omap_seq_lookup _ streams). apply omap_ext_in. intros i _.
  unfold sentError. destruct (streams !! i) as [s|]; [|done]. cbn.
  by destruct (StreamLoad s results).
Qed.

(** [Loader.Load] fails exactly when some stream fails, whatever the
    order in which the streams finish; its error lists the errors of
    all the streams that failed, each with the type of its stream. *)
Theorem load_fails_iff_stream_fails (streams : list Stream)
    (results : list Transformed) (completion : list nat) :
  completion ≡ₚ seq 0 (length streams) ->
  (is_Some (Load streams results completion) <->
     exists s, s ∈ streams /\ is_Some (StreamLoad s results)) /\
  (forall msg, Load streams results completion = Some msg ->
     exists errors,
       msg = "load errors: [" +:+ Join errors " " +:+ "]" /\
       errors ≡ₚ omap (fun s => (fun err => "stream " +:+ GetType s +:+ ": " +:+ err)
                                  <$> StreamLoad s results) streams).
Proof.
  intros Hperm.
  assert (omap (sentError streams results) completion
          ≡ₚ omap (fun s => (fun err => "stream " +:+ GetType s +:+ ": " +:+ err)
                              <$> StreamLoad s results) streams) as Herrs.
  { rewrite Hperm. by rewrite sentError_seq. }
  unfold Load. split.
  - case_decide as Hd.
    + split; [intros _|by eauto].
      destruct (omap (sentError streams results) completion) as [|e errs] eqn:E;
        [cbn in Hd; lia|].
      assert (e ∈ omap (fun s => (fun err => "stream " +:+ GetType s +:+ ": " +:+ err)
                                   <$> StreamLoad s results) streams) as He.
      { rewrite <- Herrs. left. }
      apply list_elem_of_omap in He as (s & Hs & Hl). exists s. split; [done|].
      destruct (StreamLoad s results); [by eauto|done].
    + split; [by intros [? ?]|]. intros (s & Hs & [err Hl]). exfalso. apply Hd.
      assert (("stream " +:+ GetType s +:+ ": " +:+ err)
              ∈ omap (sentError streams results) completion) as He.
      { rewrite Herrs. apply list_elem_of_omap. exists s. split; [done|].
        by rewrite Hl. }
      destruct (omap (sentError streams results) completion);
        [by apply elem_of_nil in He|cbn; lia].
  - intros msg. case_decide; [|done]. intros [= <-]. by eexists.
Qed.

Lemma load_fails_iff_stream_fails_witness :
  (is_Some (Load twoStreams [] [1; 0]) <->
     exists s, s ∈ twoStreams /\ is_Some (StreamLoad s [])) /\
  (forall msg, Load twoStreams [] [1; 0] = Some msg ->
     exists errors,
       msg = "load errors: [" +:+ Join errors " " +:+ "]" /\
       errors ≡ₚ omap (fun s => (fun err => "stream " +:+ GetType s +:+ ": " +:+ err)
                                  <$> StreamLoad s []) twoStreams).
Proof.
  apply (load_fails_iff_stream_fails twoStreams [] [1; 0]).
  apply perm_swap.
Defined.

(** The message of the loader when the first of two streams fails. *)
Example one_stream_fails :
  Load twoStreams [] [1; 0]
  = Some "load errors: [stream gem: GEM returned status 500]".
Proof. vm_compute. reflexivity. Qed.

(** *** The csv stream on the tables of a batch *)

Lemma productOver_pos data (paths : gset string) :
  paths ⊆ observedPaths data -> 0 < productOver data paths.
Proof.
  intros Hsub. unfold productOver, set_fold. cbn.
  assert (Forall (fun p => 0 < size (observedIndices data p)) (elements paths)) as Hall.
  { apply Forall_forall. intros p Hp%elem_of_elements%Hsub.
    apply elem_of_observedPaths in Hp as (k & Hk & Hs & Hp).
    assert ((extractArrayPathAndIndex k).2 ∈ observedIndices data p) as Hi.
    { apply elem_of_observedIndices. exists k. split_and!; [done..|].
      rewrite <- Hp. by destruct (extractArrayPathAndIndex k). }
    destruct (decide (size (observedIndices data p) = 0)) as [Hz|]; [|lia].
    apply size_empty_inv in Hz. set_solver. }
  induction Hall as [|p l Hp _ IH]; cbn; [lia|nia].
Qed.

Section CSVFacts.
Variable rangeData : gmap string value -> list (string * value).
Variable Sprintf_f15 : float64 -> string.
Variable Sprintf_v : value -> string.

#[local] Abbreviation generateCSVRows := (Transform.generateCSVRows rangeData Sprintf_f15 Sprintf_v).
#[local] Abbreviation convertToCSV := (Transform.convertToCSV rangeData Sprintf_f15 Sprintf_v).

Lemma generateCSVRows_pos data uniqueKeys :
  0 < length (generateCSVRows data uniqueKeys).
Proof.
  rewrite generateCSVRows_length, generateArrayCombinations_length.
  apply productOver_pos. set_solver.
Qed.

Lemma csvRecords_tables (results : list Transformed) :
  csvRecords results
  = concat
      (imap (fun i table =>
               if decide (0 < length (Transform.CSVHeaders table)
                          ∧ 0 < length (Transform.CSVData table))
               then (if decide (i = 0) then [Transform.CSVHeaders table] else [])
                      ++ Transform.CSVData table
               else [])
            (Table <$> results)).
Proof. unfold csvRecords. by rewrite imap_fmap. Qed.

Lemma Table_withTables (results : list Transformed) tables :
  length tables = length results ->
  Table <$> withTables results tables = tables.
Proof.
  unfold withTables. revert tables.
  induction results as [|r results IH]; intros [|t tables] Hlen; try done.
  cbn. f_equal. apply IH. cbn in Hlen. lia.
Qed.

(** The csv file of a batch that [Transform] has tabulated: when the
    batch has at least one field, the columns once and then the rows of
    every result, in the order of the results; otherwise nothing. *)
Theorem csv_file_of_batch (results : list Transformed) :
  let uniqueKeys := Transform.analyzeUniqueKeys (Table <$> results) in
  let tables := convertToCSV (Table <$> results) in
  csvRecords (withTables results tables)
  = if decide (uniqueKeys = []) then []
    else uniqueKeys :: concat (Transform.CSVData <$> tables).
Proof.
  intros uniqueKeys tables.
  rewrite csvRecords_tables, Table_withTables
    by (subst tables; by rewrite convertToCSV_length, length_fmap).
  subst tables. unfold Transform.convertToCSV.
  destruct (Table <$> results) as [|t ts] eqn:E.
  { subst uniqueKeys. by case_decide. }
  fold uniqueKeys. rewrite imap_fmap. case_decide as Hk.
  - rewrite Hk. clear. generalize (t :: ts). intros l.
    induction l as [|a l IH] using rev_ind; [done|].
    rewrite imap_app, concat_app, IH. cbn. rewrite decide_False; [done|].
    cbn. lia.
  - assert (0 < length uniqueKeys) by (destruct uniqueKeys; [done|cbn; lia]).
    cbn [imap concat fmap list_fmap]. cbn [Transform.CSVHeaders Transform.CSVData compose].
    rewrite decide_True by (split; [done|apply generateCSVRows_pos]).
    rewrite decide_True by done. cbn [app]. f_equal. f_equal.
    rewrite <- list_fmap_compose.
    rewrite (imap_ext _ (fun _ r => generateCSVRows (TransformedData r) uniqueKeys) ts).
    { f_equal. apply (imap_const (fun r => generateCSVRows (TransformedData r) uniqueKeys)). }
    intros i x _. cbn.
    rewrite decide_True by (split; [done|apply generateCSVRows_pos]).
    by rewrite decide_False by lia.
Qed.

End CSVFacts.

End LoaderFacts.

Module ConfigFacts.
Import GoStrings Utils Conversion TimeCheck Config.

Lemma minLen_le (cfg : Extract.ExtractConfig) :
  Extract.minLen cfg <= length (Extract.URLs cfg) /\
  Extract.minLen cfg <= length (Extract.ClusterNames cfg).
Proof. unfold Extract.minLen. repeat case_decide; lia. Qed.

Lemma minLen_pos (cfg : Extract.ExtractConfig) :
  length (Extract.URLs cfg) <> 0 -> length (Extract.ClusterNames cfg) <> 0 ->
  Extract.minLen cfg <> 0.
Proof. unfold Extract.minLen. repeat case_decide; lia. Qed.

Lemma conversionProblem_None name j convs :
  conversionProblem name j convs = None <->
  Forall (fun conv => Field conv <> EmptyString /\ Function conv <> EmptyString)
         convs.
Proof.
  revert j. induction convs as [|conv convs IH]; intros j; cbn.
  - split; [by constructor|done].
  - destruct (String.eqb (Field conv) EmptyString) eqn:Ef.
    { apply String.eqb_eq in Ef. split; [done|]. intros [[? _] _]%Forall_cons. done. }
    destruct (String.eqb (Function conv) EmptyString) eqn:En.
    { apply String.eqb_eq in En. split; [done|]. intros [[_ ?] _]%Forall_cons. done. }
    apply String.eqb_neq in Ef, En. rewrite IH, Forall_cons. tauto.
Qed.

Lemma endpointProblem_None name urls clusterNames j n :
  endpointProblem name urls clusterNames j n = None <->
  forall i, j <= i < j + n ->
    default EmptyString (urls !! i) <> EmptyString /\
    default EmptyString (clusterNames !! i) <> EmptyString.
Proof.
  revert j. induction n as [|n IH]; intros j; cbn.
  - split; [intros _ i; lia|done].
  - destruct (String.eqb (default EmptyString (urls !! j)) EmptyString) eqn:Eu.
    { apply String.eqb_eq in Eu. split; [done|]. intros H.
      destruct (H j); [lia|done]. }
    destruct (String.eqb (default EmptyString (clusterNames !! j)) EmptyString) eqn:Ec.
    { apply String.eqb_eq in Ec. split; [done|]. intros H.
      destruct (H j); [lia|done]. }
    apply String.eqb_neq in Eu, Ec. rewrite IH. split.
    + intros H i Hi. destruct (decide (i = j)) as [->|]; [done|]. apply H. lia.
    + intros H i Hi. apply H. lia.
Qed.

Lemma validatePipeline_None i pipeline :
  validatePipeline i pipeline = None <-> runnable pipeline.
Proof.
  unfold validatePipeline, runnable.
  pose proof (minLen_le (Extract pipeline)) as [Hu Hc].
  destruct (String.eqb (Name pipeline) EmptyString) eqn:En.
  { apply String.eqb_eq in En. split; [done|]. by intros [? _]. }
  apply String.eqb_neq in En.
  case_decide as Hi. { split; [done|]. intros (_ & ? & _). lia. }
  case_decide as Hurl. { split; [done|]. intros (_ & _ & _ & _ & _ & _ & _ & ? & _). lia. }
  case_decide as Hcl. { split; [done|]. intros (_ & _ & _ & _ & _ & _ & _ & ? & _). lia. }
  destruct (String.eqb (Extract.ElasticsearchQuery (Extract pipeline)) EmptyString) eqn:Eq.
  { apply String.eqb_eq in Eq. split; [done|]. by intros (_ & _ & ? & _). }
  apply String.eqb_neq in Eq.
  case_decide as Hs.
  { split; [done|]. intros (_ & _ & _ & ? & _). by destruct (Streams pipeline). }
  destruct (conversionProblem (Name pipeline) 0 (ConversionFunctions pipeline)) as [p|] eqn:Econv.
  { split; [done|]. intros (_ & _ & _ & _ & Hall & _).
    apply (conversionProblem_None (Name pipeline) 0) in Hall. congruence. }
  apply conversionProblem_None in Econv.
  destruct (ValidateTimeExpression (StartTime pipeline)) as [err|] eqn:Est.
  { split; [done|]. by intros (_ & _ & _ & _ & _ & ? & _). }
  destruct (ValidateTimeExpression (EndTime pipeline)) as [err|] eqn:Eet.
  { split; [done|]. by intros (_ & _ & _ & _ & _ & _ & ? & _). }
  rewrite decide_False by (by apply minLen_pos).
  pose proof (minLen_pos (Extract pipeline) Hurl Hcl) as Hpos.
  rewrite endpointProblem_None. split.
  - intros H. split_and!; try done; [lia|by destruct (Streams pipeline)|lia|].
    intros j Hj. destruct (H j) as [Hju Hjc]; [lia|].
    destruct (Extract.URLs (Extract pipeline) !! j) as [url|]; [|done].
    destruct (Extract.ClusterNames (Extract pipeline) !! j) as [cluster|]; [|done].
    by exists url, cluster.
  - intros (_ & _ & _ & _ & _ & _ & _ & _ & H) j Hj.
    destruct (H j) as (url & cluster & -> & ? & -> & ?); [lia|]. done.
Qed.

Lemma validatePipelines_None i pipelines :
  validatePipelines i pipelines = None <-> Forall runnable pipelines.
Proof.
  revert i. induction pipelines as [|p ps IH]; intros i; cbn.
  - split; [by constructor|done].
  - rewrite Forall_cons, <- (validatePipeline_None i), <- (IH (S i)).
    destruct (validatePipeline i p); [|tauto]. split; [done|]. by intros [? _].
Qed.

(** [validateConfig] accepts exactly the configurations with at least
    one pipeline all of whose pipelines can be run; in such a pipeline
    [Extract] issues at least one endpoint call, and every call it
    issues has a URL and a cluster name. *)
Theorem validateConfig_accepts_runnable (pipelines : list PipelineConfig) :
  validateConfig pipelines = None <->
  pipelines <> [] /\ Forall runnable pipelines.
Proof.
  unfold validateConfig. case_decide as Hlen.
  - split; [done|]. intros [Hne _]. by destruct pipelines.
  - rewrite validatePipelines_None. split; [|tauto].
    intros H. split; [|done]. by destruct pipelines.
Qed.

Lemma conversionProblem_kind name j convs p :
  conversionProblem name j convs = Some p -> forall n, p <> NoEndpoint n.
Proof.
  revert j. induction convs as [|conv convs IH]; intros j; cbn; [done|].
  destruct (String.eqb (Field conv) EmptyString); [by intros [= <-]|].
  destruct (String.eqb (Function conv) EmptyString); [by intros [= <-]|].
  apply IH.
Qed.

Lemma endpointProblem_kind name urls clusterNames j n p :
  endpointProblem name urls clusterNames j n = Some p ->
  forall n', p <> NoEndpoint n'.
Proof.
  revert j. induction n as [|n IH]; intros j; cbn; [done|].
  destruct (String.eqb (default EmptyString (urls !! j)) EmptyString);
    [by intros [= <-]|].
  destruct (String.eqb (default EmptyString (clusterNames !! j)) EmptyString);
    [by intros [= <-]|].
  apply IH.
Qed.

Lemma validatePipeline_kind i pipeline p :
  validatePipeline i pipeline = Some p -> forall n, p <> NoEndpoint n.
Proof.
  unfold validatePipeline.
  destruct (String.eqb (Name pipeline) EmptyString); [by intros [= <-]|].
  case_decide; [by intros [= <-]|].
  case_decide as Hurl; [by intros [= <-]|].
  case_decide as Hcl; [by intros [= <-]|].
  destruct (String.eqb (Extract.ElasticsearchQuery (Extract pipeline)) EmptyString);
    [by intros [= <-]|].
  case_decide; [by intros [= <-]|].
  destruct (conversionProblem _ _ _) as [q|] eqn:Econv.
  { intros [= <-]. by eapply conversionProblem_kind. }
  destruct (ValidateTimeExpression (StartTime pipeline)); [by intros [= <-]|].
  destruct (ValidateTimeExpression (EndTime pipeline)); [by intros [= <-]|].
  rewrite decide_False by (by apply minLen_pos).
  apply endpointProblem_kind.
Qed.

(** The check of the number of endpoints never fails: a pipeline that
    reaches it has a URL and a cluster name, hence at least one endpoint,
    so that no configuration is rejected for having no valid endpoint. *)
Theorem endpoint_count_check_never_fails (pipelines : list PipelineConfig)
    (p : problem) :
  validateConfig pipelines = Some p -> forall name, p <> NoEndpoint name.
Proof.
  unfold validateConfig. case_decide as Hlen; [by intros [= <-]|]. clear Hlen.
  generalize 0. induction pipelines as [|pipeline ps IH]; intros i; cbn; [done|].
  destruct (validatePipeline i pipeline) as [q|] eqn:E.
  - intros [= <-]. by eapply validatePipeline_kind.
  - apply IH.
Qed.

Lemma endpoint_count_check_never_fails_witness :
  validateConfig [noURLPipeline] = Some (NoURL "orders") /\
  NoURL "orders" <> NoEndpoint "orders".
Proof.
  split; [reflexivity|].
  apply (endpoint_count_check_never_fails [noURLPipeline] (NoURL "orders")).
  reflexivity.
Defined.

(** A pipeline with two endpoints passes the check. *)
Example orders_pipeline_accepted : validateConfig [ordersPipeline] = None.
Proof. vm_compute. reflexivity. Qed.

End ConfigFacts.

(* ===================================================================== *)
(** * Facts: index segments, headers and the row count *)
(* ===================================================================== *)

Module IndexSegmentFacts.
Import GoStrings Strconv Utils Transform IndexSegments.
Import GoStringsFacts UtilsFacts TransformFacts.

(** *** Bytes and offsets *)

Lemma digit_not_open c : isDigit c = true -> byte_eqb c "[" = false.
Proof. by_bytes c. Qed.

Lemma dropBytes_succ s n : dropBytes (S n) s = dropBytes 1 (dropBytes n s).
Proof.
  revert n. induction s as [|c s IH]; intros [|n]; try done. simpl. apply IH.
Qed.

Lemma dropBytes_past p c r : dropBytes (S (String.length p)) (p +:+ String c r) = r.
Proof. by rewrite dropBytes_succ, dropBytes_app. Qed.

Lemma rev_nil_iff (a : string) : String.rev a = EmptyString <-> a = EmptyString.
Proof.
  destruct a as [|c a]; [done|]. rewrite rev_cons. split; [|done].
  destruct (String.rev a); done.
Qed.

(** *** The segment at the head of a text *)

Lemma segmentAt_inv s ds :
  segmentAt s = Some ds ->
  isDigits ds = true /\ exists rest, s = String "[" (ds +:+ String "]" rest).
Proof.
  destruct s as [|c s]; [done|]. unfold segmentAt.
  destruct (byte_eqb c "[") eqn:Hc; [|done]. apply byte_eqb_eq in Hc as ->.
  destruct (isDigits (takeWhile isDigit s)) eqn:Hd; [|done].
  destruct (HasPrefix (skipWhile isDigit s) "]") eqn:Hp; [|done].
  cbn [andb]. intros [= <-]. split; [done|].
  destruct (skipWhile isDigit s) as [|d rest] eqn:Hskip; [done|].
  rewrite HasPrefix_cons in Hp. apply andb_prop in Hp as [Hb%byte_eqb_eq _].
  subst d. exists rest. f_equal. rewrite <- Hskip. apply takeWhile_skipWhile.
Qed.

Lemma segmentAt_intro ds rest :
  isDigits ds = true -> segmentAt (String "[" (ds +:+ String "]" rest)) = Some ds.
Proof.
  intros Hds. pose proof Hds as [_ Hall]%isDigits_alt. unfold segmentAt.
  assert (headFails isDigit (String "]" rest)) as Hrest by reflexivity.
  rewrite (takeWhile_app _ _ _ Hall Hrest), (skipWhile_app _ _ _ Hall Hrest).
  by rewrite Hds, HasPrefix_cons, HasPrefix_nil.
Qed.

Lemma segmentAt_prefix s ds :
  segmentAt s = Some ds <->
  isDigits ds = true /\ HasPrefix s ("[" +:+ ds +:+ "]") = true.
Proof.
  split.
  - intros [Hds [rest ->]]%segmentAt_inv. split; [done|].
    replace (String "[" (ds +:+ String "]" rest))
      with (("[" +:+ ds +:+ "]") +:+ rest) by (by norm_app).
    apply HasPrefix_app.
  - intros [Hds Hp]. apply HasPrefix_inv in Hp. rewrite Hp.
    replace (("[" +:+ ds +:+ "]") +:+ dropBytes (String.length ("[" +:+ ds +:+ "]")) s)
      with (String "[" (ds +:+ String "]" (dropBytes (String.length ("[" +:+ ds +:+ "]")) s)))
      by (by norm_app).
    by apply segmentAt_intro.
Qed.

Lemma segmentAt_not_open c s : byte_eqb c "[" = false -> segmentAt (String c s) = None.
Proof. intros H. unfold segmentAt. by rewrite H. Qed.

(** *** The tokens of the regular expression, segment by segment *)

Lemma tokenize_digits ds rest :
  allBytes isDigit ds = true ->
  tokenize_go None (ds +:+ rest)
    = (TByte <$> list_ascii_of_string ds) ++ tokenize_go None rest.
Proof.
  induction ds as [|c ds IH]; [done|].
  cbn [allBytes]. intros [Hc Hds]%andb_prop.
  rewrite string_app_cons. cbn [tokenize_go list_ascii_of_string].
  rewrite (digit_not_open c Hc), IH by done. done.
Qed.

Lemma tokenize_pending rds s :
  tokenize_go (Some rds) s =
    if HasPrefix (skipWhile isDigit s) "]"
       && negb (String.eqb (String.rev rds +:+ takeWhile isDigit s) EmptyString)
    then TIndex (String.rev rds +:+ takeWhile isDigit s)
           :: tokenize_go None (dropBytes 1 (skipWhile isDigit s))
    else TByte "[" :: (TByte <$> list_ascii_of_string
                         (String.rev rds +:+ takeWhile isDigit s))
           ++ tokenize_go None (skipWhile isDigit s).
Proof.
  revert rds. induction s as [|c s IH]; intros rds.
  - cbn. by rewrite string_app_nil_r, app_nil_r.
  - cbn [tokenize_go takeWhile skipWhile]. destruct (isDigit c) eqn:Hd.
    + rewrite IH, rev_cons, !string_app_assoc. done.
    + rewrite string_app_nil_r. cbn [HasPrefix dropBytes].
      rewrite HasPrefix_nil, andb_true_r.
      assert (String.eqb (String.rev rds) EmptyString = String.eqb rds EmptyString) as ->.
      { destruct (String.eqb_spec rds EmptyString) as [->|Hne]; [done|].
        apply String.eqb_neq. by rewrite rev_nil_iff. }
      destruct (byte_eqb c "]" && negb (String.eqb rds EmptyString)); [done|].
      done.
Qed.

Lemma tokenize_step c s :
  tokenize_go None (String c s) =
    match segmentAt (String c s) with
    | Some ds => TIndex ds :: tokenize_go None (dropBytes (S (String.length ds)) s)
    | None => TByte c :: tokenize_go None s
    end.
Proof.
  cbn [tokenize_go]. unfold segmentAt.
  destruct (byte_eqb c "[") eqn:Hc; [|done]. apply byte_eqb_eq in Hc as ->.
  rewrite tokenize_pending. cbn [andb]. unfold isDigits.
  rewrite allBytes_takeWhile, andb_true_r.
  change (String.rev EmptyString) with EmptyString. rewrite !string_app_nil_l.
  rewrite (andb_comm (HasPrefix _ _)).
  destruct (negb (String.eqb (takeWhile isDigit s) EmptyString)
            && HasPrefix (skipWhile isDigit s) "]") eqn:Hb.
  - do 2 f_equal.
    rewrite (dropBytes_succ s (String.length (takeWhile isDigit s))). f_equal.
    rewrite (takeWhile_skipWhile isDigit s) at 3. by rewrite dropBytes_app.
  - f_equal. rewrite <- tokenize_digits by apply allBytes_takeWhile.
    by rewrite <- takeWhile_skipWhile.
Qed.

(** *** De-indexing *)

Lemma deindex_go_skip n s : deindex_go n s = deindex_go 0 (dropBytes n s).
Proof.
  revert n. induction s as [|c s IH]; intros n.
  - by rewrite dropBytes_nil.
  - destruct n as [|n]; [done|]. simpl. apply IH.
Qed.

Lemma deindex_step c s :
  deindex (String c s) =
    match segmentAt (String c s) with
    | Some ds => deindex (dropBytes (S (String.length ds)) s)
    | None => String c (deindex s)
    end.
Proof.
  unfold deindex. cbn [deindex_go].
  destruct (segmentAt (String c s)); [apply deindex_go_skip|done].
Qed.

(** The code's [removeArrayIndices] de-indexes. *)
Lemma removeArrayIndices_deindex key : removeArrayIndices key = deindex key.
Proof.
  unfold removeArrayIndices, ReplaceAllString_empty, tokenize.
  remember (String.length key) as n eqn:Hn. revert key Hn.
  induction n as [n IH] using lt_wf_ind. intros key Hn.
  destruct key as [|c s]; [done|].
  rewrite tokenize_step, deindex_step.
  destruct (segmentAt (String c s)) as [ds|] eqn:Hseg.
  - cbn [omap list_omap]. eapply IH; [|done].
    rewrite Hn, PathUtilsFacts.dropBytes_length. simpl. lia.
  - cbn [omap list_omap]. rewrite concat_empty_cons.
    rewrite (IH (String.length s)); [done| |done]. rewrite Hn. simpl. lia.
Qed.

Lemma deindexedKeys_code data :
  set_map (D:=gset string) removeArrayIndices (dom data) = deindexedKeys data.
Proof.
  unfold deindexedKeys. apply set_eq. intros h. rewrite !elem_of_map.
  by setoid_rewrite removeArrayIndices_deindex.
Qed.

Lemma elem_of_batchKeys results h :
  h ∈ batchKeys results <->
  exists r k, r ∈ results /\ k ∈ dom (TransformedData r) /\ deindex k = h.
Proof.
  unfold batchKeys, deindexedKeys. rewrite elem_of_union_list. split.
  - intros (X & (r & -> & Hr)%list_elem_of_fmap & (k & -> & Hk)%elem_of_map). eauto.
  - intros (r & k & Hr & Hk & <-). eexists. split.
    + apply list_elem_of_fmap. eauto.
    + apply elem_of_map. eauto.
Qed.

Lemma batchKeys_code results :
  set_map (D:=gset string) removeArrayIndices (collectAllKeys results)
    = batchKeys results.
Proof.
  apply set_eq. intros h. rewrite elem_of_map, elem_of_batchKeys.
  setoid_rewrite elem_of_collectAllKeys. setoid_rewrite removeArrayIndices_deindex.
  naive_solver.
Qed.

(** *** The segments of a key *)

Lemma segments_shift start c s a n :
  omap (fun pos => pair (start + pos) <$> segmentAt (dropBytes pos (String c s)))
       (seq (S a) n)
  = omap (fun pos => pair (S start + pos) <$> segmentAt (dropBytes pos s)) (seq a n).
Proof.
  revert a. induction n as [|n IH]; intros a; [done|].
  cbn [seq omap list_omap dropBytes]. rewrite IH.
  by replace (start + S a) with (S start + a) by lia.
Qed.

Lemma segmentsFrom_cons start c s :
  segmentsFrom start (String c s) =
    match segmentAt (String c s) with
    | Some ds => (start, ds) :: segmentsFrom (S start) s
    | None => segmentsFrom (S start) s
    end.
Proof.
  unfold segmentsFrom. cbn [String.length seq omap list_omap dropBytes].
  rewrite segments_shift, Nat.add_0_r.
  by destruct (segmentAt (String c s)).
Qed.

Lemma segmentsFrom_digits start ds rest :
  allBytes isDigit ds = true ->
  segmentsFrom start (ds +:+ String "]" rest)
    = segmentsFrom (start + String.length ds + 1) rest.
Proof.
  revert start. induction ds as [|d ds IH]; intros start.
  - intros _. rewrite string_app_nil_l, segmentsFrom_cons, segmentAt_not_open by done.
    f_equal. simpl. lia.
  - cbn [allBytes]. intros [Hd Hds]%andb_prop.
    rewrite string_app_cons, segmentsFrom_cons, segmentAt_not_open
      by by apply digit_not_open.
    rewrite IH by done. f_equal. simpl. lia.
Qed.

Lemma segmentsFrom_step start c s :
  segmentsFrom start (String c s) =
    match segmentAt (String c s) with
    | Some ds =>
        (start, ds)
          :: segmentsFrom (start + String.length ds + 2)
                          (dropBytes (S (String.length ds)) s)
    | None => segmentsFrom (S start) s
    end.
Proof.
  rewrite segmentsFrom_cons.
  destruct (segmentAt (String c s)) as [ds|] eqn:Hseg; [|done].
  apply segmentAt_inv in Hseg as [[_ Hds]%isDigits_alt [rest [= -> ->]]].
  rewrite dropBytes_past, segmentsFrom_digits by done. do 2 f_equal. lia.
Qed.

(** The matches of the regular expression are the segments of the key. *)
Lemma FindAllStringSubmatch_segmentsFrom key start :
  FindAllStringSubmatch key
    = (fun '(pos, ds) => ("[" +:+ ds +:+ "]", ds)) <$> segmentsFrom start key.
Proof.
  unfold FindAllStringSubmatch, tokenize.
  remember (String.length key) as n eqn:Hn. revert key start Hn.
  induction n as [n IH] using lt_wf_ind. intros key start Hn.
  destruct key as [|c s]; [done|].
  rewrite tokenize_step, segmentsFrom_step.
  destruct (segmentAt (String c s)) as [ds|] eqn:Hseg.
  - cbn [omap list_omap fmap list_fmap tokenText]. f_equal.
    eapply IH; [|done]. rewrite Hn, PathUtilsFacts.dropBytes_length. simpl. lia.
  - cbn [omap list_omap]. eapply IH; [|done]. rewrite Hn. simpl. lia.
Qed.

Lemma elem_of_segments key pos ds :
  (pos, ds) ∈ segments key <->
  pos < String.length key /\ segmentAt (dropBytes pos key) = Some ds.
Proof.
  unfold segments, segmentsFrom. rewrite list_elem_of_omap.
  setoid_rewrite elem_of_seq. split.
  - intros (q & Hq & E). destruct (segmentAt (dropBytes q key)) eqn:Hs; [|done].
    cbn in E. simplify_eq. split; [lia|exact Hs].
  - intros [Hpos E]. exists pos. split; [lia|]. by rewrite E.
Qed.

Lemma last_of_offsets (f : nat -> option string) n pos ds :
  last (omap (fun q => pair (0 + q) <$> f q) (seq 0 n)) = Some (pos, ds) ->
  forall pos' ds',
    (pos', ds') ∈ omap (fun q => pair (0 + q) <$> f q) (seq 0 n) -> pos' <= pos.
Proof.
  revert pos ds. induction n as [|n IH]; intros pos ds; [done|].
  rewrite seq_S, omap_app. cbn [omap list_omap Nat.add].
  destruct (f n) as [d|] eqn:Hn; cbn [fmap option_fmap option_map].
  - rewrite last_snoc. intros [= <- <-] pos' ds'.
    rewrite elem_of_app, list_elem_of_omap. setoid_rewrite elem_of_seq.
    intros [(q & Hq & E)|E%list_elem_of_singleton].
    + destruct (f q); [|done]. cbn in E. simplify_eq. lia.
    + simplify_eq. lia.
  - rewrite app_nil_r. apply IH.
Qed.

(** *** [strings.LastIndex] *)

Lemma LastIndex_None s w :
  (forall j, j <= String.length s -> HasPrefix (dropBytes j s) w = false) ->
  LastIndex s w = None.
Proof.
  induction s as [|c s IH]; intros H.
  - pose proof (H 0 (Nat.le_0_l _)) as H0. cbn [dropBytes] in H0.
    cbn [LastIndex]. by rewrite H0.
  - pose proof (H 0 (Nat.le_0_l _)) as H0. cbn [dropBytes] in H0.
    cbn [LastIndex]. rewrite IH; [by rewrite H0|].
    intros j Hj. apply (H (S j)). simpl. lia.
Qed.

Lemma LastIndex_last s w i :
  i <= String.length s ->
  HasPrefix (dropBytes i s) w = true ->
  (forall j, i < j <= String.length s -> HasPrefix (dropBytes j s) w = false) ->
  LastIndex s w = Some i.
Proof.
  revert i. induction s as [|c s IH]; intros i Hi Hp Hlater.
  - destruct i; [|simpl in Hi; lia]. cbn [dropBytes] in Hp.
    cbn [LastIndex]. by rewrite Hp.
  - cbn [LastIndex]. destruct i as [|i].
    + rewrite LastIndex_None.
      * cbn [dropBytes] in Hp. by rewrite Hp.
      * intros j Hj. apply (Hlater (S j)). simpl. lia.
    + rewrite (IH i); [done| |done|].
      * simpl in Hi. lia.
      * intros j Hj. apply (Hlater (S j)). simpl. lia.
Qed.

Lemma LastIndex_last_segment key pos ds :
  last (segments key) = Some (pos, ds) ->
  LastIndex key ("[" +:+ ds +:+ "]") = Some pos.
Proof.
  intros Hlast.
  assert ((pos, ds) ∈ segments key) as Hin.
  { apply last_Some in Hlast as [l' ->]. apply elem_of_app. right.
    by apply list_elem_of_singleton. }
  apply elem_of_segments in Hin as [Hpos Hseg].
  pose proof Hseg as [Hds Hp]%segmentAt_prefix.
  apply LastIndex_last; [lia|done|].
  intros j Hj. destruct (HasPrefix (dropBytes j key) ("[" +:+ ds +:+ "]")) eqn:Hj'; [|done].
  exfalso.
  assert (segmentAt (dropBytes j key) = Some ds) as Hsegj by (by apply segmentAt_prefix).
  assert (j < String.length key) as Hlt.
  { destruct (decide (j < String.length key)) as [|Hge]; [done|].
    assert (String.length (dropBytes j key) = 0) as Hz
      by (rewrite PathUtilsFacts.dropBytes_length; lia).
    destruct (dropBytes j key); [done|simpl in Hz; lia]. }
  assert ((j, ds) ∈ segments key) as Hjin by (by apply elem_of_segments).
  pose proof (last_of_offsets (fun q => segmentAt (dropBytes q key))
                (String.length key) pos ds Hlast j ds Hjin). lia.
Qed.

(** *** The index of a segment *)

Lemma digitsValue_decimal acc ds :
  allBytes isDigit ds = true ->
  digitsValue acc ds
    = Some (foldl (fun n c => (10 * n + (Z.of_nat (nat_of_ascii c) - 48))%Z) acc
                  (list_ascii_of_string ds)).
Proof.
  revert acc. induction ds as [|c ds IH]; intros acc; [done|].
  cbn [allBytes]. intros [Hc Hds]%andb_prop.
  cbn [digitsValue list_ascii_of_string foldl]. rewrite Hc, IH by done.
  do 3 f_equal. unfold digitVal. unfold isDigit in Hc.
  apply andb_prop in Hc as [Hc%Nat.leb_le _]. lia.
Qed.

Lemma Atoi_indexNumber ds :
  isDigits ds = true -> default 0%Z (Atoi ds) = indexNumber ds.
Proof.
  intros Hds. pose proof Hds as [_ Hall]%isDigits_alt.
  rewrite (Atoi_digits ds (decimal ds) Hds (digitsValue_decimal 0 ds Hall)).
  unfold indexNumber, maxInt64.
  destruct (Z.leb_spec (decimal ds) (2 ^ 63 - 1)); case_decide; done || lia.
Qed.

(** The code's [extractArrayPathAndIndex] gives the array path and the
    index of the key. *)
Lemma extractArrayPathAndIndex_segments key :
  extractArrayPathAndIndex key =
    match arrayPathAndIndex key with
    | Some pathIndex => pathIndex
    | None => (EmptyString, (-1)%Z)
    end.
Proof.
  unfold extractArrayPathAndIndex, arrayPathAndIndex, segments.
  rewrite (FindAllStringSubmatch_segmentsFrom key 0), fmap_last.
  destruct (last (segmentsFrom 0 key)) as [[pos ds]|] eqn:Hlast; [|done].
  cbn [fmap option_fmap option_map].
  rewrite (LastIndex_last_segment key pos ds Hlast).
  assert ((pos, ds) ∈ segments key) as Hin.
  { apply last_Some in Hlast as [l' Hl]. unfold segments. rewrite Hl.
    apply elem_of_app. right. by apply list_elem_of_singleton. }
  apply elem_of_segments in Hin as [_ [Hds _]%segmentAt_inv].
  by rewrite Atoi_indexNumber.
Qed.

Lemma hasIndexSegment_segments key :
  hasIndexSegment key = bool_decide (is_Some (arrayPathAndIndex key)).
Proof.
  unfold hasIndexSegment, arrayPathAndIndex, segments.
  rewrite (FindAllStringSubmatch_segmentsFrom key 0).
  destruct (segmentsFrom 0 key) as [|x l] using rev_ind; [done|].
  rewrite last_snoc.
  rewrite bool_decide_eq_true_2 by (rewrite fmap_app; by destruct (_ <$> l)).
  by rewrite bool_decide_eq_true_2 by (cbn; eauto).
Qed.

(** *** The Cartesian product *)

Lemma omap_pointwise {A B} (f g : A -> option B) (l : list A) :
  (forall x, f x = g x) -> omap f l = omap g l.
Proof. intros H. induction l as [|x l IH]; [done|]. cbn. by rewrite H, IH. Qed.

Lemma observedPaths_segments data :
  observedPaths data ∖ {[ EmptyString ]} = arrayPathsOf data.
Proof.
  unfold observedPaths, arrayPathsOf. do 2 f_equal.
  apply omap_pointwise. intros key.
  rewrite hasIndexSegment_segments, extractArrayPathAndIndex_segments.
  destruct (arrayPathAndIndex key) as [[p i]|]; [|done].
  by rewrite bool_decide_eq_true_2 by eauto.
Qed.

Lemma observedIndices_segments data path :
  observedIndices data path = indicesAt data path.
Proof.
  unfold observedIndices, indicesAt. f_equal.
  apply omap_pointwise. intros key.
  rewrite hasIndexSegment_segments, extractArrayPathAndIndex_segments.
  destruct (arrayPathAndIndex key) as [[p i]|]; [|done].
  rewrite bool_decide_eq_true_2 by eauto. cbn.
  case_bool_decide; case_decide; done.
Qed.

Lemma productOver_segments data :
  productOver data (observedPaths data ∖ {[ EmptyString ]}) = cartesianCount data.
Proof.
  unfold productOver, cartesianCount, set_fold. cbn.
  rewrite observedPaths_segments. apply foldr_ext; [|done..].
  intros path n. by rewrite observedIndices_segments.
Qed.

Section Claims.
Variable rangeData : gmap string value -> list (string * value).
Variable Sprintf_f15 : float64 -> string.
Variable Sprintf_v : value -> string.

#[local] Abbreviation tabulate := (tabulate rangeData Sprintf_f15 Sprintf_v).
#[local] Abbreviation generateCSVRows := (generateCSVRows rangeData Sprintf_f15 Sprintf_v).
#[local] Abbreviation convertToCSV := (convertToCSV rangeData Sprintf_f15 Sprintf_v).

Lemma elem_of_convertToCSV results r :
  r ∈ convertToCSV results ->
  CSVHeaders r = analyzeUniqueKeys results /\
  CSVData r = generateCSVRows (TransformedData r) (analyzeUniqueKeys results).
Proof.
  unfold Transform.convertToCSV. destruct results as [|r0 results].
  - by intros ?%elem_of_nil.
  - by intros (r' & -> & _)%list_elem_of_fmap.
Qed.

Lemma convertToCSV_data results :
  TransformedData <$> convertToCSV results = TransformedData <$> results.
Proof.
  unfold Transform.convertToCSV. destruct results as [|r0 results]; [done|].
  rewrite <- list_fmap_compose. done.
Qed.

(** C3. The code's de-indexing strips every index segment.  The headers
    that [convertToCSV] gives to every result of a batch are the sorted,
    duplicate-free list of the de-indexed keys of all the flat maps of the
    batch, as many as there are distinct de-indexed keys in the batch, and
    every row of every result has one cell per header.  On a single flat
    map, which is [tabulate], the headers are the sorted, duplicate-free
    list of the de-indexed keys of that map. *)
Theorem batch_headers_sorted_dedup (results : list TransformedResult) :
  (forall key, removeArrayIndices key = deindex key) /\
  TransformedData <$> convertToCSV results = TransformedData <$> results /\
  (forall r, r ∈ convertToCSV results ->
     StronglySorted String.le (CSVHeaders r) /\
     NoDup (CSVHeaders r) /\
     (forall h, h ∈ CSVHeaders r <-> h ∈ batchKeys results) /\
     length (CSVHeaders r) = size (batchKeys results) /\
     (forall row, row ∈ CSVData r -> length row = length (CSVHeaders r))) /\
  (forall data,
     StronglySorted String.le (tabulate data).1 /\
     NoDup (tabulate data).1 /\
     (forall h, h ∈ (tabulate data).1 <-> h ∈ deindexedKeys data) /\
     length (tabulate data).1 = size (deindexedKeys data) /\
     (forall row, row ∈ (tabulate data).2 ->
        length row = length (tabulate data).1)).
Proof.
  split_and!.
  - apply removeArrayIndices_deindex.
  - apply convertToCSV_data.
  - intros r [-> ->]%elem_of_convertToCSV. split_and!.
    + apply analyzeUniqueKeys_sorted.
    + apply analyzeUniqueKeys_NoDup.
    + intros h. rewrite elem_of_analyzeUniqueKeys, elem_of_batchKeys.
      by setoid_rewrite removeArrayIndices_deindex.
    + by rewrite analyzeUniqueKeys_length, batchKeys_code.
    + intros row. apply generateCSVRows_row_length.
  - intros data. unfold Transform.tabulate. cbn [fst snd]. split_and!.
    + apply analyzeUniqueKeys_sorted.
    + apply analyzeUniqueKeys_NoDup.
    + intros h. rewrite elem_of_analyzeUniqueKeys. unfold deindexedKeys.
      rewrite elem_of_map. setoid_rewrite removeArrayIndices_deindex. split.
      * intros (r & k & ->%list_elem_of_singleton & Hk & E). eauto.
      * intros (k & -> & Hk). eexists _, k.
        split; [by apply list_elem_of_singleton|done].
    + by rewrite analyzeUniqueKeys_length, collectAllKeys_single, deindexedKeys_code.
    + intros row. apply generateCSVRows_row_length.
Qed.

(** The row count of [generateCSVRows]: the product, over the non-empty
    array paths of the keys, of the number of distinct indices met at the
    path.  The array path of a key is what stands before its last index
    segment, and the index is the number of that segment, or 0 when the
    number exceeds [2^63 - 1]; this is what [extractArrayPathAndIndex]
    returns. *)
Theorem generateCSVRows_count_by_segments (data : gmap string value)
    (uniqueKeys : list string) :
  length (generateCSVRows data uniqueKeys) = cartesianCount data /\
  (forall key,
     extractArrayPathAndIndex key =
       match arrayPathAndIndex key with
       | Some pathIndex => pathIndex
       | None => (EmptyString, (-1)%Z)
       end).
Proof.
  split.
  - rewrite generateCSVRows_length, generateArrayCombinations_length.
    apply productOver_segments.
  - apply extractArrayPathAndIndex_segments.
Qed.

End Claims.

(** C3, as stated, fails on a batch of two flat maps with different keys:
    each result gets the two headers of the batch, and its own flat map
    has one de-indexed key. *)
Lemma batch_headers_exceed_own_keys :
  exists r,
    r ∈ convertToCSV map_to_list (fun _ => "f") (fun _ => "v")
          Scenarios.twoClusterBatch /\
    CSVHeaders r = ["hits.cpu"; "hits.mem"] /\
    deindexedKeys (TransformedData r) = {[ "hits.cpu" ]} /\
    length (CSVHeaders r) <> size (deindexedKeys (TransformedData r)).
Proof.
  eexists. split; [apply list_elem_of_here|].
  split_and!; [vm_compute; reflexivity..|].
  vm_compute. lia.
Qed.

(** De-indexing on its own: every segment goes, the dot after a leading
    segment stays, and brackets that hold no digits, or are not closed,
    stay. *)
Example deindex_examples :
  deindex "hits[0].tags[12].name" = "hits.tags.name" /\
  deindex "[3].key" = ".key" /\
  deindex "a[].b[x1][7" = "a[].b[x1][7" /\
  deindex "m[[42]]" = "m[]" /\
  segments "hits[0].tags[12].name" = [(4, "0"); (12, "12")] /\
  arrayPathAndIndex "hits[0].tags[12].name" = Some ("hits[0].tags", 12%Z) /\
  arrayPathAndIndex "plain.key" = None.
Proof. split_and!; vm_compute; reflexivity. Qed.

(** Two keys of one array whose second index does not fit an int: both
    count as index 0, and there is one row. *)
Example overflowing_index_single_row :
  indicesAt Scenarios.overflowingIndex "a" = {[ 0%Z ]} /\
  cartesianCount Scenarios.overflowingIndex = 1 /\
  length (Transform.generateCSVRows map_to_list (fun _ => "f") (fun _ => "v")
            Scenarios.overflowingIndex ["a"]) = 1.
Proof. split_and!; vm_compute; reflexivity. Qed.

End IndexSegmentFacts.
